(** * Lagori (Seven Stones): the simulation core of [LagoriGame.tsx]

    A shallow embedding of the game's vector helpers, level presets,
    event handlers and per-frame [update], followed by the properties
    of the phase machine, the bookkeeping of the metrics and the
    geometry.

    Number model.  Coordinates, velocities and times are JavaScript
    numbers; they are modelled as real numbers [R] ([Math.hypot] is the
    Euclidean norm, [Math.sqrt] is [sqrt]).  The one place where the
    source divides by a possibly zero number without a guard
    ([segmentCircleIntersect]) is modelled with [js_div], which keeps
    the non-finite outcome apart.  The counters of [Metrics] only ever
    hold integers and are modelled as [Z].  The geometry of
    [segmentCircleIntersect] turns on the rounding of double precision;
    the last part of the definitions gives the function twice more, on
    binary64 numbers and on real numbers with a rounding after every
    operation.

    React model.  [phase] and [paused] are React state: a handler reads
    the value captured when it was created and [setPhase] only fixes
    the value seen by the next handler.  Every handler below therefore
    reads [phase] from its input state and writes it in its output
    state; a handler never reads back a phase it has just set, and
    every event is taken to find the handlers of the latest render.  The
    refs ([player], [ball], [metrics], ...) are read and written in
    place, which is plain state passing here: no two refs share an
    object (every position is copied with a spread before it is
    stored). *)

From Stdlib Require Import Floats.
From Stdlib Require Import Reals Lra Lia ZArith Bool Ascii String.
From stdpp Require Import base gmap strings.

Open Scope R_scope.

(** ** Numbers *)

Definition Rleb (a b : R) : bool := if Rle_dec a b then true else false.
Definition Rltb (a b : R) : bool := if Rlt_dec a b then true else false.
Definition Reqb0 (a : R) : bool := if Req_dec_T a 0 then true else false.

(** [Math.hypot(a, b)] *)
Definition hypot (a b : R) : R := sqrt (a * a + b * b).

(** The value of a JavaScript division [a / b] whose result is only
    compared with finite bounds afterwards: [None] stands for the
    non-finite results of a division by zero ([NaN] for [0 / 0],
    [Infinity] or [-Infinity] otherwise). *)
Definition js_div (a b : R) : option R :=
  if Reqb0 b then None else Some (a / b).

(** [t >= 0 && t <= 1]; false for [NaN], [Infinity] and [-Infinity]. *)
Definition in_unit (t : option R) : bool :=
  match t with
  | Some t => Rleb 0 t && Rleb t 1
  | None => false
  end.

(** ** Data model *)

Record Vec2 : Type := mkVec2 { x : R; y : R }.

Inductive LevelKey : Type := beginner | intermediate | advanced.

Record LevelConfig : Type := mkLevel {
  name : string;
  stones : Z;
  attempts : Z;
  opponentSpeed : R;
  playerSpeed : R
}.

Inductive Phase : Type := Intro | Aim | Dragging | Flight | Rebuild | Win | Lose.

Definition Phase_eqb (p q : Phase) : bool :=
  match p, q with
  | Intro, Intro | Aim, Aim | Dragging, Dragging | Flight, Flight
  | Rebuild, Rebuild | Win, Win | Lose, Lose => true
  | _, _ => false
  end.

Definition LEVELS (k : LevelKey) : LevelConfig :=
  match k with
  | beginner => mkLevel "Beginner" 5 3 90 160
  | intermediate => mkLevel "Intermediate" 7 3 120 165
  | advanced => mkLevel "Advanced" 9 2 150 170
  end.

Record CircleEntity : Type := mkEntity { pos : Vec2; radius : R }.

Record Metrics : Type := mkMetrics {
  score : Z;
  attemptsLeft : Z;
  stonesPlaced : Z;
  stonesTotal : Z
}.

Definition BASE_W : R := 900.
Definition BASE_H : R := 540.

(** ** Utility functions (math + collisions) *)

Definition clamp (v a b : R) : R := Rmax a (Rmin b v).
Definition len (v : Vec2) : R := hypot (x v) (y v).
Definition sub (a b : Vec2) : Vec2 := mkVec2 (x a - x b) (y a - y b).
Definition add (a b : Vec2) : Vec2 := mkVec2 (x a + x b) (y a + y b).
Definition mul (v : Vec2) (s : R) : Vec2 := mkVec2 (x v * s) (y v * s).
Definition norm (v : Vec2) : Vec2 :=
  let l := len v in
  if Reqb0 l then mkVec2 0 0 else mkVec2 (x v / l) (y v / l).
Definition dist (a b : Vec2) : R := hypot (x a - x b) (y a - y b).

Definition segmentCircleIntersect (p0 p1 c : Vec2) (r : R) : bool :=
  let d := sub p1 p0 in
  let f := sub p0 c in
  let a := x d * x d + y d * y d in
  let b := 2 * (x f * x d + y f * y d) in
  let cc := x f * x f + y f * y f - r * r in
  let discriminant := b * b - 4 * a * cc in
  if Rltb discriminant 0 then false
  else
    let discriminant := sqrt discriminant in
    let t1 := js_div (- b - discriminant) (2 * a) in
    let t2 := js_div (- b + discriminant) (2 * a) in
    in_unit t1 || in_unit t2.

(** ** The world constants *)

Module world.
Definition w : R := BASE_W.
Definition h : R := BASE_H.
Definition pilePos : Vec2 := mkVec2 (BASE_W / 2) (BASE_H / 2).
Definition pileRadius : R := 28.
Definition placeRange : R := 46.
Definition tagRange : R := 22.
Definition ballFriction : R := 985 / 1000.
Definition ballStopSpeed : R := 20.
Definition maxThrowPower : R := 600.
Definition throwPowerScale : R := 3.
End world.

(** ** The component's state *)

(** The D-pad direction held, ["up" | "down" | "left" | "right"]. *)
Inductive Dir : Type := DirUp | DirDown | DirLeft | DirRight.

Record State : Type := mkState {
  phase : Phase;
  paused : bool;
  heldDir : option Dir;
  player : CircleEntity;
  opponent : CircleEntity;
  ball : CircleEntity;
  ballVel : Vec2;
  ballActive : bool;
  pileCollapsed : bool;
  metrics : Metrics;
  keys : gmap string bool;
  dragging : bool;
  dragStart : Vec2;
  dragCurrent : Vec2
}.

(** Field updates, one per assignment form of the source. *)

Definition setPhase (p : Phase) (s : State) : State :=
  mkState p (paused s) (heldDir s) (player s) (opponent s) (ball s) (ballVel s)
    (ballActive s) (pileCollapsed s) (metrics s) (keys s) (dragging s)
    (dragStart s) (dragCurrent s).
Definition setPaused (b : bool) (s : State) : State :=
  mkState (phase s) b (heldDir s) (player s) (opponent s) (ball s) (ballVel s)
    (ballActive s) (pileCollapsed s) (metrics s) (keys s) (dragging s)
    (dragStart s) (dragCurrent s).
Definition set_heldDir (d : option Dir) (s : State) : State :=
  mkState (phase s) (paused s) d (player s) (opponent s) (ball s) (ballVel s)
    (ballActive s) (pileCollapsed s) (metrics s) (keys s) (dragging s)
    (dragStart s) (dragCurrent s).
Definition set_player_pos (p : Vec2) (s : State) : State :=
  mkState (phase s) (paused s) (heldDir s) (mkEntity p (radius (player s)))
    (opponent s) (ball s) (ballVel s)
    (ballActive s) (pileCollapsed s) (metrics s) (keys s) (dragging s)
    (dragStart s) (dragCurrent s).
Definition set_opponent_pos (p : Vec2) (s : State) : State :=
  mkState (phase s) (paused s) (heldDir s) (player s)
    (mkEntity p (radius (opponent s))) (ball s) (ballVel s)
    (ballActive s) (pileCollapsed s) (metrics s) (keys s) (dragging s)
    (dragStart s) (dragCurrent s).
Definition set_ball_pos (p : Vec2) (s : State) : State :=
  mkState (phase s) (paused s) (heldDir s) (player s) (opponent s)
    (mkEntity p (radius (ball s))) (ballVel s)
    (ballActive s) (pileCollapsed s) (metrics s) (keys s) (dragging s)
    (dragStart s) (dragCurrent s).
Definition set_ballVel (v : Vec2) (s : State) : State :=
  mkState (phase s) (paused s) (heldDir s) (player s) (opponent s) (ball s) v
    (ballActive s) (pileCollapsed s) (metrics s) (keys s) (dragging s)
    (dragStart s) (dragCurrent s).
Definition set_ballActive (b : bool) (s : State) : State :=
  mkState (phase s) (paused s) (heldDir s) (player s) (opponent s) (ball s)
    (ballVel s) b (pileCollapsed s) (metrics s) (keys s) (dragging s)
    (dragStart s) (dragCurrent s).
Definition set_pileCollapsed (b : bool) (s : State) : State :=
  mkState (phase s) (paused s) (heldDir s) (player s) (opponent s) (ball s)
    (ballVel s) (ballActive s) b (metrics s) (keys s) (dragging s)
    (dragStart s) (dragCurrent s).
Definition set_metrics (m : Metrics) (s : State) : State :=
  mkState (phase s) (paused s) (heldDir s) (player s) (opponent s) (ball s)
    (ballVel s) (ballActive s) (pileCollapsed s) m (keys s) (dragging s)
    (dragStart s) (dragCurrent s).
Definition set_keys (k : gmap string bool) (s : State) : State :=
  mkState (phase s) (paused s) (heldDir s) (player s) (opponent s) (ball s)
    (ballVel s) (ballActive s) (pileCollapsed s) (metrics s) k (dragging s)
    (dragStart s) (dragCurrent s).
Definition set_dragging (b : bool) (s : State) : State :=
  mkState (phase s) (paused s) (heldDir s) (player s) (opponent s) (ball s)
    (ballVel s) (ballActive s) (pileCollapsed s) (metrics s) (keys s) b
    (dragStart s) (dragCurrent s).
Definition set_dragStart (p : Vec2) (s : State) : State :=
  mkState (phase s) (paused s) (heldDir s) (player s) (opponent s) (ball s)
    (ballVel s) (ballActive s) (pileCollapsed s) (metrics s) (keys s)
    (dragging s) p (dragCurrent s).
Definition set_dragCurrent (p : Vec2) (s : State) : State :=
  mkState (phase s) (paused s) (heldDir s) (player s) (opponent s) (ball s)
    (ballVel s) (ballActive s) (pileCollapsed s) (metrics s) (keys s)
    (dragging s) (dragStart s) p.

Definition set_score (n : Z) (m : Metrics) : Metrics :=
  mkMetrics n (attemptsLeft m) (stonesPlaced m) (stonesTotal m).
Definition set_attemptsLeft (n : Z) (m : Metrics) : Metrics :=
  mkMetrics (score m) n (stonesPlaced m) (stonesTotal m).
Definition set_stonesPlaced (n : Z) (m : Metrics) : Metrics :=
  mkMetrics (score m) (attemptsLeft m) n (stonesTotal m).
Definition set_stonesTotal (n : Z) (m : Metrics) : Metrics :=
  mkMetrics (score m) (attemptsLeft m) (stonesPlaced m) n.

(** ** Entities, spawn points and the initial refs *)

(** [randomEdgeSpawn(w, h)]: [u1] and [u2] are the results of the two
    calls of [Math.random()], in order. *)
Definition randomEdgeSpawn (w h : R) (u1 u2 : R) : Vec2 :=
  let side := Int_part (u1 * 4) in
  let margin := 20 in
  if (side =? 0)%Z then mkVec2 margin (u2 * (h - 2 * margin) + margin)
  else if (side =? 1)%Z then mkVec2 (w - margin) (u2 * (h - 2 * margin) + margin)
  else if (side =? 2)%Z then mkVec2 (u2 * (w - 2 * margin) + margin) margin
  else mkVec2 (u2 * (w - 2 * margin) + margin) (h - margin).

Definition spawnPoint : Vec2 := mkVec2 130 (BASE_H - 90).

(** The refs as [useRef] and [useState] create them on mount. *)
Definition initState (level : LevelConfig) : State :=
  mkState Intro false None
    (mkEntity spawnPoint 14)
    (mkEntity (mkVec2 (BASE_W - 120) 80) 14)
    (mkEntity spawnPoint 8)
    (mkVec2 0 0) false false
    (mkMetrics 0 (attempts level) 0 (stones level))
    ∅ false (mkVec2 0 0) (mkVec2 0 0).

(** ** Handlers *)

Section Handlers.

Variable level : LevelConfig.

Definition resetRound (keepScore : bool) (u1 u2 : R) (s : State) : State :=
  let m := set_attemptsLeft (attempts level) (metrics s) in
  let m := set_stonesPlaced 0 m in
  let m := set_stonesTotal (stones level) m in
  let m := if negb keepScore then set_score 0 m else m in
  let s := set_metrics m s in
  let s := set_player_pos (mkVec2 130 (BASE_H - 90)) s in
  let s := set_opponent_pos (randomEdgeSpawn BASE_W BASE_H u1 u2) s in
  let s := set_ball_pos (pos (player s)) s in
  let s := set_ballVel (mkVec2 0 0) s in
  let s := set_ballActive false s in
  let s := set_pileCollapsed false s in
  setPhase Aim s.

Definition startGame (u1 u2 : R) (s : State) : State :=
  let s := set_metrics (set_score 0 (metrics s)) s in
  resetRound false u1 u2 s.

Definition tryPlaceStone (s : State) : State :=
  if negb (Phase_eqb (phase s) Rebuild) then s
  else
    let near := Rleb (dist (pos (player s)) world.pilePos) world.placeRange in
    if negb near then s
    else if (stonesPlaced (metrics s) <? stonesTotal (metrics s))%Z then
      let s1 := set_metrics
                  (set_stonesPlaced (stonesPlaced (metrics s) + 1) (metrics s)) s in
      if (stonesPlaced (metrics s1) >=? stonesTotal (metrics s1))%Z then
        let s2 := set_metrics (set_score (score (metrics s1) + 50) (metrics s1)) s1 in
        setPhase Win s2
      else s1
    else s.

(** [keys.current[k]] read as a condition: a missing key is [undefined]. *)
Definition held (k : string) (s : State) : bool := default false (keys s !! k).

(** [String.prototype.toLowerCase] on the ASCII letters. *)
Definition lower_ascii (c : ascii) : ascii :=
  let n := nat_of_ascii c in
  if ((65 <=? n) && (n <=? 90))%nat then ascii_of_nat (n + 32) else c.

Fixpoint toLowerCase (k : string) : string :=
  match k with
  | EmptyString => EmptyString
  | String c k' => String (lower_ascii c) (toLowerCase k')
  end.

(** [onDown], the [keydown] handler: [key] is [e.key], [code] is [e.code]. *)
Definition onDown (key code : string) (s : State) : State :=
  let s1 := set_keys (<[toLowerCase key := true]> (keys s)) s in
  let s2 := if String.eqb code "Space" && Phase_eqb (phase s) Rebuild
            then tryPlaceStone s1 else s1 in
  if String.eqb (toLowerCase key) "p" then setPaused (negb (paused s)) s2 else s2.

(** [onUp], the [keyup] handler. *)
Definition onUp (key : string) (s : State) : State :=
  set_keys (<[toLowerCase key := false]> (keys s)) s.

(** [down], the [pointerdown] handler; [pt] is [getLocal(e)]. *)
Definition pointer_down (pt : Vec2) (s : State) : State :=
  if negb (Phase_eqb (phase s) Aim) then
    if Phase_eqb (phase s) Rebuild then tryPlaceStone s else s
  else
    let s := set_dragging true s in
    let s := set_dragStart (pos (player s)) s in
    let s := set_dragCurrent pt s in
    setPhase Dragging s.

(** [move], the [pointermove] handler. *)
Definition pointer_move (pt : Vec2) (s : State) : State :=
  if negb (dragging s) then s else set_dragCurrent pt s.

(** [up], the handler of [pointerup] and [pointercancel]. *)
Definition pointer_up (s : State) : State :=
  if negb (dragging s) then s
  else
    let s := set_dragging false s in
    let dir := sub (dragCurrent s) (dragStart s) in
    let power := clamp (len dir * world.throwPowerScale) 0 world.maxThrowPower in
    let v := mul (norm dir) power in
    let s := set_ball_pos (pos (player s)) s in
    let s := set_ballVel v s in
    let s := set_ballActive true s in
    setPhase Flight s.

(** The first block of [update]: the player, the opponent and the tag. *)
Definition update_rebuild (dt : R) (s : State) : State :=
  let my := 0 in
  let my := if held "w" s || held "arrowup" s then my - 1 else my in
  let my := if held "s" s || held "arrowdown" s then my + 1 else my in
  let mx := 0 in
  let mx := if held "a" s || held "arrowleft" s then mx - 1 else mx in
  let mx := if held "d" s || held "arrowright" s then mx + 1 else mx in
  let v := norm (mkVec2 mx my) in
  let px := clamp (x (pos (player s)) + x v * playerSpeed level * dt) 10 (BASE_W - 10) in
  let py := clamp (y (pos (player s)) + y v * playerSpeed level * dt) 10 (BASE_H - 10) in
  let p :=
    match heldDir s with
    | Some DirUp => mkVec2 px (Rmax 10 (py - playerSpeed level * dt))
    | Some DirDown => mkVec2 px (Rmin (BASE_H - 10) (py + playerSpeed level * dt))
    | Some DirLeft => mkVec2 (Rmax 10 (px - playerSpeed level * dt)) py
    | Some DirRight => mkVec2 (Rmin (BASE_W - 10) (px + playerSpeed level * dt)) py
    | None => mkVec2 px py
    end in
  let s := set_player_pos p s in
  let dir := norm (sub (pos (player s)) (pos (opponent s))) in
  let s := set_opponent_pos
             (mkVec2 (x (pos (opponent s)) + x dir * opponentSpeed level * dt)
                     (y (pos (opponent s)) + y dir * opponentSpeed level * dt)) s in
  if Rleb (dist (pos (player s)) (pos (opponent s))) world.tagRange
  then setPhase Lose s else s.

(** The second block of [update]: the ball in flight. *)
Definition update_flight (dt : R) (u1 u2 : R) (s : State) : State :=
  let prev := pos (ball s) in
  let s := set_ball_pos (mkVec2 (x (pos (ball s)) + x (ballVel s) * dt)
                                (y (pos (ball s)) + y (ballVel s) * dt)) s in
  let s := set_ballVel (mkVec2 (x (ballVel s) * world.ballFriction)
                               (y (ballVel s) * world.ballFriction)) s in
  let s :=
    if negb (pileCollapsed s) &&
       segmentCircleIntersect prev (pos (ball s)) world.pilePos world.pileRadius
    then
      let s := set_pileCollapsed true s in
      let s := set_metrics (set_score (score (metrics s) + 10) (metrics s)) s in
      let s := set_opponent_pos (randomEdgeSpawn BASE_W BASE_H u1 u2) s in
      let s := setPhase Rebuild s in
      set_ballActive false s
    else s in
  let speed := len (ballVel s) in
  let out :=
    Rltb (x (pos (ball s))) (- 50) || Rltb (BASE_W + 50) (x (pos (ball s))) ||
    Rltb (y (pos (ball s))) (- 50) || Rltb (BASE_H + 50) (y (pos (ball s))) in
  if Rltb speed world.ballStopSpeed || out then
    let s := set_ballActive false s in
    if negb (pileCollapsed s) then
      let s := set_metrics
                 (set_attemptsLeft (attemptsLeft (metrics s) - 1) (metrics s)) s in
      if (attemptsLeft (metrics s) >? 0)%Z then setPhase Aim s else setPhase Lose s
    else setPhase Rebuild s
  else s.

(** Per-frame update.  Both tests read the [phase] captured by the
    closure, that is the phase of the incoming state. *)
Definition update (dt : R) (u1 u2 : R) (s : State) : State :=
  let s1 := if Phase_eqb (phase s) Rebuild then update_rebuild dt s else s in
  if Phase_eqb (phase s) Flight && ballActive s1
  then update_flight dt u1 u2 s1 else s1.

(** One animation frame of [loop]; [elapsed] is [now - last] in
    milliseconds. *)
Definition loop (elapsed : R) (u1 u2 : R) (s : State) : State :=
  let dt := Rmin 50 elapsed / 1000 in
  if negb (paused s) then update dt u1 u2 s else s.

End Handlers.

(** ** Events and reachable states *)

(** What the environment can do to the component: an animation frame,
    the keyboard, the pointer on the canvas, the on-screen pad and
    buttons.  The random numbers drawn by a handler come with its
    event. *)
Inductive Event : Type :=
| Frame (elapsed u1 u2 : R)
| KeyDown (key code : string)
| KeyUp (key : string)
| PointerDown (pt : Vec2)
| PointerMove (pt : Vec2)
| PointerUp
| HoldDir (d : option Dir)
| PlaceButton
| ResetRound (keepScore : bool) (u1 u2 : R)
| StartGame (u1 u2 : R).

Definition step (level : LevelConfig) (s : State) (e : Event) : State :=
  match e with
  | Frame elapsed u1 u2 => loop level elapsed u1 u2 s
  | KeyDown key code => onDown key code s
  | KeyUp key => onUp key s
  | PointerDown pt => pointer_down pt s
  | PointerMove pt => pointer_move pt s
  | PointerUp => pointer_up s
  | HoldDir d => set_heldDir d s
  | PlaceButton => tryPlaceStone s
  | ResetRound keepScore u1 u2 => resetRound level keepScore u1 u2 s
  | StartGame u1 u2 => startGame level u1 u2 s
  end.

Fixpoint run (level : LevelConfig) (s : State) (es : list Event) : State :=
  match es with
  | [] => s
  | e :: es' => run level (step level s e) es'
  end.

(** The events that start a round. *)
Definition is_reset (e : Event) : bool :=
  match e with
  | ResetRound _ _ _ | StartGame _ _ => true
  | _ => false
  end.

Inductive reachable_from (level : LevelConfig) (s0 : State) : State -> Prop :=
| reach_start : reachable_from level s0 s0
| reach_step s e :
    reachable_from level s0 s -> reachable_from level s0 (step level s e).

(** The states of the mounted component playing level [k]. *)
Definition reachable (k : LevelKey) (s : State) : Prop :=
  reachable_from (LEVELS k) (initState (LEVELS k)) s.

(** A round start: the state [resetRound] leaves, whatever came before. *)
Definition round_start (level : LevelConfig) (s : State) : Prop :=
  exists keepScore u1 u2 s0, s = resetRound level keepScore u1 u2 s0.

Definition terminal (p : Phase) : bool :=
  match p with Win | Lose => true | _ => false end.

Definition throwing (p : Phase) : bool :=
  match p with Aim | Dragging | Flight => true | _ => false end.

(** The bookkeeping invariant of the phase machine. *)
Record Inv (level : LevelConfig) (s : State) : Prop := mkInv {
  inv_placed_lo : (0 <= stonesPlaced (metrics s))%Z;
  inv_placed_hi : (stonesPlaced (metrics s) <= stonesTotal (metrics s))%Z;
  inv_attempts : (0 <= attemptsLeft (metrics s))%Z;
  inv_budget : (attemptsLeft (metrics s) <= attempts level)%Z;
  inv_throwing :
    throwing (phase s) = true ->
    pileCollapsed s = false /\ (0 < attemptsLeft (metrics s))%Z /\
    (stonesPlaced (metrics s) < stonesTotal (metrics s))%Z;
  inv_flight : phase s = Flight -> ballActive s = true;
  inv_dragging : phase s = Dragging -> dragging s = true;
  inv_drag_phase : dragging s = true -> phase s = Aim \/ phase s = Dragging;
  inv_rebuild :
    phase s = Rebuild ->
    pileCollapsed s = true /\ (stonesPlaced (metrics s) < stonesTotal (metrics s))%Z;
  inv_win : phase s = Win -> stonesPlaced (metrics s) = stonesTotal (metrics s)
}.

(** What the presets guarantee and the invariant needs. *)
Definition level_ok (level : LevelConfig) : Prop :=
  (0 < stones level)%Z /\ (0 < attempts level)%Z.


(** ** Vocabulary of the properties *)

(** The position and velocity [update] gives the ball on a flight tick. *)
Definition ball_next (dt : R) (s : State) : Vec2 :=
  mkVec2 (x (pos (ball s)) + x (ballVel s) * dt)
         (y (pos (ball s)) + y (ballVel s) * dt).

Definition vel_next (s : State) : Vec2 :=
  mkVec2 (x (ballVel s) * world.ballFriction) (y (ballVel s) * world.ballFriction).

(** The ball's motion segment of this tick meets the pile circle. *)
Definition hits_pile (dt : R) (s : State) : bool :=
  segmentCircleIntersect (pos (ball s)) (ball_next dt s) world.pilePos world.pileRadius.

(** The ball has left the field by more than the 50-unit margin. *)
Definition out_of_field (p : Vec2) : bool :=
  Rltb (x p) (- 50) || Rltb (BASE_W + 50) (x p) ||
  Rltb (y p) (- 50) || Rltb (BASE_H + 50) (y p).

(** The stop condition of a flight tick. *)
Definition ball_stops (dt : R) (s : State) : bool :=
  Rltb (len (vel_next s)) world.ballStopSpeed || out_of_field (ball_next dt s).

(** The frame runs the flight block of [update]. *)
Definition flight_tick (s : State) (e : Event) : bool :=
  match e with
  | Frame _ _ _ => negb (paused s) && Phase_eqb (phase s) Flight && ballActive s
  | _ => false
  end.

Definition frame_dt (e : Event) : R :=
  match e with
  | Frame elapsed _ _ => Rmin 50 elapsed / 1000
  | _ => 0
  end.

(** A throw ends without the pile having been hit. *)
Definition failed_throw (s : State) (e : Event) : bool :=
  flight_tick s e && negb (pileCollapsed s) && negb (hits_pile (frame_dt e) s)
  && ball_stops (frame_dt e) s.

(** The pile is hit while it stands. *)
Definition collapsing (s : State) (e : Event) : bool :=
  flight_tick s e && negb (pileCollapsed s) && hits_pile (frame_dt e) s.

(** The player stands within place-range of the pile centre. *)
Definition near_pile (s : State) : bool :=
  Rleb (dist (pos (player s)) world.pilePos) world.placeRange.

(** The events that reach [tryPlaceStone]: the Place button, the Space
    key and a pointer press during the rebuild phase. *)
Definition place_action (s : State) (e : Event) : bool :=
  match e with
  | PlaceButton => true
  | PointerDown _ => Phase_eqb (phase s) Rebuild
  | KeyDown _ code => String.eqb code "Space" && Phase_eqb (phase s) Rebuild
  | _ => false
  end.

(** How many times the +10 of the collapse is granted along a run. *)
Fixpoint collapse_awards (level : LevelConfig) (s : State) (es : list Event) : nat :=
  match es with
  | [] => 0
  | e :: es' =>
      (if (score (metrics (step level s e)) =? score (metrics s) + 10)%Z
       then 1 else 0)%nat
      + collapse_awards level (step level s e) es'
  end.

(** The place action puts a stone on the pile. *)
Definition placing (s : State) (e : Event) : bool :=
  place_action s e && Phase_eqb (phase s) Rebuild && near_pile s
  && (stonesPlaced (metrics s) <? stonesTotal (metrics s))%Z.

(** The place action puts the last stone on the pile. *)
Definition completing (s : State) (e : Event) : bool :=
  placing s e && (stonesPlaced (metrics s) + 1 >=? stonesTotal (metrics s))%Z.

(** ** Scenarios *)

(** A press and release on the player itself: a throw of zero length. *)
Definition zero_drag : list Event :=
  [StartGame 0 0; PointerDown spawnPoint; PointerUp].

(** ** Vocabulary of the geometry *)

(** The root test of [segmentCircleIntersect] on the coefficients of its
    quadratic. *)
Definition root_test (a b cc : R) : bool :=
  let discriminant := b * b - 4 * a * cc in
  if Rltb discriminant 0 then false
  else
    let discriminant := sqrt discriminant in
    in_unit (js_div (- b - discriminant) (2 * a))
    || in_unit (js_div (- b + discriminant) (2 * a)).

(** The point [c] lies on the segment from [p0] to [p1]. *)
Definition on_segment (p0 p1 c : Vec2) : Prop :=
  exists t, 0 <= t <= 1
            /\ x c = x p0 + t * (x p1 - x p0)
            /\ y c = y p0 + t * (y p1 - y p0).

(** A short segment across the centre of the pile. *)
Definition inside_p0 : Vec2 := mkVec2 440 270.
Definition inside_p1 : Vec2 := mkVec2 460 270.

(** A tick-long segment that ends on the centre of the pile. *)
Definition crossing_p0 : Vec2 := mkVec2 420 270.

(** ** Vocabulary of the player's motion *)

(** The vector [move] that [update] sums from the keys held. *)
Definition keyboard_move (s : State) : Vec2 :=
  let my := 0 in
  let my := if held "w" s || held "arrowup" s then my - 1 else my in
  let my := if held "s" s || held "arrowdown" s then my + 1 else my in
  let mx := 0 in
  let mx := if held "a" s || held "arrowleft" s then mx - 1 else mx in
  let mx := if held "d" s || held "arrowright" s then mx + 1 else mx in
  mkVec2 mx my.

(** The player stands inside the field, 10 units off its border. *)
Definition in_field (p : Vec2) : Prop :=
  10 <= x p <= BASE_W - 10 /\ 10 <= y p <= BASE_H - 10.

(** ** A round of the beginner level, event by event *)

(** The pointer is pressed at [aim_at]: the drag vector is (300, -160),
    of length 340, and the throw has the full power 600 along
    (15/17, -8/17). *)
Definition aim_at : Vec2 := mkVec2 430 290.

Definition throw : list Event := [StartGame 0 0; PointerDown aim_at; PointerUp].

(** A frame of 50 ms; its random numbers put the opponent on the right
    edge, at (880, 20). *)
Definition tick : Event := Frame 50 (1 / 4) 0.

(** The ball after some ticks of flight, [t] being the power of the
    friction factor reached: it has travelled 2000 (1 - t) units. *)
Definition ball_at (t : R) : Vec2 :=
  mkVec2 (130 + 15 / 17 * (2000 * (1 - t))) (450 - 8 / 17 * (2000 * (1 - t))).

Definition vel_at (t : R) : Vec2 :=
  mkVec2 (15 / 17 * (600 * t)) (- (8 / 17) * (600 * t)).

Definition flying (t : R) : State :=
  mkState Flight false None
    (mkEntity spawnPoint 14)
    (mkEntity (randomEdgeSpawn BASE_W BASE_H 0 0) 14)
    (mkEntity (ball_at t) 8) (vel_at t) true false
    (mkMetrics 0 3 0 5) ∅ false spawnPoint aim_at.

(** The state left by the tick that collapses the pile, the thirteenth
    of the flight. *)
Definition collapsed : State :=
  mkState Rebuild false None
    (mkEntity spawnPoint 14)
    (mkEntity (mkVec2 880 20) 14)
    (mkEntity (ball_at (world.ballFriction ^ 13)) 8)
    (vel_at (world.ballFriction ^ 13)) false true
    (mkMetrics 10 3 0 5) ∅ false spawnPoint aim_at.

(** The player walking in the rebuild phase with the keys [ks] and the
    pad direction [d] held, at [p], the opponent at [o]. *)
Definition walking (ks : gmap string bool) (d : option Dir) (p o : Vec2) : State :=
  mkState Rebuild false d
    (mkEntity p 14) (mkEntity o 14)
    (mkEntity (ball_at (world.ballFriction ^ 13)) 8)
    (vel_at (world.ballFriction ^ 13)) false true
    (mkMetrics 10 3 0 5) ks false spawnPoint aim_at.

(** The D key and the right button of the pad held together. *)
Definition both_right : State :=
  run (LEVELS beginner) collapsed [KeyDown "d" "KeyD"; HoldDir (Some DirRight)].

(** The position [update] gives the player on a rebuild tick. *)
Definition player_next (level : LevelConfig) (dt : R) (s : State) : Vec2 :=
  let v := norm (keyboard_move s) in
  let px := clamp (x (pos (player s)) + x v * playerSpeed level * dt) 10 (BASE_W - 10) in
  let py := clamp (y (pos (player s)) + y v * playerSpeed level * dt) 10 (BASE_H - 10) in
  match heldDir s with
  | Some DirUp => mkVec2 px (Rmax 10 (py - playerSpeed level * dt))
  | Some DirDown => mkVec2 px (Rmin (BASE_H - 10) (py + playerSpeed level * dt))
  | Some DirLeft => mkVec2 (Rmax 10 (px - playerSpeed level * dt)) py
  | Some DirRight => mkVec2 (Rmin (BASE_W - 10) (px + playerSpeed level * dt)) py
  | None => mkVec2 px py
  end.

(** The position [update] gives the opponent when the player is at [p]. *)
Definition opponent_next (level : LevelConfig) (dt : R) (p o : Vec2) : Vec2 :=
  let dir := norm (sub p o) in
  mkVec2 (x o + x dir * opponentSpeed level * dt)
         (y o + y dir * opponentSpeed level * dt).

(** The events of the round: the throw, thirteen ticks of flight, the
    walk up with the W key and the up button, the walk to the right with
    the D key and the right button. *)
Definition walk_up : list Event :=
  [KeyDown "w" "KeyW"; HoldDir (Some DirUp)] ++ repeat tick 11.

Definition walk_right : list Event :=
  [KeyUp "w"; KeyDown "d" "KeyD"; HoldDir (Some DirRight)] ++ repeat tick 18.

Definition to_the_pile : list Event :=
  throw ++ repeat tick 13 ++ walk_up ++ walk_right.

(** The keys held during the walk up and during the walk to the right. *)
Definition keys_up : gmap string bool := <["w" := true]> ∅.
Definition keys_right : gmap string bool := <["d" := true]> (<["w" := false]> keys_up).

(** ** The rest of the component *)

(** [handleMove(dir)], the single-step move of the on-screen pad; the
    component defines it next to the held-button movement of [update]. *)
Definition handleMove (level : LevelConfig) (dir : Dir) (s : State) : State :=
  if negb (Phase_eqb (phase s) Rebuild) then s
  else
    let speed := playerSpeed level * (1 / 10) in
    let p := pos (player s) in
    match dir with
    | DirUp => set_player_pos (mkVec2 (x p) (Rmax 10 (y p - speed))) s
    | DirDown => set_player_pos (mkVec2 (x p) (Rmin (BASE_H - 10) (y p + speed))) s
    | DirLeft => set_player_pos (mkVec2 (Rmax 10 (x p - speed)) (y p)) s
    | DirRight => set_player_pos (mkVec2 (Rmin (BASE_W - 10) (x p + speed)) (y p)) s
    end.

(** The point of parameter [t] on the segment from [p0] to [p1]. *)
Definition segment_point (p0 p1 : Vec2) (t : R) : Vec2 :=
  mkVec2 (x p0 + t * (x p1 - x p0)) (y p0 + t * (y p1 - y p0)).

(** The rectangle 20 units inside a [w] by [h] field, and its border. *)
Definition on_spawn_border (w h : R) (p : Vec2) : Prop :=
  20 <= x p <= w - 20 /\ 20 <= y p <= h - 20
  /\ (x p = 20 \/ x p = w - 20 \/ y p = 20 \/ y p = h - 20).

(** The arrows of the phase machine, a round start apart. *)
Definition phase_edge (p q : Phase) : bool :=
  match p, q with
  | Aim, Dragging | Aim, Flight | Dragging, Flight
  | Flight, Aim | Flight, Lose | Flight, Rebuild
  | Rebuild, Win | Rebuild, Lose => true
  | _, _ => Phase_eqb p q
  end.

Definition is_frame (e : Event) : bool :=
  match e with Frame _ _ _ => true | _ => false end.

(** What else every reachable state satisfies: a won round has a
    collapsed pile, no stone is placed while the pile stands, the player
    waits on its spawn point until the rebuild phase, and the ball is
    never faster than the strongest throw. *)
Definition Inv2 (s : State) : Prop :=
  (phase s = Win -> pileCollapsed s = true)
  /\ (pileCollapsed s = false -> stonesPlaced (metrics s) = 0%Z)
  /\ (phase s = Intro \/ throwing (phase s) = true -> pos (player s) = spawnPoint)
  /\ len (ballVel s) <= world.maxThrowPower.

(** The Pause button of the component. *)
Definition pause_button (s : State) : State := setPaused (negb (paused s)) s.

(** A frame whose elapsed time is not negative; any other event. *)
Definition forward (e : Event) : Prop :=
  match e with
  | Frame elapsed _ _ => 0 <= elapsed
  | _ => True
  end.

(** ** [segmentCircleIntersect] in double precision *)

(** The numbers of the source are IEEE 754 binary64 values, and every
    arithmetic operation rounds its exact result to the nearest of
    them.  Two renderings of [segmentCircleIntersect] keep the
    rounding.  [F64.segmentCircleIntersect] computes on the binary64
    numbers themselves, operation for operation.
    [segmentCircleIntersect_rnd] computes on real numbers and rounds
    after every operation with a function [rnd] of which only the
    standard model of floating-point arithmetic is known
    ([rounding]): the relative error of a rounding is at most the unit
    roundoff [2^-53], or its absolute error at most [2^-1075] in the
    subnormal range.  Rounding to nearest on binary64 is such a
    function as long as no intermediate result overflows. *)

Module F64.
Local Open Scope float_scope.

Record Vec2 : Type := mkVec2 { x : float; y : float }.

Definition sub (a b : Vec2) : Vec2 := mkVec2 (x a - x b) (y a - y b).

Definition segmentCircleIntersect (p0 p1 c : Vec2) (r : float) : bool :=
  let d := sub p1 p0 in
  let f := sub p0 c in
  let a := x d * x d + y d * y d in
  let b := 2 * (x f * x d + y f * y d) in
  let cc := x f * x f + y f * y f - r * r in
  let discriminant := b * b - 4 * a * cc in
  if discriminant <? 0 then false
  else
    let discriminant := PrimFloat.sqrt discriminant in
    let t1 := (- b - discriminant) / (2 * a) in
    let t2 := (- b + discriminant) / (2 * a) in
    ((0 <=? t1) && (t1 <=? 1)) || ((0 <=? t2) && (t2 <=? 1)).

End F64.

Definition unit_roundoff : R := / 2 ^ 53.
Definition underflow_unit : R := / 2 ^ 1075.

Definition rounding (rnd : R -> R) : Prop :=
  forall v, Rabs (rnd v - v) <= unit_roundoff * Rabs v + underflow_unit.

Section Rounded.

Variable rnd : R -> R.

Definition sub_rnd (a b : Vec2) : Vec2 :=
  mkVec2 (rnd (x a - x b)) (rnd (y a - y b)).

(** A rounded division; [None] as in [js_div]. *)
Definition div_rnd (a b : R) : option R :=
  match js_div a b with
  | Some q => Some (rnd q)
  | None => None
  end.

Definition segmentCircleIntersect_rnd (p0 p1 c : Vec2) (r : R) : bool :=
  let d := sub_rnd p1 p0 in
  let f := sub_rnd p0 c in
  let a := rnd (rnd (x d * x d) + rnd (y d * y d)) in
  let b := rnd (2 * rnd (rnd (x f * x d) + rnd (y f * y d))) in
  let cc := rnd (rnd (rnd (x f * x f) + rnd (y f * y f)) - rnd (r * r)) in
  let discriminant := rnd (rnd (b * b) - rnd (rnd (4 * a) * cc)) in
  if Rltb discriminant 0 then false
  else
    let discriminant := rnd (sqrt discriminant) in
    let t1 := div_rnd (rnd (- b - discriminant)) (rnd (2 * a)) in
    let t2 := div_rnd (rnd (- b + discriminant)) (rnd (2 * a)) in
    in_unit t1 || in_unit t2.

End Rounded.

(** An arithmetic that rounds every result upwards in magnitude by the
    unit roundoff. *)
Definition round_away (v : R) : R := v * (1 + unit_roundoff).

(** The squared distance of two points and the length of a segment. *)
Definition sq_dist (a b : Vec2) : R :=
  (x a - x b) * (x a - x b) + (y a - y b) * (y a - y b).

Definition seg_length (p0 p1 : Vec2) : R := sqrt (sq_dist p1 p0).

(** The inputs the rounded test is analysed on: coordinates and radius
    of magnitude at most 1000 (the field is 900 by 540) and a segment
    at least a millionth of a unit long. *)
Definition in_range (p0 p1 c : Vec2) (r : R) : Prop :=
  Rabs (x p0) <= 1000 /\ Rabs (y p0) <= 1000
  /\ Rabs (x p1) <= 1000 /\ Rabs (y p1) <= 1000
  /\ Rabs (x c) <= 1000 /\ Rabs (y c) <= 1000
  /\ 0 < r <= 1000
  /\ 1 / 1000000 <= seg_length p0 p1.

Definition tangency_tolerance : R := 1 / 1000.
Definition endpoint_tolerance : R := 1 / 10000.

(** The circle is clear of the thresholds of the test: the line of the
    segment either stays outside the circle or enters it, by
    [tangency_tolerance] in squared distance to the centre, and no point
    where the line meets the circle is within [endpoint_tolerance] of an
    endpoint of the segment. *)
Definition clear_of_rounding (p0 p1 c : Vec2) (r : R) : Prop :=
  ((forall t, r * r + tangency_tolerance <= sq_dist (segment_point p0 p1 t) c)
   \/ (exists t, sq_dist (segment_point p0 p1 t) c <= r * r - tangency_tolerance))
  /\ (forall t, sq_dist (segment_point p0 p1 t) c = r * r ->
        endpoint_tolerance <= Rabs t * seg_length p0 p1
        /\ endpoint_tolerance <= Rabs (1 - t) * seg_length p0 p1).

(** ** The invariant holds in every reachable state *)

Lemma LEVELS_ok (k : LevelKey) : level_ok (LEVELS k).
Proof. destruct k; split; reflexivity. Qed.

Ltac break_state s :=
  destruct s as [ph pau hd pl op bl bv ba pc mt ks dg ds dc];
  destruct mt as [sc al sp st].

Ltac case_tests :=
  repeat match goal with
  | |- context [if ?b then _ else _] => destruct b eqn:?; simpl in *
  | H : context [if ?b then _ else _] |- _ => destruct b eqn:?; simpl in *
  end.

Ltac z_tests :=
  repeat match goal with
  | H : (_ <? _)%Z = true |- _ => apply Z.ltb_lt in H
  | H : (_ <? _)%Z = false |- _ => apply Z.ltb_ge in H
  | H : (_ >? _)%Z = true |- _ => rewrite Z.gtb_ltb in H
  | H : (_ >? _)%Z = false |- _ => rewrite Z.gtb_ltb in H
  | H : (_ >=? _)%Z = true |- _ => rewrite Z.geb_leb in H; apply Z.leb_le in H
  | H : (_ >=? _)%Z = false |- _ => rewrite Z.geb_leb in H; apply Z.leb_gt in H
  end.

Ltac close_inv :=
  constructor; simpl in *; intros;
  intuition (try discriminate; try congruence; try lia).

Ltac keep_or_close H :=
  first [exact H | destruct H; z_tests; close_inv].

Section Invariant.

Variable level : LevelConfig.
Hypothesis Hlevel : level_ok level.

Lemma Inv_init : Inv level (initState level).
Proof. destruct Hlevel. close_inv. Qed.

Lemma Inv_resetRound keepScore u1 u2 s : Inv level (resetRound level keepScore u1 u2 s).
Proof. destruct Hlevel. break_state s. destruct keepScore; close_inv. Qed.

Lemma Inv_tryPlaceStone s : Inv level s -> Inv level (tryPlaceStone s).
Proof.
  break_state s. intros H.
  unfold tryPlaceStone; simpl in *.
  destruct ph; simpl in *; case_tests; keep_or_close H.
Qed.

Lemma Inv_set_keys k s : Inv level s -> Inv level (set_keys k s).
Proof. intros []. close_inv. Qed.

Lemma Inv_setPaused b s : Inv level s -> Inv level (setPaused b s).
Proof. intros []. close_inv. Qed.

Lemma Inv_onDown key code s : Inv level s -> Inv level (onDown key code s).
Proof.
  intros H. unfold onDown.
  assert (H1 := Inv_set_keys (<[toLowerCase key := true]> (keys s)) s H).
  assert (H2 := Inv_tryPlaceStone _ H1).
  case_tests; auto using Inv_setPaused.
Qed.

Lemma Inv_pointer_down pt s : Inv level s -> Inv level (pointer_down pt s).
Proof.
  intros H. unfold pointer_down.
  destruct (negb (Phase_eqb (phase s) Aim)) eqn:E.
  - destruct (Phase_eqb (phase s) Rebuild); auto using Inv_tryPlaceStone.
  - break_state s. destruct ph; try discriminate. destruct H; close_inv.
Qed.

Lemma Inv_pointer_move pt s : Inv level s -> Inv level (pointer_move pt s).
Proof.
  intros H. unfold pointer_move. destruct (negb (dragging s)); [exact H|].
  destruct H; close_inv.
Qed.

Lemma Inv_pointer_up s : Inv level s -> Inv level (pointer_up s).
Proof.
  intros H. unfold pointer_up. destruct (negb (dragging s)) eqn:E; [exact H|].
  apply negb_false_iff in E. break_state s. simpl in *. subst dg.
  destruct H; simpl in *.
  destruct inv_drag_phase0 as [-> | ->]; auto; close_inv.
Qed.

Lemma Inv_update_rebuild dt s :
  phase s = Rebuild -> Inv level s -> Inv level (update_rebuild level dt s).
Proof.
  intros Hp H. unfold update_rebuild.
  break_state s. simpl in *. subst ph.
  match goal with |- context [Rleb ?a ?b] => destruct (Rleb a b) end;
    destruct H; close_inv.
Qed.

Lemma Inv_update_flight dt u1 u2 s :
  phase s = Flight -> Inv level s -> Inv level (update_flight dt u1 u2 s).
Proof.
  intros Hp H. unfold update_flight.
  break_state s. simpl in *. subst ph.
  destruct H; simpl in *. destruct (inv_throwing0 eq_refl) as (-> & ? & ?).
  simpl.
  match goal with |- context [segmentCircleIntersect ?a ?b ?c ?d] =>
    destruct (segmentCircleIntersect a b c d) end; simpl;
  match goal with |- context [if ?b then _ else _] => destruct b end; simpl;
  case_tests; z_tests; close_inv.
Qed.

Lemma Inv_update dt u1 u2 s : Inv level s -> Inv level (update level dt u1 u2 s).
Proof.
  intros H. unfold update.
  destruct (phase s) eqn:Hp; simpl; auto.
  - destruct (ballActive s); auto using Inv_update_flight.
  - rewrite andb_false_r || idtac. auto using Inv_update_rebuild.
Qed.

Lemma Inv_step s e : Inv level s -> Inv level (step level s e).
Proof.
  intros H. destruct e; simpl.
  - unfold loop. destruct (negb (paused s)); auto using Inv_update.
  - now apply Inv_onDown.
  - now apply Inv_set_keys.
  - now apply Inv_pointer_down.
  - now apply Inv_pointer_move.
  - now apply Inv_pointer_up.
  - destruct H; close_inv.
  - now apply Inv_tryPlaceStone.
  - apply Inv_resetRound.
  - apply Inv_resetRound.
Qed.

Lemma Inv_reachable_from s0 s :
  Inv level s0 -> reachable_from level s0 s -> Inv level s.
Proof. intros H0 Hr. induction Hr; auto using Inv_step. Qed.

End Invariant.

Lemma Inv_reachable k s : reachable k s -> Inv (LEVELS k) s.
Proof.
  apply Inv_reachable_from; [apply LEVELS_ok | apply Inv_init, LEVELS_ok].
Qed.

Lemma reachable_from_run level s0 es : reachable_from level s0 (run level s0 es).
Proof.
  assert (G : forall s, reachable_from level s0 s ->
                        reachable_from level s0 (run level s es)).
  { induction es as [|e es IH]; intros s Hs; simpl; [exact Hs|].
    apply IH. now constructor. }
  apply G. constructor.
Qed.

Lemma Inv_round_start level s : level_ok level -> round_start level s -> Inv level s.
Proof. intros Hl (keepScore & u1 & u2 & s0 & ->). now apply Inv_resetRound. Qed.

(** ** The idle phases *)

(** C10: in a phase other than Rebuild and Flight, [update] returns the
    state it was given, whatever the elapsed time. *)
Theorem update_idle_phase level dt u1 u2 s :
  phase s <> Rebuild -> phase s <> Flight -> update level dt u1 u2 s = s.
Proof.
  intros Hr Hf. unfold update.
  destruct (phase s); simpl; try reflexivity; congruence.
Qed.

Lemma update_idle_phase_witness :
  update (LEVELS beginner) (50 / 1000) 0 0 (initState (LEVELS beginner))
  = initState (LEVELS beginner).
Proof. apply update_idle_phase; simpl; discriminate. Defined.

(** ** Starting a round *)

(** C9: [resetRound] puts the player on its bottom-left spawn point,
    the ball on the player with no velocity, restores the attempts and
    the stone counters from the level, clears the pile flag and enters
    Aim; the score becomes 0 when [keepScore] is false and is kept when
    it is true. *)
Theorem resetRound_effect level keepScore u1 u2 s :
  let s' := resetRound level keepScore u1 u2 s in
  pos (player s') = mkVec2 130 450
  /\ x (pos (player s')) < BASE_W / 2 /\ BASE_H / 2 < y (pos (player s'))
  /\ pos (ball s') = pos (player s')
  /\ ballVel s' = mkVec2 0 0
  /\ attemptsLeft (metrics s') = attempts level
  /\ stonesPlaced (metrics s') = 0%Z
  /\ stonesTotal (metrics s') = stones level
  /\ pileCollapsed s' = false
  /\ phase s' = Aim
  /\ score (metrics s') = (if keepScore then score (metrics s) else 0%Z).
Proof.
  unfold resetRound, BASE_W, BASE_H; simpl.
  repeat split; try lra; try (destruct keepScore; reflexivity).
  f_equal; lra.
Qed.

(** ** Placing stones *)

Lemma tryPlaceStone_noop s :
  near_pile s = false \/ (stonesTotal (metrics s) <= stonesPlaced (metrics s))%Z ->
  tryPlaceStone s = s.
Proof.
  unfold tryPlaceStone, near_pile. intros [H | H].
  - rewrite H. simpl. now destruct (negb _).
  - apply Z.ltb_ge in H. rewrite H. now repeat destruct (negb _).
Qed.

(** C8: a place action made out of place-range, or once every stone is
    placed, changes neither a metric nor the phase; [tryPlaceStone]
    returns the state it was given. *)
Theorem place_out_of_range_or_full_is_noop level s e :
  place_action s e = true ->
  near_pile s = false \/ (stonesTotal (metrics s) <= stonesPlaced (metrics s))%Z ->
  metrics (step level s e) = metrics s
  /\ phase (step level s e) = phase s
  /\ tryPlaceStone s = s.
Proof.
  intros Ha Hc. pose proof (tryPlaceStone_noop s Hc) as Hn.
  destruct e; simpl in Ha; try discriminate; simpl.
  - apply andb_true_iff in Ha as [Hcode Hph].
    unfold onDown. rewrite Hcode, Hph. simpl.
    rewrite (tryPlaceStone_noop (set_keys _ s)) by exact Hc.
    destruct (String.eqb _ "p"); repeat split; auto.
  - unfold pointer_down. rewrite Ha.
    destruct (phase s) eqn:Hp; try discriminate. simpl. rewrite Hn. repeat split; auto.
  - rewrite Hn. repeat split; auto.
Qed.

(** ** What a step does to the bookkeeping *)

(** The flight block of [update], read off its three tests. *)
Lemma update_flight_spec dt u1 u2 s :
  let hit := negb (pileCollapsed s) && hits_pile dt s in
  let stop := ball_stops dt s in
  let s' := update_flight dt u1 u2 s in
  pileCollapsed s' = pileCollapsed s || hit
  /\ score (metrics s') = (score (metrics s) + (if hit then 10 else 0))%Z
  /\ attemptsLeft (metrics s') =
     (attemptsLeft (metrics s) - (if stop && negb (pileCollapsed s') then 1 else 0))%Z
  /\ stonesPlaced (metrics s') = stonesPlaced (metrics s)
  /\ stonesTotal (metrics s') = stonesTotal (metrics s)
  /\ phase s' =
     (if stop then
        if pileCollapsed s' then Rebuild
        else if (attemptsLeft (metrics s') >? 0)%Z then Aim else Lose
      else if hit then Rebuild else phase s).
Proof.
  break_state s. unfold update_flight, ball_stops, hits_pile, out_of_field,
    ball_next, vel_next. simpl.
  destruct pc; simpl;
  repeat match goal with
  | |- context [segmentCircleIntersect ?a ?b ?c ?d] =>
      destruct (segmentCircleIntersect a b c d); simpl
  | |- context [if ?b then _ else _] => destruct b eqn:?; simpl in *
  end;
  repeat split; try reflexivity; try lia; try congruence.
Qed.

Lemma update_rebuild_metrics level dt s :
  metrics (update_rebuild level dt s) = metrics s
  /\ pileCollapsed (update_rebuild level dt s) = pileCollapsed s
  /\ (phase (update_rebuild level dt s) = phase s
      \/ phase (update_rebuild level dt s) = Lose).
Proof.
  unfold update_rebuild.
  match goal with |- context [if ?b then _ else _] => destruct b end;
    simpl; auto.
Qed.

Lemma tryPlaceStone_spec s :
  let pl := Phase_eqb (phase s) Rebuild && near_pile s
            && (stonesPlaced (metrics s) <? stonesTotal (metrics s))%Z in
  let last := pl && (stonesPlaced (metrics s) + 1 >=? stonesTotal (metrics s))%Z in
  let s' := tryPlaceStone s in
  stonesPlaced (metrics s') = (stonesPlaced (metrics s) + (if pl then 1 else 0))%Z
  /\ score (metrics s') = (score (metrics s) + (if last then 50 else 0))%Z
  /\ attemptsLeft (metrics s') = attemptsLeft (metrics s)
  /\ stonesTotal (metrics s') = stonesTotal (metrics s)
  /\ pileCollapsed s' = pileCollapsed s
  /\ phase s' = (if last then Win else phase s).
Proof.
  break_state s. unfold tryPlaceStone, near_pile. simpl.
  destruct (Phase_eqb ph Rebuild); simpl; [|repeat split; lia].
  destruct (Rleb _ _); simpl; [|repeat split; lia].
  destruct (sp <? st)%Z; simpl; [|repeat split; lia].
  destruct (sp + 1 >=? st)%Z; simpl; repeat split; lia.
Qed.

(** Every event but a round start, on every state. *)
Lemma step_bookkeeping level s e :
  is_reset e = false ->
  let s' := step level s e in
  pileCollapsed s' = pileCollapsed s || collapsing s e
  /\ score (metrics s') =
     (score (metrics s) + (if collapsing s e then 10 else 0)
      + (if completing s e then 50 else 0))%Z
  /\ attemptsLeft (metrics s') =
     (attemptsLeft (metrics s) - (if failed_throw s e then 1 else 0))%Z
  /\ stonesPlaced (metrics s') =
     (stonesPlaced (metrics s) + (if placing s e then 1 else 0))%Z
  /\ stonesTotal (metrics s') = stonesTotal (metrics s).
Proof.
  intros Hr. destruct e; try discriminate; simpl;
    unfold collapsing, completing, failed_throw, placing; simpl;
    rewrite ?andb_false_r, ?orb_false_r; simpl;
    try (repeat split; lia).
  - (* Frame *)
    unfold loop. destruct (paused s); simpl;
      rewrite ?orb_false_r; [repeat split; lia|].
    unfold update.
    destruct (Phase_eqb (phase s) Flight) eqn:Hf.
    + assert (Hreb : Phase_eqb (phase s) Rebuild = false)
        by (destruct (phase s); auto; discriminate).
      rewrite Hreb. simpl.
      destruct (ballActive s); simpl; rewrite ?orb_false_r; [|repeat split; lia].
      pose proof (update_flight_spec (Rmin 50 elapsed / 1000) u1 u2 s) as H.
      simpl in H. destruct H as (Hc & Hs & Ha & Hp & Ht & _).
      rewrite Hc in Ha. rewrite Hc, Hs, Ha, Hp, Ht.
      destruct (pileCollapsed s), (hits_pile _ s), (ball_stops _ s); simpl;
        repeat split; lia.
    + simpl. rewrite ?orb_false_r.
      destruct (Phase_eqb (phase s) Rebuild).
      * destruct (update_rebuild_metrics level (Rmin 50 elapsed / 1000) s)
          as (-> & -> & _). repeat split; lia.
      * repeat split; lia.
  - (* KeyDown *)
    unfold onDown.
    set (s1 := set_keys _ s).
    assert (Hm : forall t, metrics (if String.eqb (toLowerCase key) "p"
                                    then setPaused (negb (paused s)) t else t)
                           = metrics t) by (intros; now destruct (String.eqb _ _)).
    assert (Hpc : forall t, pileCollapsed (if String.eqb (toLowerCase key) "p"
                                    then setPaused (negb (paused s)) t else t)
                           = pileCollapsed t) by (intros; now destruct (String.eqb _ _)).
    rewrite Hm, Hpc.
    destruct (String.eqb code "Space" && Phase_eqb (phase s) Rebuild) eqn:E;
      simpl; [|repeat split; lia].
    apply andb_true_iff in E as [_ E].
    pose proof (tryPlaceStone_spec s1) as H. simpl in H.
    destruct H as (Hp & Hs & Ha & Ht & Hc & _).
    change (phase s1) with (phase s) in *.
    change (near_pile s1) with (near_pile s) in *.
    change (metrics s1) with (metrics s) in *.
    change (pileCollapsed s1) with (pileCollapsed s) in *.
    rewrite E in *. simpl in *.
    rewrite Hp, Hs, Ha, Ht, Hc. repeat split; lia.
  - (* PointerDown *)
    unfold pointer_down.
    destruct (Phase_eqb (phase s) Rebuild) eqn:E; simpl.
    + assert (Ha : Phase_eqb (phase s) Aim = false)
        by (destruct (phase s); auto; discriminate).
      rewrite Ha. simpl.
      pose proof (tryPlaceStone_spec s) as H. simpl in H.
      rewrite E in H. simpl in H.
      destruct H as (Hp & Hs & Hat & Ht & Hc & _).
      rewrite Hp, Hs, Hat, Ht, Hc. repeat split; lia.
    + destruct (negb (Phase_eqb (phase s) Aim)); simpl; repeat split; lia.
  - (* PointerMove *)
    unfold pointer_move. destruct (negb (dragging s)); simpl; repeat split; lia.
  - (* PointerUp *)
    unfold pointer_up. destruct (negb (dragging s)); simpl; repeat split; lia.
  - (* PlaceButton *)
    pose proof (tryPlaceStone_spec s) as H. simpl in H.
    destruct H as (Hp & Hs & Hat & Ht & Hc & _).
    rewrite Hp, Hs, Hat, Ht, Hc.
    destruct (Phase_eqb (phase s) Rebuild); simpl; repeat split; lia.
Qed.

Lemma flight_tick_update level s e :
  flight_tick s e = true ->
  exists u1 u2,
    step level s e = update_flight (frame_dt e) u1 u2 s /\ phase s = Flight.
Proof.
  destruct e; try discriminate. simpl. intros H.
  apply andb_true_iff in H as [H Hb]. apply andb_true_iff in H as [Hp Hf].
  exists u1, u2. unfold loop, update. rewrite Hp, Hf.
  destruct (phase s) eqn:E; try discriminate. simpl. rewrite Hb. auto.
Qed.

(** A tick that hits the standing pile enters Rebuild. *)
Lemma collapsing_phase level s e :
  collapsing s e = true -> phase (step level s e) = Rebuild.
Proof.
  unfold collapsing. intros H.
  apply andb_true_iff in H as [H Hh]. apply andb_true_iff in H as [Ht Hc].
  destruct (flight_tick_update level s e Ht) as (u1 & u2 & -> & Hp).
  pose proof (update_flight_spec (frame_dt e) u1 u2 s) as S. simpl in S.
  destruct S as (Hpc & _ & _ & _ & _ & Hph).
  apply negb_true_iff in Hc.
  rewrite Hph, Hpc, Hh, Hc. simpl. now destruct (ball_stops _ _).
Qed.

(** A throw that fails goes back to Aim while attempts remain. *)
Lemma failed_throw_phase level s e :
  failed_throw s e = true ->
  phase (step level s e) =
  if (attemptsLeft (metrics (step level s e)) >? 0)%Z then Aim else Lose.
Proof.
  unfold failed_throw. intros H.
  apply andb_true_iff in H as [H Hs]. apply andb_true_iff in H as [H Hh].
  apply andb_true_iff in H as [Ht Hc].
  destruct (flight_tick_update level s e Ht) as (u1 & u2 & -> & Hp).
  pose proof (update_flight_spec (frame_dt e) u1 u2 s) as S. simpl in S.
  destruct S as (Hpc & _ & _ & _ & _ & Hph).
  apply negb_true_iff in Hc, Hh.
  rewrite Hph, Hpc, Hs, Hc, Hh. reflexivity.
Qed.

(** The last stone enters Win. *)
Lemma completing_phase level s e :
  completing s e = true -> phase (step level s e) = Win.
Proof.
  unfold completing, placing. intros H.
  apply andb_true_iff in H as [H Hl]. apply andb_true_iff in H as [H Hlt].
  apply andb_true_iff in H as [H Hn]. apply andb_true_iff in H as [Ha Hp].
  assert (G : forall t, phase t = phase s -> near_pile t = near_pile s ->
                        metrics t = metrics s -> phase (tryPlaceStone t) = Win).
  { intros t E1 E2 E3. pose proof (tryPlaceStone_spec t) as S. simpl in S.
    destruct S as (_ & _ & _ & _ & _ & ->).
    now rewrite E1, E2, E3, Hp, Hn, Hlt, Hl. }
  destruct e; try discriminate; simpl in *.
  - unfold onDown. rewrite Ha.
    destruct (String.eqb _ "p"); unfold setPaused; cbn [phase]; now apply G.
  - unfold pointer_down. rewrite Hp.
    assert (Phase_eqb (phase s) Aim = false) as ->
      by (destruct (phase s); auto; discriminate).
    cbn [negb]. now apply G.
  - now apply G.
Qed.

(** Win is entered by the last stone and by nothing else. *)
Lemma enters_win level s e :
  phase (step level s e) = Win -> phase s = Win \/ completing s e = true.
Proof.
  assert (G : forall t, phase (tryPlaceStone t) = Win ->
              phase t = Win \/
              (Phase_eqb (phase t) Rebuild && near_pile t
               && (stonesPlaced (metrics t) <? stonesTotal (metrics t))%Z
               && (stonesPlaced (metrics t) + 1 >=? stonesTotal (metrics t))%Z) = true).
  { intros t. pose proof (tryPlaceStone_spec t) as S. simpl in S.
    destruct S as (_ & _ & _ & _ & _ & ->).
    destruct (_ && _ && _ && _); auto. }
  destruct e; simpl.
  - unfold loop. destruct (negb (paused s)); auto.
    unfold update. destruct (Phase_eqb (phase s) Flight) eqn:Hf.
    + assert (Phase_eqb (phase s) Rebuild = false) as ->
        by (destruct (phase s); auto; discriminate).
      cbn [andb]. destruct (ballActive s); auto.
      pose proof (update_flight_spec (Rmin 50 elapsed / 1000) u1 u2 s) as S.
      simpl in S. destruct S as (_ & _ & _ & _ & _ & ->).
      destruct (phase s); try discriminate.
      repeat match goal with
             | |- context [if ?b then _ else _] => destruct b
             end; discriminate.
    + cbn [andb]. destruct (Phase_eqb (phase s) Rebuild); auto.
      destruct (update_rebuild_metrics level (Rmin 50 elapsed / 1000) s)
        as (_ & _ & [-> | ->]); auto; discriminate.
  - unfold onDown, completing, placing. simpl.
    set (s1 := set_keys _ s).
    assert (Hph : forall t, phase (if String.eqb (toLowerCase key) "p"
                                   then setPaused (negb (paused s)) t else t)
                            = phase t) by (intros; now destruct (String.eqb _ _)).
    rewrite Hph.
    destruct (String.eqb code "Space" && Phase_eqb (phase s) Rebuild) eqn:E;
      simpl; auto.
    intros H. apply G in H. change (phase s1) with (phase s) in H.
    change (near_pile s1) with (near_pile s) in H.
    change (metrics s1) with (metrics s) in H.
    destruct H as [H | H]; auto.
  - auto.
  - unfold pointer_down, completing, placing. cbn [place_action].
    destruct (Phase_eqb (phase s) Aim) eqn:Ha; cbn [negb]; [discriminate|].
    destruct (Phase_eqb (phase s) Rebuild) eqn:Hp; auto.
    intros H. apply G in H. rewrite Hp in H. exact H.
  - unfold pointer_move. destruct (negb (dragging s)); auto.
  - unfold pointer_up. destruct (negb (dragging s)); auto. discriminate.
  - auto.
  - unfold completing, placing. simpl. intros H. apply G in H.
    destruct H as [H | H]; auto.
  - discriminate.
  - discriminate.
Qed.

Lemma run_app level s es1 es2 :
  run level s (es1 ++ es2) = run level (run level s es1) es2.
Proof. revert s. induction es1 as [|e es1 IH]; intros s; simpl; auto. Qed.

Lemma stonesPlaced_run_mono level s es :
  Forall (fun e => is_reset e = false) es ->
  (stonesPlaced (metrics s) <= stonesPlaced (metrics (run level s es)))%Z.
Proof.
  intros H. revert s. induction H as [|e es He _ IH]; intros s; simpl; [lia|].
  destruct (step_bookkeeping level s e He) as (_ & _ & _ & Hp & _).
  specialize (IH (step level s e)). destruct (placing s e); lia.
Qed.

Lemma pileCollapsed_run_mono level s es :
  Forall (fun e => is_reset e = false) es ->
  pileCollapsed s = true -> pileCollapsed (run level s es) = true.
Proof.
  intros H. revert s. induction H as [|e es He _ IH]; intros s Hs; simpl; auto.
  apply IH. destruct (step_bookkeeping level s e He) as (-> & _).
  now rewrite Hs.
Qed.

(** ** The counters *)

(** C4: from a round start, through any ticks and input commands, the
    stones placed stay between 0 and the stones of the level, they never
    decrease as long as no new round is started, and the attempts left
    are not negative while the phase is neither Win nor Lose. *)
Theorem round_counters_invariant k s0 s es :
  round_start (LEVELS k) s0 ->
  reachable_from (LEVELS k) s0 s ->
  Forall (fun e => is_reset e = false) es ->
  (0 <= stonesPlaced (metrics s) <= stonesTotal (metrics s))%Z
  /\ (terminal (phase s) = false -> 0 <= attemptsLeft (metrics s))%Z
  /\ (stonesPlaced (metrics s) <= stonesPlaced (metrics (run (LEVELS k) s es)))%Z.
Proof.
  intros H0 Hr Hes.
  assert (I : Inv (LEVELS k) s).
  { eapply Inv_reachable_from; eauto using LEVELS_ok, Inv_round_start. }
  destruct I. repeat split; auto using stonesPlaced_run_mono.
Qed.

Lemma round_counters_invariant_witness :
  let level := LEVELS beginner in
  let s0 := resetRound level true 0 0 (initState level) in
  let s := run level s0 [PointerDown (mkVec2 200 300); PointerUp; Frame 16 0 0] in
  let es := [Frame 16 0 0; PlaceButton; KeyDown "w" "KeyW"] in
  (0 <= stonesPlaced (metrics s) <= stonesTotal (metrics s))%Z
  /\ (terminal (phase s) = false -> 0 <= attemptsLeft (metrics s))%Z
  /\ (stonesPlaced (metrics s) <= stonesPlaced (metrics (run level s es)))%Z.
Proof.
  intros level s0 s es.
  apply (round_counters_invariant beginner s0 s es).
  - exists true, 0, 0, (initState level). reflexivity.
  - apply reachable_from_run.
  - repeat constructor.
Defined.

(** ** Attempts *)

(** C3: a flight tick on which the ball stops or leaves the field while
    the pile still stands takes exactly one attempt and goes to Aim if
    attempts remain, else to Lose, where the attempts left are 0; no
    other event of a round changes the attempts left, in particular not
    the tick that collapses the pile; the attempts left start at the
    level's budget and never grow. *)
Theorem attempts_accounting k s e :
  reachable k s ->
  is_reset e = false ->
  let level := LEVELS k in
  let s' := step level s e in
  attemptsLeft (metrics s') =
    (attemptsLeft (metrics s) - (if failed_throw s e then 1 else 0))%Z
  /\ (phase s = Flight -> ballActive s = true /\ pileCollapsed s = false)
  /\ (flight_tick s e = true ->
      failed_throw s e = negb (hits_pile (frame_dt e) s) && ball_stops (frame_dt e) s)
  /\ (failed_throw s e = true ->
      phase s' = (if (attemptsLeft (metrics s') >? 0)%Z then Aim else Lose)
      /\ (phase s' = Lose -> attemptsLeft (metrics s') = 0%Z))
  /\ (collapsing s e = true -> attemptsLeft (metrics s') = attemptsLeft (metrics s))
  /\ (attemptsLeft (metrics s') <= attemptsLeft (metrics s) <= attempts level)%Z
  /\ attemptsLeft (metrics (initState level)) = attempts level
  /\ (forall keepScore u1 u2,
         attemptsLeft (metrics (resetRound level keepScore u1 u2 s)) = attempts level).
Proof.
  intros Hr He level s'. subst s'.
  pose proof (Inv_reachable k s Hr) as I.
  destruct (step_bookkeeping level s e He) as (_ & _ & Ha & _).
  assert (Hfl : phase s = Flight -> ballActive s = true /\ pileCollapsed s = false).
  { intros Hp. split; [now apply (inv_flight _ _ I)|].
    apply (inv_throwing _ _ I). now rewrite Hp. }
  assert (Hft : flight_tick s e = true -> phase s = Flight).
  { intros H. now destruct (flight_tick_update level s e H) as (_ & _ & _ & ?). }
  split; [exact Ha|]. split; [exact Hfl|].
  split; [|split; [|split; [|split; [|split]]]].
  - intros Ht. unfold failed_throw. rewrite Ht.
    destruct (Hfl (Hft Ht)) as [_ ->]. reflexivity.
  - intros Hf. split; [now apply failed_throw_phase|].
    rewrite (failed_throw_phase level s e Hf).
    assert (Hpos : (0 < attemptsLeft (metrics s))%Z).
    { apply (inv_throwing _ _ I). rewrite Hft; [reflexivity|].
      unfold failed_throw in Hf. now destruct (flight_tick s e). }
    rewrite Hf in Ha.
    destruct (attemptsLeft (metrics (step level s e)) >? 0)%Z eqn:E; [discriminate|].
    rewrite Z.gtb_ltb in E. apply Z.ltb_ge in E. intros _. lia.
  - intros Hc. rewrite Ha.
    assert (failed_throw s e = false) as ->; [|lia].
    unfold collapsing in Hc. unfold failed_throw.
    destruct (flight_tick s e), (negb (pileCollapsed s)), (hits_pile _ s);
      try discriminate; reflexivity.
  - pose proof (inv_budget _ _ I). fold level in H.
    destruct (failed_throw s e); lia.
  - reflexivity.
  - intros. break_state s. now destruct keepScore.
Qed.

(** ** Evaluating the tests on given numbers *)

Lemma Rleb_true a b : a <= b -> Rleb a b = true.
Proof. intros H. unfold Rleb. destruct (Rle_dec a b); [reflexivity | contradiction]. Qed.

Lemma Rleb_false a b : b < a -> Rleb a b = false.
Proof. intros H. unfold Rleb. destruct (Rle_dec a b); [lra | reflexivity]. Qed.

Lemma Rltb_true a b : a < b -> Rltb a b = true.
Proof. intros H. unfold Rltb. destruct (Rlt_dec a b); [reflexivity | contradiction]. Qed.

Lemma Rltb_false a b : b <= a -> Rltb a b = false.
Proof. intros H. unfold Rltb. destruct (Rlt_dec a b); [lra | reflexivity]. Qed.

Lemma Reqb0_true a : a = 0 -> Reqb0 a = true.
Proof. intros H. unfold Reqb0. destruct (Req_dec_T a 0); [reflexivity | contradiction]. Qed.

Lemma Reqb0_false a : a <> 0 -> Reqb0 a = false.
Proof. intros H. unfold Reqb0. destruct (Req_dec_T a 0); [contradiction | reflexivity]. Qed.

Lemma hypot_0 : hypot 0 0 = 0.
Proof. unfold hypot. replace (0 * 0 + 0 * 0) with 0 by ring. apply sqrt_0. Qed.

Lemma hypot_nonneg a b : 0 <= hypot a b.
Proof. apply sqrt_pos. Qed.

Lemma hypot_sqr a b : hypot a b * hypot a b = a * a + b * b.
Proof. unfold hypot. apply sqrt_sqrt. nra. Qed.

Lemma norm_zero v : x v = 0 -> y v = 0 -> norm v = mkVec2 0 0.
Proof.
  intros Hx Hy. unfold norm, len. rewrite Hx, Hy, hypot_0.
  now rewrite Reqb0_true.
Qed.

(** A segment reduced to a point is never reported: the quotients are
    not finite. *)
Lemma segmentCircleIntersect_point p0 p1 c r :
  x p1 = x p0 -> y p1 = y p0 -> segmentCircleIntersect p0 p1 c r = false.
Proof.
  intros Hx Hy. unfold segmentCircleIntersect, sub, js_div. simpl.
  rewrite Hx, Hy.
  destruct (Rltb _ 0); [reflexivity|].
  rewrite Reqb0_true by ring. reflexivity.
Qed.

Lemma zero_drag_throw :
  let s := run (LEVELS beginner) (initState (LEVELS beginner)) zero_drag in
  phase s = Flight /\ paused s = false /\ ballActive s = true
  /\ pileCollapsed s = false /\ ballVel s = mkVec2 0 0
  /\ attemptsLeft (metrics s) = 3%Z.
Proof.
  simpl. unfold pointer_up. simpl.
  repeat split.
  rewrite norm_zero by (simpl; lra). unfold mul. simpl. f_equal; ring.
Qed.

(** The throw of zero length stops on its first tick and costs one of
    the three attempts of the beginner level. *)
Lemma attempts_accounting_witness :
  let level := LEVELS beginner in
  let s := run level (initState level) zero_drag in
  let e := Frame 16 0 0 in
  failed_throw s e = true
  /\ attemptsLeft (metrics (step level s e)) = 2%Z
  /\ phase (step level s e) = Aim.
Proof.
  intros level s e.
  destruct zero_drag_throw as (Hp & Hpa & Hb & Hc & Hv & Ha).
  fold level in Hp, Hpa, Hb, Hc, Hv, Ha. fold s in Hp, Hpa, Hb, Hc, Hv, Ha.
  assert (Hr : reachable beginner s) by apply reachable_from_run.
  clearbody s.
  assert (F : failed_throw s e = true).
  { unfold failed_throw, flight_tick, e, hits_pile, ball_stops.
    rewrite Hp, Hpa, Hb, Hc. simpl.
    rewrite segmentCircleIntersect_point
      by (unfold ball_next; simpl; rewrite Hv; simpl; ring).
    unfold vel_next, len. rewrite Hv. simpl.
    replace (0 * world.ballFriction) with 0 by ring. rewrite hypot_0.
    rewrite Rltb_true by (unfold world.ballStopSpeed; lra). reflexivity. }
  destruct (attempts_accounting beginner s e Hr eq_refl) as (A1 & _ & _ & A2 & _).
  destruct (A2 F) as [P _].
  fold level in A1, P. rewrite F, Ha in A1.
  rewrite A1 in P. rewrite A1. auto.
Defined.

(** ** The collapse of the pile *)

Lemma collapsing_not_completing s e :
  collapsing s e = true -> completing s e = false.
Proof.
  unfold collapsing, completing, placing.
  destruct e; simpl; try discriminate. reflexivity.
Qed.

Lemma award_iff_collapsing level s e :
  is_reset e = false ->
  (score (metrics (step level s e)) =? score (metrics s) + 10)%Z = collapsing s e.
Proof.
  intros He. destruct (step_bookkeeping level s e He) as (_ & -> & _).
  destruct (collapsing s e) eqn:Hc.
  - rewrite (collapsing_not_completing s e Hc). apply Z.eqb_eq. lia.
  - apply Z.eqb_neq. destruct (completing s e); lia.
Qed.

Lemma collapse_awards_bound level s es :
  Forall (fun e => is_reset e = false) es ->
  (collapse_awards level s es <= (if pileCollapsed s then 0 else 1))%nat.
Proof.
  intros H. revert s. induction H as [|e es He _ IH]; intros s; simpl.
  - destruct (pileCollapsed s); lia.
  - rewrite (award_iff_collapsing level s e He).
    specialize (IH (step level s e)).
    destruct (step_bookkeeping level s e He) as (Hpc & _).
    rewrite Hpc in IH.
    unfold collapsing in *.
    destruct (pileCollapsed s), (flight_tick s e), (hits_pile _ s);
      simpl in *; lia.
Qed.

(** C1: but for a round start, which clears it, the pile flag only goes
    from false to true, and it does so exactly on a flight tick whose
    motion segment meets the pile circle while the pile stands; that
    tick adds exactly 10 to the score and enters Rebuild; no other event
    adds exactly 10, so a round grants the collapse award at most once. *)
Theorem pile_collapse_once level s e es :
  is_reset e = false ->
  Forall (fun e' => is_reset e' = false) es ->
  let s' := step level s e in
  pileCollapsed s' = pileCollapsed s || collapsing s e
  /\ (pileCollapsed s = true -> pileCollapsed (run level s es) = true)
  /\ (collapsing s e = true ->
      pileCollapsed s = false /\ pileCollapsed s' = true
      /\ score (metrics s') = (score (metrics s) + 10)%Z
      /\ phase s' = Rebuild)
  /\ (collapsing s e = false -> score (metrics s') <> (score (metrics s) + 10)%Z)
  /\ (collapse_awards level s es <= 1)%nat
  /\ (forall keepScore u1 u2,
         pileCollapsed (resetRound level keepScore u1 u2 s) = false
         /\ pileCollapsed (startGame level u1 u2 s) = false).
Proof.
  intros He Hes s'. subst s'.
  destruct (step_bookkeeping level s e He) as (Hpc & Hsc & _).
  split; [exact Hpc|].
  split; [now apply pileCollapsed_run_mono|].
  split; [|split; [|split]].
  - intros Hc. rewrite Hpc, Hsc, Hc, (collapsing_not_completing s e Hc).
    rewrite orb_true_r. repeat split; try lia.
    + unfold collapsing in Hc. destruct (pileCollapsed s); auto.
      now rewrite andb_false_r in Hc.
    + now apply collapsing_phase.
  - intros Hc. pose proof (award_iff_collapsing level s e He) as A.
    rewrite Hc in A. now apply Z.eqb_neq in A.
  - pose proof (collapse_awards_bound level s es Hes).
    destruct (pileCollapsed s); lia.
  - intros. split; reflexivity.
Qed.

(** ** Completing the stack *)

Lemma place_action_phase level s e :
  place_action s e = true ->
  phase (step level s e) = if completing s e then Win else phase s.
Proof.
  intros Ha.
  assert (G : forall t, phase t = phase s -> near_pile t = near_pile s ->
                        metrics t = metrics s ->
              phase (tryPlaceStone t) =
              if Phase_eqb (phase s) Rebuild && near_pile s
                 && (stonesPlaced (metrics s) <? stonesTotal (metrics s))%Z
                 && (stonesPlaced (metrics s) + 1 >=? stonesTotal (metrics s))%Z
              then Win else phase s).
  { intros t E1 E2 E3. pose proof (tryPlaceStone_spec t) as S. simpl in S.
    destruct S as (_ & _ & _ & _ & _ & ->). now rewrite E1, E2, E3. }
  unfold completing, placing. rewrite Ha. cbn [andb].
  destruct e; try discriminate; simpl in Ha; cbn [step].
  - unfold onDown. rewrite Ha.
    destruct (String.eqb _ "p"); unfold setPaused; cbn [phase]; now apply G.
  - unfold pointer_down.
    assert (Phase_eqb (phase s) Aim = false) as ->
      by (destruct (phase s); auto; discriminate).
    cbn [negb].
    transitivity (phase (tryPlaceStone s)); [now rewrite Ha | now apply G].
  - now apply G.
Qed.


(** C2: in a reachable state of the rebuild phase, a place action made
    within place-range of the pile centre adds one stone; if that is the
    last stone, the phase becomes Win and exactly 50 is added to the
    score by the same action, else the phase and the score stay; and no
    event enters Win in any other way. *)
Theorem place_in_range k s e :
  reachable k s ->
  phase s = Rebuild ->
  place_action s e = true ->
  near_pile s = true ->
  let level := LEVELS k in
  let s' := step level s e in
  stonesPlaced (metrics s') = (stonesPlaced (metrics s) + 1)%Z
  /\ stonesTotal (metrics s') = stonesTotal (metrics s)
  /\ (stonesPlaced (metrics s') = stonesTotal (metrics s') ->
      phase s' = Win /\ score (metrics s') = (score (metrics s) + 50)%Z)
  /\ (stonesPlaced (metrics s') <> stonesTotal (metrics s') ->
      phase s' = Rebuild /\ score (metrics s') = score (metrics s))
  /\ (forall t e', phase t <> Win -> phase (step level t e') = Win ->
                   completing t e' = true).
Proof.
  intros Hr Hp Ha Hn level s'. subst s'.
  pose proof (Inv_reachable k s Hr) as I.
  destruct (inv_rebuild _ _ I Hp) as [_ Hlt].
  assert (He : is_reset e = false) by (destruct e; try discriminate; reflexivity).
  assert (Hpl : placing s e = true).
  { unfold placing. rewrite Ha, Hn, Hp. simpl. now apply Z.ltb_lt. }
  assert (Hcol : collapsing s e = false).
  { unfold collapsing. destruct e; try discriminate; reflexivity. }
  destruct (step_bookkeeping level s e He) as (_ & Hsc & _ & Hsp & Hst).
  rewrite Hpl in Hsp. rewrite Hcol in Hsc.
  unfold completing in Hsc. rewrite Hpl in Hsc. simpl in Hsc.
  split; [exact Hsp|]. split; [exact Hst|].
  split; [|split].
  - intros Heq. rewrite Hsp, Hst in Heq.
    split.
    + apply completing_phase. unfold completing. rewrite Hpl. simpl.
      rewrite Z.geb_leb. apply Z.leb_le. lia.
    + rewrite Hsc.
      destruct (_ >=? _)%Z eqn:E; [lia|].
      rewrite Z.geb_leb in E. apply Z.leb_gt in E. lia.
  - intros Hne. rewrite Hsp, Hst in Hne.
    assert (E : (stonesPlaced (metrics s) + 1 >=? stonesTotal (metrics s))%Z = false).
    { rewrite Z.geb_leb. apply Z.leb_gt. lia. }
    rewrite E in Hsc. split; [|lia].
    rewrite (place_action_phase level s e Ha).
    unfold completing. now rewrite Hpl, E.
  - intros t e' Ht Hw. destruct (enters_win level t e' Hw); [contradiction | assumption].
Qed.

(** ** Vectors *)

Lemma len_nonneg v : 0 <= len v.
Proof. apply hypot_nonneg. Qed.

Lemma hypot_scale a b p : 0 <= p -> hypot (a * p) (b * p) = hypot a b * p.
Proof.
  intros Hp. unfold hypot at 1. apply sqrt_lem_1.
  - nra.
  - pose proof (hypot_nonneg a b). nra.
  - pose proof (hypot_sqr a b). nra.
Qed.

(** A vector that is not zero is normalised to a unit vector. *)
Lemma len_norm v : len v <> 0 -> len (norm v) = 1.
Proof.
  intros H. unfold norm. rewrite Reqb0_false by exact H.
  unfold len at 1. simpl. unfold Rdiv.
  rewrite hypot_scale.
  - fold (len v). now apply Rinv_r.
  - pose proof (len_nonneg v). left. apply Rinv_0_lt_compat. lra.
Qed.

Lemma len_mul v p : 0 <= p -> len (mul v p) = len v * p.
Proof. intros Hp. unfold len, mul. simpl. now apply hypot_scale. Qed.

Lemma clamp_bounds v a b : a <= b -> a <= clamp v a b <= b.
Proof.
  intros H. unfold clamp. split.
  - apply Rmax_l.
  - apply Rmax_lub; [exact H | apply Rmin_l].
Qed.

(** ** The throw *)

Lemma throw_velocity d :
  let power := clamp (len d * world.throwPowerScale) 0 world.maxThrowPower in
  let v := mul (norm d) power in
  len v = power /\ norm v = norm d /\ (len d = 0 -> v = mkVec2 0 0).
Proof.
  intros power v.
  assert (Hp : 0 <= power <= world.maxThrowPower).
  { apply clamp_bounds. unfold world.maxThrowPower. lra. }
  destruct (Req_dec_T (len d) 0) as [Hz | Hnz].
  - assert (Hpow : power = 0).
    { unfold power, clamp, world.throwPowerScale, world.maxThrowPower.
      rewrite Hz. rewrite Rmin_right by lra. rewrite Rmax_left by lra. lra. }
    assert (Hv : v = mkVec2 0 0).
    { unfold v, norm. rewrite Reqb0_true by exact Hz.
      unfold mul. simpl. f_equal; ring. }
    rewrite Hv, Hpow. unfold norm at 2. rewrite Reqb0_true by exact Hz.
    repeat split.
    + unfold len. simpl. apply hypot_0.
    + apply norm_zero; reflexivity.
  - assert (Hl : 0 < len d) by (pose proof (len_nonneg d); lra).
    assert (Hpos : 0 < power).
    { unfold power, clamp, world.throwPowerScale, world.maxThrowPower.
      eapply Rlt_le_trans; [|apply Rmax_r].
      apply Rmin_glb_lt; lra. }
    assert (Hlen : len v = power).
    { unfold v. rewrite len_mul by lra. rewrite len_norm by exact Hnz. ring. }
    repeat split; [exact Hlen | | contradiction].
    unfold norm at 1. rewrite Hlen. rewrite Reqb0_false by lra.
    unfold v, mul. simpl.
    destruct (norm d) as [nx ny]. simpl. f_equal; field; lra.
Qed.

(** C5: a drag-end in the dragging phase throws the ball from the
    player.  With [d] the drag vector (current point minus anchor) and
    [l] its length, the velocity is the unit vector [d / l] scaled by
    the power [max 0 (min 600 (l * 3))], and the zero vector when [d]
    is zero; the phase becomes Flight. *)
Theorem drag_end_throw k s :
  reachable k s ->
  phase s = Dragging ->
  let dx := x (dragCurrent s) - x (dragStart s) in
  let dy := y (dragCurrent s) - y (dragStart s) in
  let l := sqrt (dx * dx + dy * dy) in
  let power := Rmax 0 (Rmin 600 (l * 3)) in
  let s' := step (LEVELS k) s PointerUp in
  (l = 0 -> ballVel s' = mkVec2 0 0)
  /\ (l <> 0 -> ballVel s' = mkVec2 (dx / l * power) (dy / l * power))
  /\ pos (ball s') = pos (player s)
  /\ pos (player s') = pos (player s)
  /\ ballActive s' = true
  /\ dragging s' = false
  /\ phase s' = Flight.
Proof.
  intros Hr Hp dx dy l power s'.
  pose proof (Inv_reachable k s Hr) as I.
  pose proof (inv_dragging _ _ I Hp) as Hd.
  assert (Hv : ballVel s' =
               mul (norm (sub (dragCurrent s) (dragStart s)))
                   (clamp (len (sub (dragCurrent s) (dragStart s))
                           * world.throwPowerScale) 0 world.maxThrowPower)).
  { subst s'. cbn [step]. unfold pointer_up. rewrite Hd. reflexivity. }
  assert (Hrest : pos (ball s') = pos (player s) /\ pos (player s') = pos (player s)
                  /\ ballActive s' = true /\ dragging s' = false /\ phase s' = Flight).
  { subst s'. cbn [step]. unfold pointer_up. rewrite Hd. repeat split. }
  split; [|split; [|exact Hrest]].
  - intros Hl. rewrite Hv. unfold norm, len, hypot, sub. cbn [x y].
    fold dx dy l. rewrite Reqb0_true by exact Hl.
    unfold mul. cbn [x y]. f_equal; ring.
  - intros Hl. rewrite Hv. unfold norm, len, hypot, sub. cbn [x y].
    fold dx dy l. rewrite Reqb0_false by exact Hl.
    unfold mul, clamp, world.throwPowerScale, world.maxThrowPower. cbn [x y].
    reflexivity.
Qed.

Lemma drag_end_throw_witness :
  let level := LEVELS beginner in
  let s := run level (initState level) [StartGame 0 0; PointerDown (mkVec2 130 50)] in
  let s' := step level s PointerUp in
  dragStart s = mkVec2 130 (BASE_H - 90)
  /\ dragCurrent s = mkVec2 130 50
  /\ ballVel s' = mkVec2 0 (- 600)
  /\ pos (ball s') = mkVec2 130 (BASE_H - 90)
  /\ phase s' = Flight.
Proof.
  intros level s s'.
  assert (Hr : reachable beginner s) by apply reachable_from_run.
  assert (Hp : phase s = Dragging) by reflexivity.
  destruct (drag_end_throw beginner s Hr Hp) as (_ & Hv & Hb & _ & _ & _ & Hf).
  fold level s' in Hv, Hb, Hf.
  assert (Hs : dragStart s = mkVec2 130 (BASE_H - 90)) by reflexivity.
  assert (Hc : dragCurrent s = mkVec2 130 50) by reflexivity.
  assert (Hpl : pos (player s) = mkVec2 130 (BASE_H - 90)) by reflexivity.
  rewrite Hs, Hc in Hv. cbn [x y] in Hv. unfold BASE_H in Hv.
  assert (Hl : sqrt ((130 - 130) * (130 - 130)
                     + (50 - (540 - 90)) * (50 - (540 - 90))) = 400)
    by (apply sqrt_lem_1; lra).
  rewrite Hl in Hv.
  assert (Hpow : Rmax 0 (Rmin 600 (400 * 3)) = 600).
  { rewrite Rmin_left by lra. apply Rmax_right. lra. }
  rewrite Hpow in Hv.
  repeat split; auto.
  rewrite Hv by lra. f_equal; lra.
Defined.

(** ** The segment against the circle *)

Lemma Rleb_iff a b : Rleb a b = true <-> a <= b.
Proof.
  unfold Rleb. destruct (Rle_dec a b); split; auto; discriminate.
Qed.

Lemma in_unit_iff t : in_unit (Some t) = true <-> 0 <= t <= 1.
Proof.
  simpl. rewrite andb_true_iff, !Rleb_iff. tauto.
Qed.

Lemma bool_ext (a b : bool) : (a = true <-> b = true) -> a = b.
Proof.
  destruct a, b; intros [H1 H2]; auto.
  symmetry. now apply H1.
Qed.

Lemma in_unit_mirror t u : u = 1 - t -> in_unit (Some u) = in_unit (Some t).
Proof.
  intros ->. apply bool_ext. rewrite !in_unit_iff. lra.
Qed.

Lemma segmentCircleIntersect_root_test p0 p1 c r :
  segmentCircleIntersect p0 p1 c r =
  root_test ((x p1 - x p0) * (x p1 - x p0) + (y p1 - y p0) * (y p1 - y p0))
            (2 * ((x p0 - x c) * (x p1 - x p0) + (y p0 - y c) * (y p1 - y p0)))
            ((x p0 - x c) * (x p0 - x c) + (y p0 - y c) * (y p0 - y c) - r * r).
Proof. reflexivity. Qed.

(** Seen from the other endpoint the quadratic has the roots [1 - t]. *)
Lemma root_test_swap a b cc :
  root_test a (- (b + 2 * a)) (cc + b + a) = root_test a b cc.
Proof.
  unfold root_test.
  replace (- (b + 2 * a) * - (b + 2 * a) - 4 * a * (cc + b + a))
    with (b * b - 4 * a * cc) by ring.
  destruct (Rltb _ 0); [reflexivity|].
  set (s := sqrt _). unfold js_div.
  destruct (Reqb0 (2 * a)) eqn:E; [reflexivity|].
  assert (Ha : a <> 0).
  { intros ->. rewrite Reqb0_true in E by ring. discriminate. }
  rewrite orb_comm. f_equal; apply in_unit_mirror; field; exact Ha.
Qed.

Lemma segmentCircleIntersect_sym p0 p1 c r :
  segmentCircleIntersect p0 p1 c r = segmentCircleIntersect p1 p0 c r.
Proof.
  rewrite !segmentCircleIntersect_root_test.
  rewrite <- root_test_swap. f_equal; ring.
Qed.

Lemma hypot_eq a b m : 0 <= m -> m * m = a * a + b * b -> hypot a b = m.
Proof. intros Hm H. unfold hypot. apply sqrt_lem_1; [nra | exact Hm | exact H]. Qed.

(** The quadratic of a segment whose point of parameter [t] is the
    centre: its roots are [t - r / L] and [t + r / L], [L] the length of
    the segment. *)
Lemma root_test_centre a t r :
  0 <= a -> 0 < r -> 0 <= t <= 1 ->
  root_test a (- (2 * t * a)) (t * t * a - r * r) = true
  <-> a <> 0 /\ (r <= t * sqrt a \/ r <= (1 - t) * sqrt a).
Proof.
  intros Ha Hr Ht. unfold root_test.
  set (L := sqrt a).
  assert (HLL : L * L = a) by (apply sqrt_sqrt; exact Ha).
  assert (HL : 0 <= L) by apply sqrt_pos.
  replace (- (2 * t * a) * - (2 * t * a) - 4 * a * (t * t * a - r * r))
    with (4 * a * (r * r)) by ring.
  rewrite Rltb_false by nra.
  assert (Hs : sqrt (4 * a * (r * r)) = 2 * r * L).
  { apply sqrt_lem_1; nra. }
  rewrite Hs. unfold js_div.
  destruct (Req_dec_T a 0) as [Hz | Hnz].
  - rewrite Reqb0_true by lra. simpl. split; [discriminate | tauto].
  - rewrite Reqb0_false by lra.
    assert (HLpos : 0 < L) by nra.
    set (q := r / L).
    assert (Hq : q * L = r) by (unfold q; field; lra).
    assert (Hqpos : 0 < q) by (unfold q; apply Rdiv_lt_0_compat; lra).
    replace ((- - (2 * t * a) - 2 * r * L) / (2 * a)) with (t - q)
      by (unfold q; rewrite <- HLL; field; lra).
    replace ((- - (2 * t * a) + 2 * r * L) / (2 * a)) with (t + q)
      by (unfold q; rewrite <- HLL; field; lra).
    rewrite orb_true_iff, !in_unit_iff. rewrite <- Hq.
    split.
    + intros [H | H]; split; auto; [left | right]; nra.
    + intros [_ [H | H]]; [left | right]; split; nra.
Qed.

(** A segment through the centre is reported exactly when one of its
    endpoints is not strictly inside the circle. *)
Lemma segmentCircleIntersect_through_centre p0 p1 c r :
  0 < r -> on_segment p0 p1 c ->
  segmentCircleIntersect p0 p1 c r = true <-> r <= dist p0 c \/ r <= dist p1 c.
Proof.
  intros Hr (t & Ht & Hx & Hy).
  rewrite segmentCircleIntersect_root_test.
  set (dx := x p1 - x p0) in *. set (dy := y p1 - y p0) in *.
  set (a := dx * dx + dy * dy).
  assert (Ha : 0 <= a) by (unfold a; nra).
  set (L := sqrt a).
  assert (HLL : L * L = a) by (apply sqrt_sqrt; exact Ha).
  assert (HL : 0 <= L) by apply sqrt_pos.
  assert (D0 : dist p0 c = t * L).
  { unfold dist. apply hypot_eq; [nra|]. rewrite Hx, Hy.
    transitivity (t * t * (L * L)); [ring | rewrite HLL; unfold a; ring]. }
  assert (D1 : dist p1 c = (1 - t) * L).
  { unfold dist. apply hypot_eq; [nra|]. rewrite Hx, Hy.
    transitivity ((1 - t) * (1 - t) * (L * L));
      [ring | rewrite HLL; unfold a, dx, dy; ring]. }
  replace (2 * ((x p0 - x c) * dx + (y p0 - y c) * dy)) with (- (2 * t * a))
    by (rewrite Hx, Hy; unfold a; ring).
  replace ((x p0 - x c) * (x p0 - x c) + (y p0 - y c) * (y p0 - y c) - r * r)
    with (t * t * a - r * r) by (rewrite Hx, Hy; unfold a; ring).
  rewrite root_test_centre by assumption.
  rewrite D0, D1. fold L. split; [tauto|].
  intros H. split; [|exact H].
  intros Hz. unfold L in H. rewrite Hz, sqrt_0 in H. lra.
Qed.

Lemma on_segment_end p0 p1 : on_segment p0 p1 p1.
Proof. exists 1. repeat split; lra. Qed.

Lemma square_le_le u v : 0 <= v -> u * u <= v * v -> u <= v.
Proof. intros Hv H. destruct (Rle_dec u v); [assumption | nra]. Qed.

Lemma square_lt_lt u v : 0 <= v -> u * u < v * v -> u < v.
Proof. intros Hv H. destruct (Rlt_dec u v); [assumption | nra]. Qed.

(** ** The rounded arithmetic *)

Lemma Rabs_bound a b : Rabs a <= b -> - b <= a <= b.
Proof. unfold Rabs. destruct (Rcase_abs a); lra. Qed.

Lemma Rabs_mul_le v w mv mw :
  Rabs v <= mv -> Rabs w <= mw -> Rabs (v * w) <= mv * mw.
Proof.
  intros Hv Hw. rewrite Rabs_mult.
  apply Rmult_le_compat; auto using Rabs_pos.
Qed.

Lemma close_mul v v' w w' ev ew mv mw :
  Rabs (v - v') <= ev -> Rabs (w - w') <= ew ->
  Rabs v' <= mv -> Rabs w' <= mw ->
  Rabs (v * w - v' * w') <= mv * ew + mw * ev + ev * ew.
Proof.
  intros Hv Hw Mv Mw.
  replace (v * w - v' * w')
    with (v' * (w - w') + w' * (v - v') + (v - v') * (w - w')) by ring.
  eapply Rle_trans; [apply Rabs_triang|].
  apply Rplus_le_compat; [eapply Rle_trans; [apply Rabs_triang|];
                          apply Rplus_le_compat|];
    apply Rabs_mul_le; assumption.
Qed.

Section Errors.

Variable rnd : R -> R.
Hypothesis Hrnd : rounding rnd.

Lemma close_rnd v v' e m :
  Rabs (v - v') <= e -> Rabs v' <= m ->
  Rabs (rnd v - v') <= e + (unit_roundoff * (m + e) + underflow_unit).
Proof.
  intros Hv Mv.
  replace (rnd v - v') with ((rnd v - v) + (v - v')) by ring.
  eapply Rle_trans; [apply Rabs_triang|].
  pose proof (Hrnd v) as H.
  assert (Hm : Rabs v <= m + e).
  { replace v with (v' + (v - v')) by ring.
    eapply Rle_trans; [apply Rabs_triang|]. lra. }
  assert (Hu : 0 <= unit_roundoff) by (unfold unit_roundoff; lra).
  assert (unit_roundoff * Rabs v <= unit_roundoff * (m + e))
    by (apply Rmult_le_compat_l; assumption).
  lra.
Qed.

Lemma close_rnd_mul v v' w w' ev ew mv mw e :
  Rabs (v - v') <= ev -> Rabs (w - w') <= ew ->
  Rabs v' <= mv -> Rabs w' <= mw ->
  (mv * ew + mw * ev + ev * ew)
  + (unit_roundoff * (mv * mw + (mv * ew + mw * ev + ev * ew)) + underflow_unit) <= e ->
  Rabs (rnd (v * w) - v' * w') <= e.
Proof.
  intros Hv Hw Mv Mw He.
  eapply Rle_trans; [|exact He].
  apply close_rnd.
  - now apply close_mul.
  - now apply Rabs_mul_le.
Qed.

Lemma close_rnd_add v v' w w' ev ew m e :
  Rabs (v - v') <= ev -> Rabs (w - w') <= ew ->
  Rabs (v' + w') <= m ->
  (ev + ew) + (unit_roundoff * (m + (ev + ew)) + underflow_unit) <= e ->
  Rabs (rnd (v + w) - (v' + w')) <= e.
Proof.
  intros Hv Hw M He.
  eapply Rle_trans; [|exact He].
  apply close_rnd; [|exact M].
  replace (v + w - (v' + w')) with ((v - v') + (w - w')) by ring.
  eapply Rle_trans; [apply Rabs_triang|]. lra.
Qed.

Lemma close_rnd_sub v v' w w' ev ew m e :
  Rabs (v - v') <= ev -> Rabs (w - w') <= ew ->
  Rabs (v' - w') <= m ->
  (ev + ew) + (unit_roundoff * (m + (ev + ew)) + underflow_unit) <= e ->
  Rabs (rnd (v - w) - (v' - w')) <= e.
Proof.
  intros Hv Hw M He.
  eapply Rle_trans; [|exact He].
  apply close_rnd; [|exact M].
  replace (v - w - (v' - w')) with ((v - v') + - (w - w')) by ring.
  eapply Rle_trans; [apply Rabs_triang|]. rewrite Rabs_Ropp. lra.
Qed.

End Errors.

(** ** The error of the rounded coefficients *)

Section Coefficients.

Variable rnd : R -> R.
Hypothesis Hrnd : rounding rnd.

Variables dX dY fX fY r L : R.
Hypothesis HdX : Rabs dX <= L.
Hypothesis HdY : Rabs dY <= L.
Hypothesis HLL : L * L = dX * dX + dY * dY.
Hypothesis HfX : Rabs fX <= 2048.
Hypothesis HfY : Rabs fY <= 2048.
Hypothesis Hr : 0 < r <= 1024.
Hypothesis HL : 1 / 1000000 <= L.

Lemma underflow_le_L : underflow_unit <= / 2 ^ 100 * L.
Proof using HL. unfold underflow_unit. lra. Qed.

Lemma underflow_le_LL : underflow_unit <= / 2 ^ 100 * (L * L).
Proof using HL.
  assert (1 / 1000000 * (1 / 1000000) <= L * L) by nra.
  unfold underflow_unit. lra.
Qed.

Lemma rnd_d_close v : Rabs v <= L -> Rabs (rnd v - v) <= / 2 ^ 52 * L.
Proof using Hrnd HL.
  intros Hv. pose proof (Hrnd v) as H. pose proof underflow_le_L.
  unfold unit_roundoff in H. lra.
Qed.

Lemma rnd_f_close v : Rabs v <= 2048 -> Rabs (rnd v - v) <= / 2 ^ 41.
Proof using Hrnd.
  intros Hv. pose proof (Hrnd v) as H.
  unfold unit_roundoff, underflow_unit in H. lra.
Qed.

Lemma rnd_sq_d_close v : 
  Rabs v <= L -> Rabs (rnd (rnd v * rnd v) - v * v) <= / 2 ^ 50 * (L * L).
Proof using Hrnd HL.
  intros Hv. pose proof (rnd_d_close v Hv) as H. pose proof underflow_le_LL.
  assert (0 <= L * L) by nra.
  eapply (close_rnd_mul rnd Hrnd); [exact H | exact H | exact Hv | exact Hv |].
  unfold unit_roundoff. nra.
Qed.

Lemma L_nonneg : 0 <= L.
Proof using HL. lra. Qed.

Lemma a_close :
  Rabs (rnd (rnd (rnd dX * rnd dX) + rnd (rnd dY * rnd dY)) - L * L)
  <= / 2 ^ 48 * (L * L).
Proof using Hrnd HL HdX HdY HLL.
  pose proof (rnd_sq_d_close dX HdX) as Hx.
  pose proof (rnd_sq_d_close dY HdY) as Hy.
  pose proof underflow_le_LL. assert (0 <= L * L) by nra.
  rewrite HLL.
  eapply (close_rnd_add rnd Hrnd); [exact Hx | exact Hy | |].
  - rewrite <- HLL. rewrite Rabs_pos_eq by assumption. apply Rle_refl.
  - unfold unit_roundoff. lra.
Qed.

Lemma rnd_fd_close f d :
  Rabs f <= 2048 -> Rabs d <= L ->
  Rabs (rnd (rnd f * rnd d) - f * d) <= / 2 ^ 39 * L.
Proof using Hrnd HL.
  intros Hf Hd. pose proof (rnd_f_close f Hf) as H1.
  pose proof (rnd_d_close d Hd) as H2. pose proof underflow_le_L.
  pose proof L_nonneg.
  eapply (close_rnd_mul rnd Hrnd); [exact H1 | exact H2 | exact Hf | exact Hd |].
  unfold unit_roundoff. lra.
Qed.

Lemma b_exact_bound : Rabs (2 * (fX * dX + fY * dY)) <= 8192 * L.
Proof using HdX HdY HfX HfY.
  pose proof (Rabs_mul_le _ _ _ _ HfX HdX).
  pose proof (Rabs_mul_le _ _ _ _ HfY HdY).
  pose proof (Rabs_triang (fX * dX) (fY * dY)).
  rewrite Rabs_mult, (Rabs_pos_eq 2) by lra. lra.
Qed.

Lemma b_close :
  Rabs (rnd (2 * rnd (rnd (rnd fX * rnd dX) + rnd (rnd fY * rnd dY)))
        - 2 * (fX * dX + fY * dY))
  <= / 2 ^ 35 * L.
Proof using Hrnd HL HdX HdY HfX HfY.
  pose proof (rnd_fd_close fX dX HfX HdX) as Hx.
  pose proof (rnd_fd_close fY dY HfY HdY) as Hy.
  pose proof underflow_le_L. pose proof L_nonneg. pose proof b_exact_bound as Hb.
  assert (Hsum : Rabs (fX * dX + fY * dY) <= 4096 * L).
  { rewrite Rabs_mult, (Rabs_pos_eq 2) in Hb by lra. lra. }
  assert (Hs : Rabs (rnd (rnd (rnd fX * rnd dX) + rnd (rnd fY * rnd dY))
                     - (fX * dX + fY * dY)) <= / 2 ^ 37 * L).
  { eapply (close_rnd_add rnd Hrnd); [exact Hx | exact Hy | exact Hsum |].
    unfold unit_roundoff. lra. }
  assert (H2 : Rabs (2 - 2) <= 0).
  { replace (2 - 2) with 0 by ring. rewrite Rabs_R0. lra. }
  eapply (close_rnd_mul rnd Hrnd 2 2 _ _ 0 _ 2 _ _ H2 Hs); [| exact Hsum |].
  - rewrite Rabs_pos_eq; lra.
  - unfold unit_roundoff. lra.
Qed.

Lemma rnd_sq_f_close f :
  Rabs f <= 2048 -> Rabs (rnd (rnd f * rnd f) - f * f) <= / 2 ^ 28.
Proof using Hrnd.
  intros Hf. pose proof (rnd_f_close f Hf) as H1.
  eapply (close_rnd_mul rnd Hrnd); [exact H1 | exact H1 | exact Hf | exact Hf |].
  unfold unit_roundoff, underflow_unit. lra.
Qed.

Lemma c_exact_bound : Rabs (fX * fX + fY * fY - r * r) <= 8388608.
Proof using HfX HfY Hr.
  apply Rabs_bound in HfX, HfY. apply Rabs_le. split; nra.
Qed.

Lemma c_close :
  Rabs (rnd (rnd (rnd (rnd fX * rnd fX) + rnd (rnd fY * rnd fY)) - rnd (r * r))
        - (fX * fX + fY * fY - r * r))
  <= / 2 ^ 25.
Proof using Hrnd HfX HfY Hr.
  pose proof (rnd_sq_f_close fX HfX) as Hx.
  pose proof (rnd_sq_f_close fY HfY) as Hy.
  assert (Hsum : Rabs (fX * fX + fY * fY) <= 8388608).
  { apply Rabs_bound in HfX, HfY. apply Rabs_le. split; nra. }
  assert (Hs : Rabs (rnd (rnd (rnd fX * rnd fX) + rnd (rnd fY * rnd fY))
                     - (fX * fX + fY * fY)) <= / 2 ^ 26).
  { eapply (close_rnd_add rnd Hrnd); [exact Hx | exact Hy | exact Hsum |].
    unfold unit_roundoff, underflow_unit. lra. }
  assert (Hrr : Rabs (rnd (r * r) - r * r) <= / 2 ^ 32).
  { pose proof (Hrnd (r * r)) as H.
    assert (Rabs (r * r) <= 1048576) by (apply Rabs_le; split; nra).
    unfold unit_roundoff, underflow_unit in H. lra. }
  eapply (close_rnd_sub rnd Hrnd); [exact Hs | exact Hrr | apply c_exact_bound |].
  unfold unit_roundoff, underflow_unit. lra.
Qed.

Lemma disc_close a b cc A B C :
  A = L * L ->
  Rabs (a - A) <= / 2 ^ 48 * (L * L) ->
  Rabs (b - B) <= / 2 ^ 35 * L -> Rabs B <= 8192 * L ->
  Rabs (cc - C) <= / 2 ^ 25 -> Rabs C <= 8388608 ->
  Rabs (rnd (rnd (b * b) - rnd (rnd (4 * a) * cc)) - (B * B - 4 * A * C))
  <= / 2 ^ 19 * (L * L).
Proof using Hrnd HL.
  intros HA Ha Hb HB Hc HC.
  pose proof underflow_le_LL. pose proof L_nonneg. assert (0 <= L * L) by nra.
  assert (Hbb : Rabs (rnd (b * b) - B * B) <= / 2 ^ 20 * (L * L)).
  { eapply (close_rnd_mul rnd Hrnd); [exact Hb | exact Hb | exact HB | exact HB |].
    unfold unit_roundoff. nra. }
  assert (H4 : Rabs (4 - 4) <= 0).
  { replace (4 - 4) with 0 by ring. rewrite Rabs_R0. lra. }
  assert (HAabs : Rabs A <= L * L) by (rewrite HA, Rabs_pos_eq; lra).
  assert (Ha4 : Rabs (rnd (4 * a) - 4 * A) <= / 2 ^ 45 * (L * L)).
  { eapply (close_rnd_mul rnd Hrnd 4 4 _ _ 0 _ 4 _ _ H4 Ha); [| exact HAabs |].
    - rewrite Rabs_pos_eq; lra.
    - unfold unit_roundoff. lra. }
  assert (HA4 : Rabs (4 * A) <= 4 * (L * L)).
  { rewrite Rabs_mult, (Rabs_pos_eq 4) by lra. lra. }
  assert (Hac : Rabs (rnd (rnd (4 * a) * cc) - 4 * A * C) <= / 2 ^ 21 * (L * L)).
  { eapply (close_rnd_mul rnd Hrnd); [exact Ha4 | exact Hc | exact HA4 | exact HC |].
    unfold unit_roundoff. lra. }
  assert (HBB : Rabs (B * B) <= 8192 * L * (8192 * L)) by now apply Rabs_mul_le.
  assert (HAC : Rabs (4 * A * C) <= 4 * (L * L) * 8388608) by now apply Rabs_mul_le.
  eapply (close_rnd_sub rnd Hrnd); [exact Hbb | exact Hac | |].
  - eapply Rle_trans; [apply Rabs_triang|]. rewrite Rabs_Ropp.
    apply Rplus_le_compat; [exact HBB | exact HAC].
  - unfold unit_roundoff. lra.
Qed.

End Coefficients.

(** ** The rounded roots against the thresholds *)

Lemma sqrt_close v v' e s :
  0 <= v -> 0 < s -> s * s <= v' -> Rabs (v - v') <= e ->
  Rabs (sqrt v - sqrt v') <= e / s.
Proof.
  intros Hv Hs Hv' He.
  assert (Hv'0 : 0 <= v') by nra.
  pose proof (sqrt_pos v) as P. pose proof (sqrt_pos v') as P'.
  pose proof (sqrt_sqrt v Hv) as Q. pose proof (sqrt_sqrt v' Hv'0) as Q'.
  assert (Hs' : s <= sqrt v').
  { apply Rnot_lt_le. intros C. nra. }
  set (a := sqrt v) in *. set (a' := sqrt v') in *.
  assert (Hprod : Rabs (a - a') * (a + a') = Rabs (v - v')).
  { rewrite <- (Rabs_pos_eq (a + a')) by lra. rewrite <- Rabs_mult.
    f_equal. rewrite <- Q, <- Q'. ring. }
  assert (Hle : Rabs (a - a') * s <= e).
  { pose proof (Rabs_pos (a - a')). nra. }
  apply Rmult_le_reg_r with s; [exact Hs|].
  unfold Rdiv. rewrite Rmult_assoc, Rinv_l by lra. lra.
Qed.

Lemma Rabs_div_le v e l : 0 < l -> Rabs v <= e * l -> Rabs (v / l) <= e.
Proof.
  intros Hl H. unfold Rdiv. rewrite Rabs_mult, Rabs_inv, (Rabs_pos_eq l) by lra.
  apply Rmult_le_reg_r with l; [exact Hl|].
  rewrite Rmult_assoc, Rinv_l by lra. lra.
Qed.

Section Decision.

Variable rnd : R -> R.
Hypothesis Hrnd : rounding rnd.

(** A rounded root [rnd (n / d)] and the exact root [n' / (2 L^2)] fall
    on the same side of 0 and of 1 when the exact root is clear of
    both. *)
Lemma root_decision L n n' d :
  0 < L <= 4096 ->
  Rabs (n - n') <= / 2 ^ 14 * L ->
  Rabs n' <= 32768 * L ->
  Rabs (d - 2 * (L * L)) <= / 2 ^ 46 * (L * L) ->
  endpoint_tolerance <= Rabs (n' / (2 * (L * L))) * L ->
  endpoint_tolerance <= Rabs (1 - n' / (2 * (L * L))) * L ->
  in_unit (div_rnd rnd n d) = in_unit (js_div n' (2 * (L * L))).
Proof.
  intros HL Hn Hn' Hd H0 H1.
  assert (HLL : 0 < L * L) by nra.
  apply Rabs_bound in Hd.
  assert (Hdpos : 0 < d) by nra.
  unfold div_rnd, js_div.
  rewrite !Reqb0_false by lra.
  set (T := n' / (2 * (L * L))) in *.
  set (q := n / d).
  (* the quantities in units of the length of the segment *)
  set (nu := n / L). set (nu' := n' / L). set (du := d / (L * L)).
  assert (Hnu : Rabs (nu - nu') <= / 2 ^ 14).
  { unfold nu, nu'. replace (n / L - n' / L) with ((n - n') / L) by (field; lra).
    apply Rabs_div_le; lra. }
  assert (Hnu' : Rabs nu' <= 32768) by (apply Rabs_div_le; lra).
  assert (Hdu : Rabs (du - 2) <= / 2 ^ 46).
  { unfold du. replace (d / (L * L) - 2) with ((d - 2 * (L * L)) / (L * L))
      by (field; lra).
    apply Rabs_div_le; [lra|]. apply Rabs_le. lra. }
  assert (HqL : q * L = nu / du) by (unfold q, nu, du; field; lra).
  assert (HTL : T * L = nu' / 2) by (unfold T, nu'; field; lra).
  apply Rabs_bound in Hnu, Hnu', Hdu.
  assert (Hdu0 : 0 < du) by lra.
  assert (Hw : - (62 / 1000000) <= nu / du - nu' / 2 <= 62 / 1000000).
  { assert (E : (nu / du - nu' / 2) * (2 * du) = 2 * (nu - nu') + nu' * (2 - du))
      by (field; lra).
    set (w := nu / du - nu' / 2) in *.
    assert (Hnum : - (/ 2 ^ 13 + / 2 ^ 31) <= w * (2 * du) <= / 2 ^ 13 + / 2 ^ 31).
    { rewrite E. split; nra. }
    split; nra. }
  assert (HqT : - (62 / 1000000) <= q * L - T * L <= 62 / 1000000)
    by (rewrite HqL, HTL; exact Hw).
  assert (HTb : - 16384 <= T * L <= 16384) by (rewrite HTL; lra).
  pose proof (Hrnd q) as Hr.
  assert (Hrq : - (1 / 1000000) <= rnd q * L - q * L <= 1 / 1000000).
  { apply Rabs_bound in Hr.
    assert (HqL' : Rabs q * L <= 16385).
    { rewrite <- (Rabs_pos_eq L) by lra. rewrite <- Rabs_mult.
      apply Rabs_le. lra. }
    assert (Hu : unit_roundoff * (Rabs q * L) <= unit_roundoff * 16385).
    { apply Rmult_le_compat_l; [unfold unit_roundoff; lra | exact HqL']. }
    assert (He : underflow_unit * L <= underflow_unit * 4096).
    { apply Rmult_le_compat_l; [unfold underflow_unit; lra | lra]. }
    unfold unit_roundoff, underflow_unit in *.
    split; nra. }
  assert (Ht : - (63 / 1000000) <= rnd q * L - T * L <= 63 / 1000000) by lra.
  unfold endpoint_tolerance in H0, H1.
  rewrite <- (Rabs_pos_eq L) in H0, H1 by lra. rewrite <- Rabs_mult in H0, H1.
  replace ((1 - T) * L) with (L - T * L) in H1 by ring.
  simpl. f_equal; apply bool_ext; rewrite !Rleb_iff.
  - unfold Rabs in H0. destruct (Rcase_abs (T * L)); split; intros; nra.
  - unfold Rabs in H1. destruct (Rcase_abs (L - T * L)); split; intros; nra.
Qed.

End Decision.

(** ** The rounded test and the exact test *)

(** The squared distance to the centre along the line of the segment
    is the quadratic whose roots the test computes. *)
Lemma sq_dist_on_line p0 p1 c t :
  sq_dist (segment_point p0 p1 t) c
  = sq_dist p1 p0 * (t * t)
    + 2 * ((x p0 - x c) * (x p1 - x p0) + (y p0 - y c) * (y p1 - y p0)) * t
    + sq_dist p0 c.
Proof. unfold sq_dist, segment_point. simpl. ring. Qed.

Lemma seg_length_sqr p0 p1 : seg_length p0 p1 * seg_length p0 p1 = sq_dist p1 p0.
Proof.
  unfold seg_length. apply sqrt_sqrt. unfold sq_dist.
  apply Rplus_le_le_0_compat; apply Rle_0_sqr.
Qed.

Lemma Rabs_le_of_sqr v l : 0 <= l -> v * v <= l * l -> Rabs v <= l.
Proof.
  intros Hl H. apply Rabs_le. split.
  - apply Ropp_le_cancel. rewrite Ropp_involutive.
    apply square_le_le; [exact Hl | nra].
  - apply square_le_le; [exact Hl | exact H].
Qed.

Lemma segmentCircleIntersect_rnd_exact rnd p0 p1 c r :
  rounding rnd -> in_range p0 p1 c r -> clear_of_rounding p0 p1 c r ->
  segmentCircleIntersect_rnd rnd p0 p1 c r = segmentCircleIntersect p0 p1 c r.
Proof.
  intros Hrnd (Hx0 & Hy0 & Hx1 & Hy1 & Hxc & Hyc & Hr & Hlen) [Htan Hend].
  pose proof (seg_length_sqr p0 p1) as HLL.
  pose proof (sq_dist_on_line p0 p1 c) as Hline.
  set (L := seg_length p0 p1) in *.
  unfold sq_dist in HLL. 
  set (dX := x p1 - x p0) in *. set (dY := y p1 - y p0) in *.
  assert (Hline' : forall t, sq_dist (segment_point p0 p1 t) c - r * r
     = L * L * (t * t)
       + 2 * ((x p0 - x c) * dX + (y p0 - y c) * dY) * t
       + ((x p0 - x c) * (x p0 - x c) + (y p0 - y c) * (y p0 - y c) - r * r)).
  { intros t. rewrite Hline, HLL. unfold sq_dist. fold dX dY. ring. }
  clear Hline.
  set (fX := x p0 - x c) in *. set (fY := y p0 - y c) in *.
  apply Rabs_bound in Hx0, Hy0, Hx1, Hy1, Hxc, Hyc.
  assert (HL0 : 0 < L) by lra.
  assert (HdX : Rabs dX <= L) by (apply Rabs_le_of_sqr; nra).
  assert (HdY : Rabs dY <= L) by (apply Rabs_le_of_sqr; nra).
  assert (HfX : Rabs fX <= 2048) by (apply Rabs_le; unfold fX; lra).
  assert (HfY : Rabs fY <= 2048) by (apply Rabs_le; unfold fY; lra).
  assert (Hr' : 0 < r <= 1024) by lra.
  assert (HLmax : L <= 4096).
  { apply square_le_le; [lra|]. rewrite HLL. unfold dX, dY. nra. }
  set (B := 2 * (fX * dX + fY * dY)) in *.
  set (C := fX * fX + fY * fY - r * r) in *.
  pose proof (a_close rnd Hrnd dX dY L HdX HdY HLL Hlen) as Ha.
  pose proof (b_close rnd Hrnd dX dY fX fY L HdX HdY HfX HfY Hlen) as Hb.
  pose proof (c_close rnd Hrnd fX fY r HfX HfY Hr') as Hc.
  pose proof (b_exact_bound dX dY fX fY L HdX HdY HfX HfY) as HB.
  pose proof (c_exact_bound fX fY r HfX HfY Hr') as HC.
  fold B in Hb, HB. fold C in Hc, HC.
  unfold segmentCircleIntersect_rnd, segmentCircleIntersect.
  cbn [sub_rnd sub x y]. fold dX dY fX fY. cbv zeta.
  set (a := rnd (rnd (rnd dX * rnd dX) + rnd (rnd dY * rnd dY))) in *.
  set (b := rnd (2 * rnd (rnd (rnd fX * rnd dX) + rnd (rnd fY * rnd dY)))) in *.
  set (cc := rnd (rnd (rnd (rnd fX * rnd fX) + rnd (rnd fY * rnd fY)) - rnd (r * r))) in *.
  rewrite <- HLL. fold B C.
  pose proof (disc_close rnd Hrnd L Hlen a b cc (L * L) B C eq_refl Ha Hb HB Hc HC) as Hd.
  set (disc := rnd (rnd (b * b) - rnd (rnd (4 * a) * cc))) in *.
  set (D := B * B - 4 * (L * L) * C) in *.
  assert (HLL0 : 0 < L * L) by nra.
  apply Rabs_bound in Hd.
  (* the discriminant against the tangency tolerance *)
  assert (HD : D <= - (4 * (L * L) * tangency_tolerance)
               \/ 4 * (L * L) * tangency_tolerance <= D).
  { destruct Htan as [Hout | [t Hin]].
    - left. specialize (Hout (- B / (2 * (L * L)))).
      assert (E : sq_dist (segment_point p0 p1 (- B / (2 * (L * L)))) c - r * r
                  = - D / (4 * (L * L))).
      { rewrite Hline'. fold B C. unfold D. field. lra. }
      assert (Hq : tangency_tolerance <= - D / (4 * (L * L))) by lra.
      apply (Rmult_le_compat_r (4 * (L * L))) in Hq; [|lra].
      replace (- D / (4 * (L * L)) * (4 * (L * L))) with (- D) in Hq by (field; lra).
      lra.
    - right. pose proof (Hline' t) as E. fold B C in E.
      assert (Hq : L * L * (t * t) + B * t + C <= - tangency_tolerance) by lra.
      unfold D. unfold tangency_tolerance in *.
      assert (Hm : 4 * (L * L) * (L * L * (t * t) + B * t + C)
                   <= 4 * (L * L) * - (1 / 1000))
        by (apply Rmult_le_compat_l; lra).
      pose proof (Rle_0_sqr (2 * (L * L) * t + B)) as Hsq. unfold Rsqr in Hsq.
      lra. }
  unfold tangency_tolerance in HD.
  destruct HD as [HD | HD].
  { rewrite !Rltb_true by lra. reflexivity. }
  rewrite !Rltb_false by lra.
  (* the square root *)
  set (S := sqrt D) in *.
  assert (HD0 : 0 <= D) by lra.
  assert (HSS : S * S = D) by (apply sqrt_sqrt; exact HD0).
  assert (HS0 : 0 <= S) by apply sqrt_pos.
  assert (HSmax : S <= 16384 * L).
  { apply square_le_le; [lra|]. rewrite HSS. unfold D.
    apply Rabs_bound in HB, HC. nra. }
  assert (Hs : Rabs (sqrt disc - S) <= / 2 ^ 15 * L).
  { replace (/ 2 ^ 15 * L) with (/ 2 ^ 19 * (L * L) / (L / 16)) by (field; lra).
    apply sqrt_close; [lra | lra | nra | apply Rabs_le; lra]. }
  assert (Hsd : Rabs (rnd (sqrt disc) - S) <= / 2 ^ 15 * L + / 2 ^ 37 * L).
  { eapply Rle_trans.
    - apply (close_rnd rnd Hrnd _ _ _ (16384 * L) Hs).
      rewrite Rabs_pos_eq; lra.
    - pose proof (underflow_le_L L Hlen). unfold unit_roundoff. lra. }
  set (sd := rnd (sqrt disc)) in *.
  assert (Hnb : Rabs (- b - - B) <= / 2 ^ 35 * L).
  { replace (- b - - B) with (- (b - B)) by ring. now rewrite Rabs_Ropp. }
  assert (HnB : Rabs (- B) <= 8192 * L) by now rewrite Rabs_Ropp.
  assert (Hn1 : Rabs (rnd (- b - sd) - (- B - S)) <= / 2 ^ 14 * L).
  { eapply (close_rnd_sub rnd Hrnd _ _ _ _ _ _ (32768 * L)); [exact Hnb | exact Hsd | |].
    - apply Rabs_bound in HnB. apply Rabs_le. lra.
    - pose proof (underflow_le_L L Hlen). unfold unit_roundoff. lra. }
  assert (Hn2 : Rabs (rnd (- b + sd) - (- B + S)) <= / 2 ^ 14 * L).
  { eapply (close_rnd_add rnd Hrnd _ _ _ _ _ _ (32768 * L)); [exact Hnb | exact Hsd | |].
    - apply Rabs_bound in HnB. apply Rabs_le. lra.
    - pose proof (underflow_le_L L Hlen). unfold unit_roundoff. lra. }
  assert (HN1 : Rabs (- B - S) <= 32768 * L).
  { apply Rabs_bound in HnB. apply Rabs_le. lra. }
  assert (HN2 : Rabs (- B + S) <= 32768 * L).
  { apply Rabs_bound in HnB. apply Rabs_le. lra. }
  assert (H2 : Rabs (2 - 2) <= 0).
  { replace (2 - 2) with 0 by ring. rewrite Rabs_R0. lra. }
  assert (Hden : Rabs (rnd (2 * a) - 2 * (L * L)) <= / 2 ^ 46 * (L * L)).
  { eapply (close_rnd_mul rnd Hrnd 2 2 _ _ 0 _ 2 (L * L) _ H2 Ha).
    - rewrite Rabs_pos_eq; lra.
    - rewrite Rabs_pos_eq; lra.
    - pose proof (underflow_le_LL L Hlen). unfold unit_roundoff. lra. }
  (* the roots against the endpoint tolerance *)
  assert (Hroot : forall N, (N = - B - S \/ N = - B + S) ->
            endpoint_tolerance <= Rabs (N / (2 * (L * L))) * L
            /\ endpoint_tolerance <= Rabs (1 - N / (2 * (L * L))) * L).
  { intros N HN. apply Hend.
    apply Rminus_diag_uniq. rewrite Hline'. fold B C.
    assert (E : 4 * (L * L) * (L * L * (N / (2 * (L * L)) * (N / (2 * (L * L))))
                               + B * (N / (2 * (L * L))) + C)
                = (N + B) * (N + B) - D) by (unfold D; field; lra).
    assert (E0 : (N + B) * (N + B) - D = 0).
    { destruct HN as [-> | ->].
      - replace (- B - S + B) with (- S) by ring. nra.
      - replace (- B + S + B) with S by ring. nra. }
    rewrite E0 in E. apply Rmult_integral in E. destruct E; [lra | assumption]. }
  destruct (Hroot (- B - S) (or_introl eq_refl)) as [R10 R11].
  destruct (Hroot (- B + S) (or_intror eq_refl)) as [R20 R21].
  assert (HLr : 0 < L <= 4096) by lra.
  rewrite (root_decision rnd Hrnd L _ _ _ HLr Hn1 HN1 Hden R10 R11).
  rewrite (root_decision rnd Hrnd L _ _ _ HLr Hn2 HN2 Hden R20 R21).
  reflexivity.
Qed.

(** ** Endpoint order and the segment through the centre *)

Lemma sq_dist_sym a b : sq_dist a b = sq_dist b a.
Proof. unfold sq_dist. ring. Qed.

Lemma seg_length_sym p0 p1 : seg_length p0 p1 = seg_length p1 p0.
Proof. unfold seg_length. now rewrite sq_dist_sym. Qed.

Lemma segment_point_swap p0 p1 t :
  segment_point p1 p0 t = segment_point p0 p1 (1 - t).
Proof. unfold segment_point. f_equal; ring. Qed.

Lemma in_range_swap p0 p1 c r : in_range p0 p1 c r -> in_range p1 p0 c r.
Proof.
  unfold in_range. rewrite (seg_length_sym p1 p0). tauto.
Qed.

Lemma clear_of_rounding_swap p0 p1 c r :
  clear_of_rounding p0 p1 c r -> clear_of_rounding p1 p0 c r.
Proof.
  intros [Htan Hend]. split.
  - destruct Htan as [Hout | [t Hin]].
    + left. intros t. rewrite segment_point_swap. apply Hout.
    + right. exists (1 - t). rewrite segment_point_swap.
      now replace (1 - (1 - t)) with t by ring.
  - intros t Ht. rewrite segment_point_swap in Ht.
    destruct (Hend _ Ht) as [H0 H1]. rewrite (seg_length_sym p1 p0).
    replace (1 - (1 - t)) with t in H1 by ring.
    split; assumption.
Qed.

Lemma dist_sq_dist a b : dist a b = sqrt (sq_dist a b).
Proof. reflexivity. Qed.

Lemma le_dist_iff r a b : 0 < r -> r <= dist a b <-> r * r <= sq_dist a b.
Proof.
  intros Hr. rewrite dist_sq_dist.
  assert (H0 : 0 <= sq_dist a b)
    by (unfold sq_dist; apply Rplus_le_le_0_compat; apply Rle_0_sqr).
  pose proof (sqrt_sqrt _ H0) as HS. pose proof (sqrt_pos (sq_dist a b)) as HP.
  split; intros H.
  - rewrite <- HS. nra.
  - apply square_le_le; [exact HP | now rewrite HS].
Qed.

Lemma rounding_round_away : rounding round_away.
Proof.
  intros v. unfold round_away.
  replace (v * (1 + unit_roundoff) - v) with (unit_roundoff * v) by ring.
  rewrite Rabs_mult, (Rabs_pos_eq unit_roundoff)
    by (unfold unit_roundoff; lra).
  unfold underflow_unit. lra.
Qed.

(** C6 (as the code has it): computed in double precision, with the
    coordinates and the radius at most 1000 in magnitude and the circle
    clear of the thresholds of the test (the line of the segment not
    within a thousandth of tangency, no crossing of the circle within a
    ten-thousandth of an endpoint), [segmentCircleIntersect] gives the
    same answer with its endpoints swapped, and a segment through the
    circle's centre is reported exactly when one of its endpoints is at
    distance [r] or more from the centre. *)
Theorem segment_circle_sym_and_centre rnd p0 p1 c r :
  rounding rnd -> in_range p0 p1 c r -> clear_of_rounding p0 p1 c r ->
  segmentCircleIntersect_rnd rnd p0 p1 c r = segmentCircleIntersect_rnd rnd p1 p0 c r
  /\ (on_segment p0 p1 c ->
      (segmentCircleIntersect_rnd rnd p0 p1 c r = true
       <-> r * r <= sq_dist p0 c \/ r * r <= sq_dist p1 c)).
Proof.
  intros Hrnd Hrange Hclear.
  rewrite (segmentCircleIntersect_rnd_exact rnd p0 p1 c r Hrnd Hrange Hclear).
  rewrite (segmentCircleIntersect_rnd_exact rnd p1 p0 c r Hrnd
             (in_range_swap _ _ _ _ Hrange) (clear_of_rounding_swap _ _ _ _ Hclear)).
  assert (Hr : 0 < r) by (unfold in_range in Hrange; tauto).
  split.
  - apply segmentCircleIntersect_sym.
  - intros Hc.
    rewrite (segmentCircleIntersect_through_centre _ _ _ _ Hr Hc).
    now rewrite !le_dist_iff.
Qed.

Lemma seg_length_eq p0 p1 l :
  0 <= l -> l * l = sq_dist p1 p0 -> seg_length p0 p1 = l.
Proof.
  intros Hl H. unfold seg_length. apply sqrt_lem_1; [rewrite <- H; nra | exact Hl | exact H].
Qed.

Lemma crossing_in_range :
  in_range crossing_p0 world.pilePos world.pilePos world.pileRadius.
Proof.
  unfold in_range, crossing_p0, world.pilePos, world.pileRadius, BASE_W, BASE_H.
  cbn [x y]. rewrite (seg_length_eq _ _ 30) by (unfold sq_dist; simpl; lra).
  repeat split; try lra; apply Rabs_le; lra.
Qed.

Lemma crossing_clear :
  clear_of_rounding crossing_p0 world.pilePos world.pilePos world.pileRadius.
Proof.
  unfold clear_of_rounding.
  rewrite (seg_length_eq _ _ 30)
    by (unfold sq_dist, crossing_p0, world.pilePos, BASE_W, BASE_H; simpl; lra).
  unfold tangency_tolerance, endpoint_tolerance, world.pileRadius. split.
  - right. exists 1.
    unfold sq_dist, segment_point, crossing_p0, world.pilePos, BASE_W, BASE_H.
    simpl. lra.
  - intros t.
    unfold sq_dist, segment_point, crossing_p0, world.pilePos, BASE_W, BASE_H.
    simpl. intros H.
    assert (E : (30 * t - 2) * (30 * t - 58) = 0) by lra.
    apply Rmult_integral in E.
    unfold Rabs. destruct (Rcase_abs t), (Rcase_abs (1 - t)); lra.
Qed.

(** The segment from (420, 270) to the centre of the pile, under an
    arithmetic that rounds every result away from zero; binary64 gives
    the same answer in both orders. *)
Lemma segment_circle_sym_and_centre_witness :
  (segmentCircleIntersect_rnd round_away crossing_p0 world.pilePos
     world.pilePos world.pileRadius
   = segmentCircleIntersect_rnd round_away world.pilePos crossing_p0
       world.pilePos world.pileRadius
   /\ segmentCircleIntersect_rnd round_away crossing_p0 world.pilePos
        world.pilePos world.pileRadius = true)
  /\ (F64.segmentCircleIntersect (F64.mkVec2 420 270) (F64.mkVec2 450 270)
        (F64.mkVec2 450 270) 28 = true
      /\ F64.segmentCircleIntersect (F64.mkVec2 450 270) (F64.mkVec2 420 270)
           (F64.mkVec2 450 270) 28 = true).
Proof.
  split; [|split; vm_compute; reflexivity].
  destruct (segment_circle_sym_and_centre round_away crossing_p0 world.pilePos
              world.pilePos world.pileRadius rounding_round_away
              crossing_in_range crossing_clear) as [Hs Hc].
  split; [exact Hs|].
  apply (Hc (on_segment_end _ _)). left.
  unfold sq_dist, crossing_p0, world.pilePos, world.pileRadius, BASE_W, BASE_H.
  simpl. lra.
Defined.

Lemma inside_in_range :
  in_range inside_p0 inside_p1 world.pilePos world.pileRadius.
Proof.
  unfold in_range, inside_p0, inside_p1, world.pilePos, world.pileRadius, BASE_W, BASE_H.
  cbn [x y]. rewrite (seg_length_eq _ _ 20) by (unfold sq_dist; simpl; lra).
  repeat split; try lra; apply Rabs_le; lra.
Qed.

Lemma inside_clear :
  clear_of_rounding inside_p0 inside_p1 world.pilePos world.pileRadius.
Proof.
  unfold clear_of_rounding.
  rewrite (seg_length_eq _ _ 20)
    by (unfold sq_dist, inside_p0, inside_p1; simpl; lra).
  unfold tangency_tolerance, endpoint_tolerance, world.pileRadius. split.
  - right. exists (1 / 2).
    unfold sq_dist, segment_point, inside_p0, inside_p1, world.pilePos, BASE_W, BASE_H.
    simpl. lra.
  - intros t.
    unfold sq_dist, segment_point, inside_p0, inside_p1, world.pilePos, BASE_W, BASE_H.
    simpl. intros H.
    assert (E : (20 * t - 38) * (20 * t + 18) = 0) by lra.
    apply Rmult_integral in E.
    unfold Rabs. destruct (Rcase_abs t), (Rcase_abs (1 - t)); lra.
Qed.

(** C6, the claim as written fails in both halves.  A segment through
    the centre whose endpoints are both inside the circle is not
    reported, in exact arithmetic, in binary64 and under every
    rounding; and in binary64 the answer for the segment from
    (446.3, 298) to (450, 298), which touches the circle of the pile,
    depends on the order of its endpoints ([0x1.be4cccccccccdp+8] is
    the binary64 number that [446.3] denotes). *)
Lemma segment_inside_circle_not_reported :
  (0 < world.pileRadius
   /\ on_segment inside_p0 inside_p1 world.pilePos
   /\ segmentCircleIntersect inside_p0 inside_p1 world.pilePos world.pileRadius = false
   /\ segmentCircleIntersect_rnd round_away inside_p0 inside_p1
        world.pilePos world.pileRadius = false
   /\ F64.segmentCircleIntersect (F64.mkVec2 440 270) (F64.mkVec2 460 270)
        (F64.mkVec2 450 270) 28 = false)
  /\ (F64.segmentCircleIntersect (F64.mkVec2 0x1.be4cccccccccdp+8 298) (F64.mkVec2 450 298)
        (F64.mkVec2 450 270) 28 = false
      /\ F64.segmentCircleIntersect (F64.mkVec2 450 298) (F64.mkVec2 0x1.be4cccccccccdp+8 298)
           (F64.mkVec2 450 270) 28 = true).
Proof.
  assert (Hr : 0 < world.pileRadius) by (unfold world.pileRadius; lra).
  assert (Hc : on_segment inside_p0 inside_p1 world.pilePos).
  { exists (1 / 2). unfold inside_p0, inside_p1, world.pilePos, BASE_W, BASE_H.
    simpl. repeat split; lra. }
  assert (Hf : segmentCircleIntersect inside_p0 inside_p1 world.pilePos
                 world.pileRadius = false).
  { apply not_true_is_false. intros H.
    apply (segmentCircleIntersect_through_centre _ _ _ _ Hr Hc) in H.
    rewrite !le_dist_iff in H by exact Hr.
    unfold sq_dist, inside_p0, inside_p1, world.pilePos, world.pileRadius,
      BASE_W, BASE_H in H. simpl in H. lra. }
  assert (Hrnd : segmentCircleIntersect_rnd round_away inside_p0 inside_p1
                   world.pilePos world.pileRadius = false).
  { rewrite (segmentCircleIntersect_rnd_exact _ _ _ _ _ rounding_round_away
               inside_in_range inside_clear). exact Hf. }
  split; [|split; vm_compute; reflexivity].
  split; [exact Hr|]. split; [exact Hc|]. split; [exact Hf|].
  split; [exact Hrnd|]. vm_compute. reflexivity.
Qed.

(** ** The player's motion *)

Lemma clamp_in a b v : a <= v <= b -> clamp v a b = v.
Proof.
  intros [H1 H2]. unfold clamp. rewrite Rmin_right by exact H2.
  now apply Rmax_right.
Qed.

Lemma update_rebuild_player level dt s :
  let v := norm (keyboard_move s) in
  let kx := clamp (x (pos (player s)) + x v * playerSpeed level * dt) 10 (BASE_W - 10) in
  let ky := clamp (y (pos (player s)) + y v * playerSpeed level * dt) 10 (BASE_H - 10) in
  pos (player (update_rebuild level dt s)) =
  match heldDir s with
  | Some DirUp => mkVec2 kx (Rmax 10 (ky - playerSpeed level * dt))
  | Some DirDown => mkVec2 kx (Rmin (BASE_H - 10) (ky + playerSpeed level * dt))
  | Some DirLeft => mkVec2 (Rmax 10 (kx - playerSpeed level * dt)) ky
  | Some DirRight => mkVec2 (Rmin (BASE_W - 10) (kx + playerSpeed level * dt)) ky
  | None => mkVec2 kx ky
  end.
Proof.
  unfold update_rebuild.
  match goal with |- context [if Rleb ?a ?b then _ else _] => destruct (Rleb a b) end;
    reflexivity.
Qed.

Lemma clamp_step a b p d :
  a <= p <= b -> (p - clamp (p + d) a b) * (p - clamp (p + d) a b) <= d * d.
Proof.
  intros [H1 H2]. unfold clamp, Rmax, Rmin.
  destruct (Rle_dec b (p + d)); destruct (Rle_dec a _); nra.
Qed.

Lemma hypot_mono a b a' b' :
  a * a <= a' * a' -> b * b <= b' * b' -> hypot a b <= hypot a' b'.
Proof. intros Ha Hb. unfold hypot. apply sqrt_le_1; nra. Qed.

Lemma len_norm_cases v : len (norm v) = 1 \/ norm v = mkVec2 0 0.
Proof.
  destruct (Req_dec_T (len v) 0) as [H | H].
  - right. unfold norm. now rewrite Reqb0_true.
  - left. now apply len_norm.
Qed.

Lemma playerSpeed_pos k : 0 < playerSpeed (LEVELS k).
Proof. destruct k; simpl; lra. Qed.

(** ** The blocks of [update] under their tests *)

Lemma update_flight_continue dt u1 u2 s :
  pileCollapsed s = false -> hits_pile dt s = false -> ball_stops dt s = false ->
  update_flight dt u1 u2 s = set_ballVel (vel_next s) (set_ball_pos (ball_next dt s) s).
Proof.
  intros Hc Hh Hs. unfold update_flight.
  unfold hits_pile in Hh. unfold ball_stops, out_of_field in Hs.
  cbn [pileCollapsed set_ballVel set_ball_pos pos ball ballVel x y].
  fold (ball_next dt s). fold (vel_next s).
  rewrite Hc. cbn [negb andb]. rewrite Hh.
  cbn [ballVel set_ballVel set_ball_pos pos ball].
  rewrite Hs. reflexivity.
Qed.

Lemma update_flight_collapse dt u1 u2 s :
  pileCollapsed s = false -> hits_pile dt s = true -> ball_stops dt s = false ->
  update_flight dt u1 u2 s =
  set_ballActive false
    (setPhase Rebuild
       (set_opponent_pos (randomEdgeSpawn BASE_W BASE_H u1 u2)
          (set_metrics (set_score (score (metrics s) + 10) (metrics s))
             (set_pileCollapsed true
                (set_ballVel (vel_next s) (set_ball_pos (ball_next dt s) s)))))).
Proof.
  intros Hc Hh Hs. unfold update_flight.
  unfold hits_pile in Hh. unfold ball_stops, out_of_field in Hs.
  cbn [pileCollapsed set_ballVel set_ball_pos pos ball ballVel x y].
  fold (ball_next dt s). fold (vel_next s).
  rewrite Hc. cbn [negb andb]. rewrite Hh.
  cbn [ballVel set_ballVel set_ball_pos pos ball set_ballActive setPhase
       set_opponent_pos set_metrics set_pileCollapsed].
  rewrite Hs. reflexivity.
Qed.

Lemma update_rebuild_eq level dt s :
  update_rebuild level dt s =
  let p := player_next level dt s in
  let o := opponent_next level dt p (pos (opponent s)) in
  let s2 := set_opponent_pos o (set_player_pos p s) in
  if Rleb (dist p o) world.tagRange then setPhase Lose s2 else s2.
Proof. reflexivity. Qed.

(** ** Segments that approach and segments that enter *)

Lemma in_unit_false_above t : 1 < t -> in_unit (Some t) = false.
Proof.
  intros H. apply not_true_is_false. rewrite in_unit_iff. lra.
Qed.

(** Both roots are beyond the far endpoint: the segment stops short of
    the circle. *)
Lemma root_test_before a b cc :
  0 < a -> 2 * a + b < 0 -> 0 < a + b + cc -> root_test a b cc = false.
Proof.
  intros Ha Hb Hc. unfold root_test.
  destruct (Rltb _ 0) eqn:E; [reflexivity|].
  assert (Hd : 0 <= b * b - 4 * a * cc).
  { unfold Rltb in E. destruct (Rlt_dec _ 0); [discriminate | lra]. }
  set (s := sqrt (b * b - 4 * a * cc)).
  assert (Hs : 0 <= s) by apply sqrt_pos.
  assert (Hss : s * s = b * b - 4 * a * cc) by (apply sqrt_sqrt; exact Hd).
  assert (Hlt : s < - b - 2 * a) by (apply square_lt_lt; nra).
  unfold js_div. rewrite Reqb0_false by lra.
  rewrite !in_unit_false_above; [reflexivity | |].
  - apply Rmult_lt_reg_r with (2 * a); [lra|].
    replace ((- b + s) / (2 * a) * (2 * a)) with (- b + s) by (field; lra). lra.
  - apply Rmult_lt_reg_r with (2 * a); [lra|].
    replace ((- b - s) / (2 * a) * (2 * a)) with (- b - s) by (field; lra). lra.
Qed.

(** The segment starts on or outside the circle and ends on or inside
    it: the first root is on the segment. *)
Lemma root_test_entering a b cc :
  0 < a -> 0 <= cc -> a + b + cc <= 0 -> root_test a b cc = true.
Proof.
  intros Ha Hc Hc'. unfold root_test.
  assert (Hb : a + cc <= - b) by lra.
  assert (Hbb : (a + cc) * (a + cc) <= b * b) by nra.
  assert (Hsq : 0 <= (a - cc) * (a - cc)) by apply Rle_0_sqr.
  assert (Hd : 0 <= b * b - 4 * a * cc) by nra.
  rewrite Rltb_false by lra.
  set (s := sqrt (b * b - 4 * a * cc)).
  assert (Hs : 0 <= s) by apply sqrt_pos.
  assert (Hss : s * s = b * b - 4 * a * cc) by (apply sqrt_sqrt; exact Hd).
  unfold js_div. rewrite Reqb0_false by lra.
  apply orb_true_iff. left. apply in_unit_iff.
  assert (H0 : s <= - b) by (apply square_le_le; nra).
  assert (H1 : - b - 2 * a <= s) by (apply square_le_le; nra).
  split.
  - apply Rmult_le_reg_r with (2 * a); [lra|].
    replace ((- b - s) / (2 * a) * (2 * a)) with (- b - s) by (field; lra). lra.
  - apply Rmult_le_reg_r with (2 * a); [lra|].
    replace ((- b - s) / (2 * a) * (2 * a)) with (- b - s) by (field; lra). lra.
Qed.

(** ** The flight of the scenario *)

Lemma tick_dt : frame_dt tick = 50 / 1000.
Proof. simpl. rewrite Rmin_left; lra. Qed.

Lemma ball_next_flying t :
  ball_next (50 / 1000) (flying t) = ball_at (world.ballFriction * t).
Proof.
  unfold ball_next, flying, ball_at, vel_at, world.ballFriction. simpl.
  f_equal; field.
Qed.

Lemma vel_next_flying t : vel_next (flying t) = vel_at (world.ballFriction * t).
Proof.
  unfold vel_next, flying, vel_at, world.ballFriction. simpl. f_equal; field.
Qed.

Lemma len_vel_at t : 0 <= t -> len (vel_at t) = 600 * t.
Proof.
  intros Ht. unfold len, vel_at. simpl. apply hypot_eq; [lra | field].
Qed.

(** Along the line of the throw, at distance [D] from the player. *)
Lemma approach_coefficients D D' :
  let p0 := mkVec2 (130 + 15 / 17 * D) (450 - 8 / 17 * D) in
  let p1 := mkVec2 (130 + 15 / 17 * D') (450 - 8 / 17 * D') in
  let c := world.pilePos in
  let a := (x p1 - x p0) * (x p1 - x p0) + (y p1 - y p0) * (y p1 - y p0) in
  let b := 2 * ((x p0 - x c) * (x p1 - x p0) + (y p0 - y c) * (y p1 - y p0)) in
  let cc := (x p0 - x c) * (x p0 - x c) + (y p0 - y c) * (y p0 - y c)
            - world.pileRadius * world.pileRadius in
  a = (D' - D) * (D' - D)
  /\ 2 * a + b = 2 * (D' - D) * (D' - 6240 / 17)
  /\ cc = (D - 6240 / 17) * (D - 6240 / 17) - 206976 / 289
  /\ a + b + cc = (D' - 6240 / 17) * (D' - 6240 / 17) - 206976 / 289.
Proof.
  unfold world.pilePos, world.pileRadius, BASE_W, BASE_H. simpl.
  repeat split; field.
Qed.

Lemma approach_misses D D' :
  D < D' -> D' <= 332 ->
  segmentCircleIntersect (mkVec2 (130 + 15 / 17 * D) (450 - 8 / 17 * D))
    (mkVec2 (130 + 15 / 17 * D') (450 - 8 / 17 * D'))
    world.pilePos world.pileRadius = false.
Proof.
  intros H1 H2. rewrite segmentCircleIntersect_root_test.
  destruct (approach_coefficients D D') as (Ea & Eb & _ & Ec).
  cbv zeta in Ea, Eb, Ec.
  apply root_test_before.
  - rewrite Ea. nra.
  - rewrite Eb. nra.
  - rewrite Ec. assert (35 <= 6240 / 17 - D') by lra. nra.
Qed.

Lemma approach_hits D D' :
  D < D' -> D <= 332 -> 350 <= D' <= 380 ->
  segmentCircleIntersect (mkVec2 (130 + 15 / 17 * D) (450 - 8 / 17 * D))
    (mkVec2 (130 + 15 / 17 * D') (450 - 8 / 17 * D'))
    world.pilePos world.pileRadius = true.
Proof.
  intros H1 H2 H3. rewrite segmentCircleIntersect_root_test.
  destruct (approach_coefficients D D') as (Ea & _ & Ec & Ec').
  cbv zeta in Ea, Ec, Ec'.
  apply root_test_entering.
  - rewrite Ea. nra.
  - rewrite Ec. assert (35 <= 6240 / 17 - D) by lra. nra.
  - rewrite Ec'.
    assert (- 18 <= D' - 6240 / 17 <= 18) by lra. nra.
Qed.

Lemma ball_in_field t : 8 / 10 <= t <= 1 -> out_of_field (ball_at t) = false.
Proof.
  intros Ht. unfold out_of_field, ball_at, BASE_W, BASE_H. simpl.
  rewrite !Rltb_false by lra. reflexivity.
Qed.

(** A tick of the flight before the ball reaches the pile. *)
Lemma flying_tick t :
  834 / 1000 <= world.ballFriction * t -> t <= 1 ->
  step (LEVELS beginner) (flying t) tick = flying (world.ballFriction * t).
Proof.
  intros Hq Ht.
  change (step (LEVELS beginner) (flying t) tick)
    with (update (LEVELS beginner) (frame_dt tick) (1 / 4) 0 (flying t)).
  rewrite tick_dt.
  change (update (LEVELS beginner) (50 / 1000) (1 / 4) 0 (flying t))
    with (update_flight (50 / 1000) (1 / 4) 0 (flying t)).
  rewrite update_flight_continue.
  - rewrite ball_next_flying, vel_next_flying. reflexivity.
  - reflexivity.
  - unfold hits_pile. rewrite ball_next_flying.
    unfold world.ballFriction in *. apply approach_misses; lra.
  - unfold ball_stops. rewrite vel_next_flying, ball_next_flying.
    unfold world.ballFriction in *.
    rewrite len_vel_at by lra.
    rewrite Rltb_false by (unfold world.ballStopSpeed; lra).
    apply ball_in_field. lra.
Qed.

Lemma friction_pow_12 :
  834 / 1000 <= world.ballFriction ^ 12 <= 835 / 1000.
Proof. unfold world.ballFriction. simpl. lra. Qed.

Lemma friction_pow_le_1 n : 0 < world.ballFriction ^ n <= 1.
Proof.
  split.
  - apply pow_lt. unfold world.ballFriction. lra.
  - rewrite <- (pow1 n). apply pow_incr. unfold world.ballFriction. lra.
Qed.

Ltac unfold_state :=
  cbv [setPhase setPaused set_heldDir set_player_pos set_opponent_pos set_ball_pos
       set_ballVel set_ballActive set_pileCollapsed set_metrics set_keys
       set_dragging set_dragStart set_dragCurrent
       set_score set_attemptsLeft set_stonesPlaced set_stonesTotal
       phase paused heldDir player opponent ball ballVel ballActive
       pileCollapsed metrics keys dragging dragStart dragCurrent
       pos radius score attemptsLeft stonesPlaced stonesTotal
       initState stones attempts LEVELS negb Phase_eqb].

Lemma throw_flying :
  run (LEVELS beginner) (initState (LEVELS beginner)) throw = flying 1.
Proof.
  unfold throw. cbn [run step].
  unfold startGame, resetRound, pointer_down, pointer_up. unfold_state.
  unfold flying, spawnPoint. f_equal.
  - unfold ball_at, BASE_H. do 2 f_equal; lra.
  - assert (Hl : len (sub aim_at (mkVec2 130 (BASE_H - 90))) = 340).
    { unfold len, sub, aim_at, BASE_H. simpl. apply hypot_eq; lra. }
    unfold norm. rewrite Hl. rewrite Reqb0_false by lra.
    unfold mul, vel_at, clamp, sub, aim_at, BASE_H,
      world.throwPowerScale, world.maxThrowPower. simpl.
    rewrite Rmin_left by lra. rewrite Rmax_right by lra.
    f_equal; field.
Qed.

(** The first ticks of the flight leave the ball in flight. *)
Lemma flying_ticks n t :
  834 / 1000 <= world.ballFriction ^ n * t -> t <= 1 ->
  run (LEVELS beginner) (flying t) (repeat tick n) = flying (world.ballFriction ^ n * t).
Proof.
  revert t. induction n as [|n IH]; intros t Hq Ht.
  - simpl. f_equal. ring.
  - pose proof (friction_pow_le_1 n) as Hn.
    assert (Hf : world.ballFriction = 985 / 1000) by reflexivity.
    cbn [repeat run]. simpl pow in Hq.
    assert (H0 : 0 < t) by nra.
    rewrite flying_tick; [|nra|exact Ht].
    rewrite IH; [f_equal; simpl; ring | |].
    + replace (world.ballFriction ^ n * (world.ballFriction * t))
        with (world.ballFriction * world.ballFriction ^ n * t) by ring.
      exact Hq.
    + rewrite Hf. lra.
Qed.

Lemma spawn_right_edge : randomEdgeSpawn BASE_W BASE_H (1 / 4) 0 = mkVec2 880 20.
Proof.
  unfold randomEdgeSpawn.
  assert (E : Int_part (1 / 4 * 4) = 1%Z).
  { symmetry. apply Int_part_spec. simpl. lra. }
  rewrite E. simpl. unfold BASE_W. f_equal; lra.
Qed.

(** The thirteenth tick takes the ball into the pile. *)
Lemma collapse_tick :
  step (LEVELS beginner) (flying (world.ballFriction ^ 12)) tick = collapsed.
Proof.
  pose proof friction_pow_12 as H12.
  set (t := world.ballFriction ^ 12) in *.
  change (step (LEVELS beginner) (flying t) tick)
    with (update (LEVELS beginner) (frame_dt tick) (1 / 4) 0 (flying t)).
  rewrite tick_dt.
  change (update (LEVELS beginner) (50 / 1000) (1 / 4) 0 (flying t))
    with (update_flight (50 / 1000) (1 / 4) 0 (flying t)).
  rewrite update_flight_collapse.
  - rewrite ball_next_flying, vel_next_flying, spawn_right_edge. reflexivity.
  - reflexivity.
  - unfold hits_pile. rewrite ball_next_flying.
    unfold world.ballFriction in *. apply approach_hits; lra.
  - unfold ball_stops. rewrite vel_next_flying, ball_next_flying.
    unfold world.ballFriction in *.
    rewrite len_vel_at by lra.
    rewrite Rltb_false by (unfold world.ballStopSpeed; lra).
    apply ball_in_field. lra.
Qed.

(** Scenario: on the beginner level, the throw collapses the pile on
    its thirteenth tick; the score is 10 and the phase Rebuild. *)
Lemma flight_collapses :
  run (LEVELS beginner) (initState (LEVELS beginner)) (throw ++ repeat tick 13)
  = collapsed.
Proof.
  change (repeat tick 13) with (repeat tick 12 ++ [tick]).
  rewrite !run_app, throw_flying.
  rewrite flying_ticks.
  - rewrite Rmult_1_r. cbn [run]. apply collapse_tick.
  - pose proof friction_pow_12. lra.
  - lra.
Qed.

(** C7 (a defect of the code): the keyboard keys held are summed into a
    vector that is normalised before it is scaled by [playerSpeed * dt],
    but a held pad button is applied in a block of its own after that
    step.  In the reachable state [both_right], with the D key and the
    right button held together, one tick of 50 ms moves the player of
    the beginner level from x = 130 to x = 146: 16 units, twice
    [playerSpeed * dt]. *)
Theorem keyboard_and_button_add_up :
  let level := LEVELS beginner in
  let dt := 50 / 1000 in
  let s' := update level dt 0 0 both_right in
  reachable beginner both_right
  /\ phase both_right = Rebuild
  /\ held "d" both_right = true
  /\ heldDir both_right = Some DirRight
  /\ playerSpeed level * dt = 8
  /\ pos (player both_right) = mkVec2 130 (BASE_H - 90)
  /\ pos (player s') = mkVec2 146 (BASE_H - 90)
  /\ playerSpeed level * dt < dist (pos (player both_right)) (pos (player s')).
Proof.
  intros level dt s'.
  assert (Hreach : reachable beginner both_right).
  { unfold both_right. rewrite <- flight_collapses, <- run_app.
    apply reachable_from_run. }
  assert (Hpos : pos (player s') = mkVec2 146 (BASE_H - 90)).
  { unfold s', update. simpl Phase_eqb. cbn [andb].
    rewrite update_rebuild_player.
    assert (Hk : keyboard_move both_right = mkVec2 1 0).
    { unfold keyboard_move.
      replace (held "d" both_right) with true by reflexivity.
      replace (held "a" both_right) with false by reflexivity.
      replace (held "arrowleft" both_right) with false by reflexivity.
      replace (held "w" both_right) with false by reflexivity.
      replace (held "arrowup" both_right) with false by reflexivity.
      replace (held "s" both_right) with false by reflexivity.
      replace (held "arrowdown" both_right) with false by reflexivity.
      simpl. f_equal; lra. }
    rewrite Hk.
    assert (Hn : norm (mkVec2 1 0) = mkVec2 1 0).
    { unfold norm, len. simpl. rewrite (hypot_eq 1 0 1) by lra.
      rewrite Reqb0_false by lra. f_equal; lra. }
    rewrite Hn. simpl. unfold dt, BASE_W, BASE_H.
    rewrite !clamp_in by lra. rewrite Rmin_right by lra. f_equal; lra. }
  split; [exact Hreach|].
  repeat split.
  - unfold dt. simpl. lra.
  - exact Hpos.
  - rewrite Hpos. unfold dist. simpl. rewrite (hypot_eq _ _ 16) by lra.
    unfold dt. lra.
Qed.

(** ** The walk of the scenario *)

Lemma hypot_ge_l a b : a <= hypot a b.
Proof.
  apply square_le_le; [apply hypot_nonneg|]. rewrite hypot_sqr. nra.
Qed.

Lemma norm_x_bounds v : - 1 <= x (norm v) <= 1.
Proof.
  unfold norm. destruct (Reqb0 (len v)) eqn:E; simpl; [lra|].
  assert (Hl : 0 < len v).
  { pose proof (len_nonneg v). unfold Reqb0 in E.
    destruct (Req_dec_T (len v) 0); [discriminate | lra]. }
  assert (H1 : x v <= len v) by apply hypot_ge_l.
  assert (H2 : - x v <= len v).
  { unfold len. replace (hypot (x v) (y v)) with (hypot (- x v) (y v)).
    - apply hypot_ge_l.
    - unfold hypot. f_equal. ring. }
  split.
  - apply Rmult_le_reg_r with (len v); [exact Hl|].
    replace (x v / len v * len v) with (x v) by (field; lra). lra.
  - apply Rmult_le_reg_r with (len v); [exact Hl|].
    replace (x v / len v * len v) with (x v) by (field; lra). lra.
Qed.

(** A tick of the walk, the opponent being far to the right: the player
    is where the keys and the pad take it, the opponent has come at
    most 4.5 units closer. *)
Lemma walking_tick ks d p o p' :
  player_next (LEVELS beginner) (50 / 1000) (walking ks d p o) = p' ->
  x p' + 30 <= x o ->
  exists o',
    step (LEVELS beginner) (walking ks d p o) tick = walking ks d p' o'
    /\ x o - 45 / 10 <= x o'.
Proof.
  intros Hp Hx.
  exists (opponent_next (LEVELS beginner) (50 / 1000) p' o).
  assert (Ho : x o - 45 / 10 <= x (opponent_next (LEVELS beginner) (50 / 1000) p' o)).
  { unfold opponent_next. simpl.
    pose proof (norm_x_bounds (sub p' o)). lra. }
  split; [|exact Ho].
  change (step (LEVELS beginner) (walking ks d p o) tick)
    with (update (LEVELS beginner) (frame_dt tick) (1 / 4) 0 (walking ks d p o)).
  rewrite tick_dt.
  change (update (LEVELS beginner) (50 / 1000) (1 / 4) 0 (walking ks d p o))
    with (update_rebuild (LEVELS beginner) (50 / 1000) (walking ks d p o)).
  rewrite update_rebuild_eq. cbv zeta. rewrite Hp.
  change (pos (opponent (walking ks d p o))) with o.
  rewrite Rleb_false; [reflexivity|].
  unfold world.tagRange, dist.
  replace (hypot (x p' - x (opponent_next (LEVELS beginner) (50 / 1000) p' o))
                 (y p' - y (opponent_next (LEVELS beginner) (50 / 1000) p' o)))
    with (hypot (x (opponent_next (LEVELS beginner) (50 / 1000) p' o) - x p')
                (y p' - y (opponent_next (LEVELS beginner) (50 / 1000) p' o)))
    by (unfold hypot; f_equal; ring).
  eapply Rlt_le_trans; [|apply hypot_ge_l]. lra.
Qed.

Lemma norm_axis a b : a * a + b * b = 1 -> norm (mkVec2 a b) = mkVec2 a b.
Proof.
  intros H. unfold norm, len. simpl. rewrite (hypot_eq a b 1) by lra.
  rewrite Reqb0_false by lra. f_equal; field.
Qed.

Lemma keyboard_move_up d p o :
  keyboard_move (walking keys_up d p o) = mkVec2 0 (- 1).
Proof.
  unfold keyboard_move.
  replace (held "w" (walking keys_up d p o)) with true by reflexivity.
  replace (held "s" (walking keys_up d p o)) with false by reflexivity.
  replace (held "arrowdown" (walking keys_up d p o)) with false by reflexivity.
  replace (held "a" (walking keys_up d p o)) with false by reflexivity.
  replace (held "arrowleft" (walking keys_up d p o)) with false by reflexivity.
  replace (held "d" (walking keys_up d p o)) with false by reflexivity.
  replace (held "arrowright" (walking keys_up d p o)) with false by reflexivity.
  simpl. f_equal; lra.
Qed.

Lemma keyboard_move_right d p o :
  keyboard_move (walking keys_right d p o) = mkVec2 1 0.
Proof.
  unfold keyboard_move.
  replace (held "w" (walking keys_right d p o)) with false by reflexivity.
  replace (held "arrowup" (walking keys_right d p o)) with false by reflexivity.
  replace (held "s" (walking keys_right d p o)) with false by reflexivity.
  replace (held "arrowdown" (walking keys_right d p o)) with false by reflexivity.
  replace (held "a" (walking keys_right d p o)) with false by reflexivity.
  replace (held "arrowleft" (walking keys_right d p o)) with false by reflexivity.
  replace (held "d" (walking keys_right d p o)) with true by reflexivity.
  simpl. f_equal; lra.
Qed.

Lemma player_next_up p o :
  10 <= x p <= 890 -> 26 <= y p <= 530 ->
  player_next (LEVELS beginner) (50 / 1000) (walking keys_up (Some DirUp) p o)
  = mkVec2 (x p) (y p - 16).
Proof.
  intros Hx Hy. unfold player_next. rewrite keyboard_move_up.
  rewrite norm_axis by lra. unfold BASE_W, BASE_H. simpl.
  rewrite !clamp_in by lra. rewrite Rmax_right by lra. f_equal; lra.
Qed.

Lemma player_next_right p o :
  10 <= x p <= 874 -> 10 <= y p <= 530 ->
  player_next (LEVELS beginner) (50 / 1000) (walking keys_right (Some DirRight) p o)
  = mkVec2 (x p + 16) (y p).
Proof.
  intros Hx Hy. unfold player_next. rewrite keyboard_move_right.
  rewrite norm_axis by lra. unfold BASE_W, BASE_H. simpl.
  rewrite !clamp_in by lra. rewrite Rmin_right by lra. f_equal; lra.
Qed.

Lemma run_cons level s e es :
  run level s (e :: es) = run level (step level s e) es.
Proof. reflexivity. Qed.

Lemma walking_up_ticks n p o :
  10 <= x p <= 890 -> y p <= 530 -> 10 <= y p - 16 * INR n ->
  x p + 30 + 45 / 10 * INR n <= x o ->
  exists o',
    run (LEVELS beginner) (walking keys_up (Some DirUp) p o) (repeat tick n)
    = walking keys_up (Some DirUp) (mkVec2 (x p) (y p - 16 * INR n)) o'
    /\ x o - 45 / 10 * INR n <= x o'.
Proof.
  revert p o. induction n as [|n IH]; intros p o Hx Hy Hn Ho.
  - exists o. simpl. split; [|lra]. destruct p as [px py]. simpl.
    f_equal. simpl. f_equal; lra.
  - rewrite S_INR in *. pose proof (pos_INR n) as Hpos.
    destruct (walking_tick keys_up (Some DirUp) p o (mkVec2 (x p) (y p - 16)))
      as (o1 & E1 & Ho1).
    { apply player_next_up; lra. }
    { simpl. lra. }
    destruct (IH (mkVec2 (x p) (y p - 16)) o1) as (o' & E & Ho'); try (simpl; lra).
    exists o'. split; [|lra].
    change (repeat tick (S n)) with (tick :: repeat tick n).
    rewrite run_cons, E1, E. f_equal. simpl. f_equal; lra.
Qed.

Lemma walking_right_ticks n p o :
  10 <= x p -> x p + 16 * INR n <= 890 -> 10 <= y p <= 530 ->
  x p + 30 + (16 + 45 / 10) * INR n <= x o ->
  exists o',
    run (LEVELS beginner) (walking keys_right (Some DirRight) p o) (repeat tick n)
    = walking keys_right (Some DirRight) (mkVec2 (x p + 16 * INR n) (y p)) o'
    /\ x o - 45 / 10 * INR n <= x o'.
Proof.
  revert p o. induction n as [|n IH]; intros p o Hx Hn Hy Ho.
  - exists o. simpl. split; [|lra]. destruct p as [px py]. simpl.
    f_equal. simpl. f_equal; lra.
  - rewrite S_INR in *. pose proof (pos_INR n) as Hpos.
    destruct (walking_tick keys_right (Some DirRight) p o (mkVec2 (x p + 16) (y p)))
      as (o1 & E1 & Ho1).
    { apply player_next_right; lra. }
    { simpl. lra. }
    destruct (IH (mkVec2 (x p + 16) (y p)) o1) as (o' & E & Ho'); try (simpl; lra).
    exists o'. split; [|lra].
    change (repeat tick (S n)) with (tick :: repeat tick n).
    rewrite run_cons, E1, E. f_equal. simpl. f_equal; lra.
Qed.

(** Scenario: after the collapse the player walks to the pile, ahead of
    the opponent, and stands 4 units below and 32 units left of its
    centre. *)
Lemma at_the_pile :
  exists o,
    run (LEVELS beginner) (initState (LEVELS beginner)) to_the_pile
    = walking keys_right (Some DirRight) (mkVec2 418 274) o.
Proof.
  unfold to_the_pile. rewrite app_assoc, run_app, flight_collapses.
  unfold walk_up, walk_right. rewrite !run_app.
  change (run (LEVELS beginner) collapsed
            [KeyDown "w" "KeyW"; HoldDir (Some DirUp)])
    with (walking keys_up (Some DirUp) spawnPoint (mkVec2 880 20)).
  destruct (walking_up_ticks 11 spawnPoint (mkVec2 880 20)) as (o1 & E1 & H1);
    try (unfold spawnPoint, BASE_H; simpl; lra).
  rewrite E1.
  match goal with
  | |- context [run _ (walking keys_up (Some DirUp) ?p o1) [_; _; _]] =>
      change (run (LEVELS beginner) (walking keys_up (Some DirUp) p o1)
                [KeyUp "w"; KeyDown "d" "KeyD"; HoldDir (Some DirRight)])
        with (walking keys_right (Some DirRight) p o1);
      destruct (walking_right_ticks 18 p o1) as (o2 & E2 & H2);
        try (unfold spawnPoint, BASE_H in *; simpl in *; lra)
  end.
  exists o2. rewrite E2. unfold spawnPoint, BASE_H. f_equal. simpl. f_equal; lra.
Qed.

Lemma near_pile_at_the_pile ks d o :
  near_pile (walking ks d (mkVec2 418 274) o) = true.
Proof.
  unfold near_pile. apply Rleb_true.
  unfold world.placeRange, world.pilePos, BASE_W, BASE_H, dist. simpl.
  apply square_le_le; [lra|]. rewrite hypot_sqr. lra.
Qed.

(** ** The claims on the scenario *)

Lemma before_the_pile :
  run (LEVELS beginner) (initState (LEVELS beginner)) (throw ++ repeat tick 12)
  = flying (world.ballFriction ^ 12).
Proof.
  rewrite run_app, throw_flying, flying_ticks.
  - now rewrite Rmult_1_r.
  - pose proof friction_pow_12. lra.
  - lra.
Qed.

Lemma collapsing_thirteenth : collapsing (flying (world.ballFriction ^ 12)) tick = true.
Proof.
  pose proof friction_pow_12 as H12.
  unfold collapsing. rewrite tick_dt.
  change (flight_tick (flying (world.ballFriction ^ 12)) tick) with true.
  change (pileCollapsed (flying (world.ballFriction ^ 12))) with false.
  cbn [negb andb]. unfold hits_pile. rewrite ball_next_flying.
  set (t := world.ballFriction ^ 12) in *.
  unfold world.ballFriction in *. apply approach_hits; lra.
Qed.

Lemma pile_collapse_once_witness :
  let level := LEVELS beginner in
  let s := run level (initState level) (throw ++ repeat tick 12) in
  let s' := step level s tick in
  collapsing s tick = true
  /\ pileCollapsed s = false /\ pileCollapsed s' = true
  /\ score (metrics s') = 10%Z
  /\ phase s' = Rebuild
  /\ (collapse_awards level s [tick; tick; PlaceButton; tick] <= 1)%nat.
Proof.
  intros level s s'.
  assert (Hc : collapsing s tick = true).
  { unfold s, level. rewrite before_the_pile. apply collapsing_thirteenth. }
  assert (Hs : score (metrics s) = 0%Z).
  { unfold s, level. now rewrite before_the_pile. }
  destruct (pile_collapse_once level s tick [tick; tick; PlaceButton; tick])
    as (_ & _ & H & _ & Ha & _).
  - reflexivity.
  - repeat constructor.
  - destruct (H Hc) as (H1 & H2 & H3 & H4). fold s' in H2, H3, H4.
    rewrite Hs in H3. repeat split; assumption.
Defined.

Lemma place_in_range_witness :
  let level := LEVELS beginner in
  let s := run level (initState level) to_the_pile in
  let s' := step level s PlaceButton in
  phase s = Rebuild /\ near_pile s = true
  /\ stonesPlaced (metrics s') = 1%Z
  /\ phase s' = Rebuild
  /\ score (metrics s') = 10%Z.
Proof.
  intros level s s'.
  destruct at_the_pile as [o E]. fold level in E. fold s in E.
  assert (Hp : phase s = Rebuild) by now rewrite E.
  assert (Hn : near_pile s = true) by (rewrite E; apply near_pile_at_the_pile).
  assert (Hr : reachable beginner s) by apply reachable_from_run.
  destruct (place_in_range beginner s PlaceButton Hr Hp eq_refl Hn)
    as (H1 & H2 & _ & H3 & _).
  fold level in H1, H2, H3. fold s' in H1, H2, H3.
  assert (H0 : stonesPlaced (metrics s) = 0%Z) by now rewrite E.
  assert (Ht : stonesTotal (metrics s) = 5%Z) by now rewrite E.
  assert (Hsc : score (metrics s) = 10%Z) by now rewrite E.
  rewrite H0 in H1. rewrite Ht in H2.
  destruct H3 as [H3 H4]; [rewrite H1, H2; discriminate|].
  rewrite Hsc in H4. repeat split; assumption.
Defined.

Lemma far_from_pile_at_spawn ks d o :
  near_pile (walking ks d spawnPoint o) = false.
Proof.
  unfold near_pile. apply Rleb_false.
  unfold world.placeRange, world.pilePos, spawnPoint, BASE_W, BASE_H, dist. simpl.
  apply square_lt_lt; [apply hypot_nonneg|]. rewrite hypot_sqr. lra.
Qed.

Lemma place_out_of_range_or_full_is_noop_witness :
  let level := LEVELS beginner in
  let s := run level (initState level) (throw ++ repeat tick 13) in
  let s' := step level s PlaceButton in
  near_pile s = false /\ metrics s' = metrics s /\ phase s' = phase s.
Proof.
  intros level s s'.
  assert (Hn : near_pile s = false).
  { unfold s, level. rewrite flight_collapses.
    apply (far_from_pile_at_spawn ∅ None (mkVec2 880 20)). }
  destruct (place_out_of_range_or_full_is_noop level s PlaceButton eq_refl (or_introl Hn))
    as (H1 & H2 & _).
  repeat split; assumption.
Defined.

Lemma tryPlaceStone_near s : near_pile (tryPlaceStone s) = near_pile s.
Proof.
  unfold tryPlaceStone.
  repeat match goal with
         | |- context [if ?b then _ else _] => destruct b
         end; reflexivity.
Qed.

(** Stones placed next to the pile, short of the last one. *)
Lemma placing_run level n s :
  phase s = Rebuild -> near_pile s = true ->
  (stonesPlaced (metrics s) + Z.of_nat n < stonesTotal (metrics s))%Z ->
  let s' := run level s (repeat PlaceButton n) in
  phase s' = Rebuild /\ near_pile s' = true
  /\ stonesPlaced (metrics s') = (stonesPlaced (metrics s) + Z.of_nat n)%Z
  /\ stonesTotal (metrics s') = stonesTotal (metrics s)
  /\ score (metrics s') = score (metrics s).
Proof.
  revert s. induction n as [|n IH]; intros s Hp Hn Hlt.
  - simpl. repeat split; auto. lia.
  - change (repeat PlaceButton (S n)) with (PlaceButton :: repeat PlaceButton n).
    cbv zeta. rewrite run_cons.
    assert (Hpl : placing s PlaceButton = true).
    { unfold placing. rewrite Hp, Hn. simpl. apply Z.ltb_lt. lia. }
    assert (Hco : completing s PlaceButton = false).
    { unfold completing. rewrite Hpl. simpl. rewrite Z.geb_leb. apply Z.leb_gt. lia. }
    destruct (step_bookkeeping level s PlaceButton eq_refl)
      as (_ & Hsc & _ & Hsp & Hst).
    rewrite Hpl in Hsp. rewrite Hco in Hsc.
    unfold collapsing in Hsc. cbn [flight_tick andb] in Hsc.
    pose proof (place_action_phase level s PlaceButton eq_refl) as Hph.
    rewrite Hco, Hp in Hph.
    destruct (IH (step level s PlaceButton)) as (I1 & I2 & I3 & I4 & I5).
    + exact Hph.
    + simpl. now rewrite tryPlaceStone_near.
    + rewrite Hsp, Hst. lia.
    + rewrite I3, I4, I5, Hsp, Hst, Hsc. repeat split; auto; lia.
Qed.

(** Scenario: five place actions next to the pile win the round of the
    beginner level with a score of 60. *)
Lemma round_won :
  let level := LEVELS beginner in
  let s := run level (initState level) (to_the_pile ++ repeat PlaceButton 5) in
  phase s = Win /\ score (metrics s) = 60%Z /\ stonesPlaced (metrics s) = 5%Z.
Proof.
  intros level s. unfold s.
  change (repeat PlaceButton 5) with (repeat PlaceButton 4 ++ [PlaceButton]).
  rewrite !run_app. destruct at_the_pile as [o E]. fold level in E. rewrite E.
  set (s0 := walking keys_right (Some DirRight) (mkVec2 418 274) o).
  destruct (placing_run level 4 s0) as (H1 & H2 & H3 & H4 & H5);
    [reflexivity | apply near_pile_at_the_pile | simpl; lia |].
  set (s4 := run level s0 (repeat PlaceButton 4)) in *.
  change (stonesPlaced (metrics s0)) with 0%Z in H3.
  change (stonesTotal (metrics s0)) with 5%Z in H4.
  change (score (metrics s0)) with 10%Z in H5.
  cbn [run].
  assert (Hpl : placing s4 PlaceButton = true).
  { unfold placing. rewrite H1, H2, H3, H4. reflexivity. }
  assert (Hco : completing s4 PlaceButton = true).
  { unfold completing. rewrite Hpl, H3, H4. reflexivity. }
  destruct (step_bookkeeping level s4 PlaceButton eq_refl)
    as (_ & Hsc & _ & Hsp & _).
  rewrite Hpl in Hsp. rewrite Hco in Hsc.
    unfold collapsing in Hsc. cbn [flight_tick andb] in Hsc.
  split; [now apply completing_phase|]. lia.
Qed.

(** * Further properties of the component *)

(** ** Vector helpers *)

Lemma hypot_eq_0 a b : hypot a b = 0 -> a = 0 /\ b = 0.
Proof.
  intros H. pose proof (hypot_sqr a b) as S. rewrite H in S.
  split; nra.
Qed.

Lemma len_zero_iff v : len v = 0 <-> v = mkVec2 0 0.
Proof.
  split.
  - intros H. destruct (hypot_eq_0 _ _ H) as [Hx Hy].
    destruct v as [vx vy]. simpl in *. now subst.
  - intros ->. apply hypot_0.
Qed.

(** In exact arithmetic [norm] maps the zero vector, and only it, to
    the zero vector, and every other vector to a vector of length 1 with
    [v = norm v * len v]; normalising twice changes nothing. *)
Lemma norm_unit_or_zero v :
  (norm v = mkVec2 0 0 <-> v = mkVec2 0 0)
  /\ (v <> mkVec2 0 0 -> len (norm v) = 1)
  /\ mul (norm v) (len v) = v
  /\ norm (norm v) = norm v.
Proof.
  destruct (Req_dec_T (len v) 0) as [Hz | Hnz].
  - assert (Hv : v = mkVec2 0 0) by now apply len_zero_iff.
    subst v. rewrite norm_zero by reflexivity.
    repeat split; auto.
    + intros H. now contradiction H.
    + unfold mul. simpl. f_equal; ring.
    + now apply norm_zero.
  - assert (Hv : v <> mkVec2 0 0) by (intros H; now apply Hnz, len_zero_iff).
    assert (H1 : len (norm v) = 1) by now apply len_norm.
    repeat split; auto.
    + intros H. rewrite H in H1. unfold len in H1. simpl in H1.
      rewrite hypot_0 in H1. lra.
    + intros H. contradiction.
    + unfold norm. rewrite Reqb0_false by exact Hnz. unfold mul. simpl.
      destruct v as [vx vy]. simpl. f_equal; field; exact Hnz.
    + unfold norm at 1. rewrite H1. rewrite Reqb0_false by lra.
      destruct (norm v) as [nx ny]. simpl. f_equal; field.
Qed.

Lemma dot_le_hypot a1 a2 b1 b2 :
  a1 * b1 + a2 * b2 <= hypot a1 a2 * hypot b1 b2.
Proof.
  pose proof (hypot_nonneg a1 a2). pose proof (hypot_nonneg b1 b2).
  apply square_le_le; [nra|].
  replace (hypot a1 a2 * hypot b1 b2 * (hypot a1 a2 * hypot b1 b2))
    with ((hypot a1 a2 * hypot a1 a2) * (hypot b1 b2 * hypot b1 b2)) by ring.
  rewrite !hypot_sqr.
  pose proof (Rle_0_sqr (a1 * b2 - a2 * b1)) as Hs. unfold Rsqr in Hs. nra.
Qed.

Lemma hypot_triangle a1 a2 b1 b2 :
  hypot (a1 + b1) (a2 + b2) <= hypot a1 a2 + hypot b1 b2.
Proof.
  pose proof (hypot_nonneg a1 a2). pose proof (hypot_nonneg b1 b2).
  apply square_le_le; [lra|]. rewrite hypot_sqr.
  pose proof (hypot_sqr a1 a2). pose proof (hypot_sqr b1 b2).
  pose proof (dot_le_hypot a1 a2 b1 b2). nra.
Qed.

(** In exact arithmetic [dist] is a distance: it is the length of the
    difference, never negative, zero exactly between equal points,
    symmetric, and it satisfies the triangle inequality. *)
Lemma dist_is_a_metric a b c :
  dist a b = len (sub a b)
  /\ 0 <= dist a b
  /\ (dist a b = 0 <-> a = b)
  /\ dist a b = dist b a
  /\ dist a c <= dist a b + dist b c.
Proof.
  split; [reflexivity|]. split; [apply hypot_nonneg|]. split; [|split].
  - split.
    + intros H. destruct (hypot_eq_0 _ _ H) as [Hx Hy].
      destruct a as [ax ay], b as [bx by_]. simpl in *. f_equal; lra.
    + intros ->. unfold dist. rewrite !Rminus_diag. apply hypot_0.
  - unfold dist, hypot. f_equal. ring.
  - unfold dist.
    replace (x a - x c) with ((x a - x b) + (x b - x c)) by ring.
    replace (y a - y c) with ((y a - y b) + (y b - y c)) by ring.
    apply hypot_triangle.
Qed.

(** X1: [clamp v a b] lies in [[a, b]] when [a <= b], is [v] itself when
    [v] already does, and clamping again changes nothing; with the
    bounds in the wrong order the lower bound [a] wins. *)
Theorem clamp_properties v a b :
  (a <= b -> a <= clamp v a b <= b)
  /\ (a <= v <= b -> clamp v a b = v)
  /\ clamp (clamp v a b) a b = clamp v a b
  /\ (b < a -> clamp v a b = a).
Proof.
  assert (Hwrong : forall u, b < a -> clamp u a b = a).
  { intros u H. unfold clamp. apply Rmax_left.
    pose proof (Rmin_l b u). lra. }
  split; [apply clamp_bounds|]. split; [apply clamp_in|]. split; [|apply Hwrong].
  destruct (Rle_dec a b) as [Hab | Hab].
  - apply clamp_in. now apply clamp_bounds.
  - rewrite !Hwrong by lra. reflexivity.
Qed.

(** ** More on the segment against the circle *)

(** X2: a segment reduced to one point is never reported, wherever the
    point lies (on the circle, inside it or at its centre): both
    quotients are divisions by zero.  The binary64 evaluation agrees at
    the point (478, 270), which lies on the circle of the pile. *)
Theorem one_point_segment_never_reported p c r :
  segmentCircleIntersect p p c r = false
  /\ F64.segmentCircleIntersect (F64.mkVec2 478 270) (F64.mkVec2 478 270)
       (F64.mkVec2 450 270) 28 = false.
Proof.
  split; [now apply segmentCircleIntersect_point | vm_compute; reflexivity].
Qed.


Lemma segment_length_pos p0 p1 :
  p0 <> p1 ->
  0 < (x p1 - x p0) * (x p1 - x p0) + (y p1 - y p0) * (y p1 - y p0).
Proof.
  intros H.
  destruct (Req_dec_T (x p1) (x p0)) as [Hx | Hx];
    destruct (Req_dec_T (y p1) (y p0)) as [Hy | Hy]; try nra.
  exfalso. apply H. destruct p0, p1. simpl in *. now subst.
Qed.



Lemma dist_le_iff p c r :
  0 <= r ->
  (dist p c <= r
   <-> (x p - x c) * (x p - x c) + (y p - y c) * (y p - y c) - r * r <= 0)
  /\ (r <= dist p c
      <-> 0 <= (x p - x c) * (x p - x c) + (y p - y c) * (y p - y c) - r * r).
Proof.
  intros Hr. unfold dist.
  pose proof (hypot_nonneg (x p - x c) (y p - y c)) as Hh.
  pose proof (hypot_sqr (x p - x c) (y p - y c)) as Hs.
  repeat split; intros H; try nra; apply square_le_le; lra.
Qed.

(** In exact arithmetic a segment with distinct endpoints, one on or
    outside the circle and the other on or inside it, is reported, in
    whichever order the endpoints are given. *)
Lemma segmentCircleIntersect_across p0 p1 c r :
  0 <= r ->
  p0 <> p1 ->
  dist p0 c <= r <= dist p1 c \/ dist p1 c <= r <= dist p0 c ->
  segmentCircleIntersect p0 p1 c r = true.
Proof.
  assert (G : forall q0 q1, q0 <> q1 -> 0 <= r ->
                dist q1 c <= r <= dist q0 c ->
                segmentCircleIntersect q0 q1 c r = true).
  { intros q0 q1 Hne Hr [H1 H0].
    rewrite segmentCircleIntersect_root_test.
    pose proof (segment_length_pos q0 q1 Hne) as Ha.
    apply (dist_le_iff q1 c r Hr) in H1. apply (dist_le_iff q0 c r Hr) in H0.
    apply root_test_entering; [exact Ha | exact H0 | nra]. }
  intros Hr Hne [H | H].
  - rewrite segmentCircleIntersect_sym. apply G; auto.
  - apply G; auto.
Qed.

Lemma in_range_distinct p0 p1 c r : in_range p0 p1 c r -> p0 <> p1.
Proof.
  intros (_ & _ & _ & _ & _ & _ & _ & Hl) ->.
  unfold seg_length, sq_dist in Hl. rewrite !Rminus_diag in Hl.
  replace (0 * 0 + 0 * 0) with 0 in Hl by ring. rewrite sqrt_0 in Hl. lra.
Qed.




(** X4: no tunnelling in double precision.  Under the same conditions a
    segment with one endpoint outside the circle and the other inside
    it is reported, in whichever order the endpoints are given and
    whatever the rounding of the single operations. *)
Theorem rounded_no_tunnelling rnd p0 p1 c r :
  rounding rnd -> in_range p0 p1 c r -> clear_of_rounding p0 p1 c r ->
  sq_dist p0 c <= r * r <= sq_dist p1 c \/ sq_dist p1 c <= r * r <= sq_dist p0 c ->
  segmentCircleIntersect_rnd rnd p0 p1 c r = true.
Proof.
  intros Hrnd Hrange Hclear H.
  rewrite (segmentCircleIntersect_rnd_exact rnd p0 p1 c r Hrnd Hrange Hclear).
  assert (Hr : 0 < r) by (unfold in_range in Hrange; tauto).
  apply segmentCircleIntersect_across;
    [lra | exact (in_range_distinct _ _ _ _ Hrange) |].
  assert (E : forall p, (dist p c <= r <-> sq_dist p c <= r * r)
                        /\ (r <= dist p c <-> r * r <= sq_dist p c)).
  { intros p. destruct (dist_le_iff p c r (Rlt_le _ _ Hr)) as [E1 E2].
    unfold sq_dist. rewrite E1, E2. split; lra. }
  destruct H as [[H1 H2] | [H1 H2]]; [left | right]; split;
    now apply (E _).
Qed.

Lemma rounded_no_tunnelling_witness :
  segmentCircleIntersect_rnd round_away crossing_p0 world.pilePos
    world.pilePos world.pileRadius = true.
Proof.
  apply (rounded_no_tunnelling round_away crossing_p0 world.pilePos
           world.pilePos world.pileRadius rounding_round_away
           crossing_in_range crossing_clear).
  right. unfold sq_dist, crossing_p0, world.pilePos, world.pileRadius, BASE_W, BASE_H.
  simpl. lra.
Defined.

(** ** The opponent's spawn point *)

Lemma randomEdgeSpawn_border_aux w h u1 u2 :
  40 <= w -> 40 <= h -> 0 <= u2 <= 1 ->
  on_spawn_border w h (randomEdgeSpawn w h u1 u2).
Proof.
  intros Hw Hh Hu. unfold randomEdgeSpawn, on_spawn_border.
  repeat match goal with
         | |- context [if ?b then _ else _] => destruct b
         end; simpl; repeat split; try nra; auto.
Qed.

(** X5: whatever the first random number, [randomEdgeSpawn] returns a
    point of the border of the rectangle 20 units inside the field,
    provided the second random number is in [[0, 1]] and the field is at
    least 40 units wide and high. *)
Theorem randomEdgeSpawn_on_border w h u1 u2 :
  40 <= w -> 40 <= h -> 0 <= u2 <= 1 ->
  on_spawn_border w h (randomEdgeSpawn w h u1 u2).
Proof. apply randomEdgeSpawn_border_aux. Qed.

Lemma randomEdgeSpawn_on_border_witness :
  on_spawn_border BASE_W BASE_H (randomEdgeSpawn BASE_W BASE_H (7 / 10) (1 / 2)).
Proof.
  apply randomEdgeSpawn_on_border; unfold BASE_W, BASE_H; lra.
Defined.

(** ** The phase machine *)

Lemma update_flight_fields dt u1 u2 s :
  ballVel (update_flight dt u1 u2 s) = vel_next s
  /\ pos (ball (update_flight dt u1 u2 s)) = ball_next dt s
  /\ player (update_flight dt u1 u2 s) = player s
  /\ keys (update_flight dt u1 u2 s) = keys s
  /\ dragging (update_flight dt u1 u2 s) = dragging s
  /\ paused (update_flight dt u1 u2 s) = paused s.
Proof.
  unfold update_flight.
  repeat match goal with
         | |- context [if ?b then _ else _] => destruct b
         end; repeat split.
Qed.

Lemma tryPlaceStone_fields s :
  player (tryPlaceStone s) = player s
  /\ opponent (tryPlaceStone s) = opponent s
  /\ ball (tryPlaceStone s) = ball s
  /\ ballVel (tryPlaceStone s) = ballVel s
  /\ ballActive (tryPlaceStone s) = ballActive s
  /\ keys (tryPlaceStone s) = keys s
  /\ paused (tryPlaceStone s) = paused s
  /\ dragging (tryPlaceStone s) = dragging s.
Proof.
  unfold tryPlaceStone.
  repeat match goal with
         | |- context [if ?b then _ else _] => destruct b
         end; repeat split.
Qed.

Lemma Phase_eqb_eq p q : Phase_eqb p q = true <-> p = q.
Proof. destruct p, q; simpl; split; intros H; try discriminate; reflexivity. Qed.

Lemma phase_edge_refl p : phase_edge p p = true.
Proof. now destruct p. Qed.

Lemma update_phase_edge level dt u1 u2 s :
  phase_edge (phase s) (phase (update level dt u1 u2 s)) = true.
Proof.
  unfold update. destruct (Phase_eqb (phase s) Flight) eqn:Hf.
  - apply Phase_eqb_eq in Hf. rewrite Hf. cbn [Phase_eqb andb].
    destruct (ballActive s); [|rewrite Hf; reflexivity].
    pose proof (update_flight_spec dt u1 u2 s) as S. simpl in S.
    destruct S as (_ & _ & _ & _ & _ & ->). rewrite Hf.
    repeat match goal with
           | |- context [if ?b then _ else _] => destruct b
           end; reflexivity.
  - cbn [andb]. destruct (Phase_eqb (phase s) Rebuild) eqn:Hr.
    + apply Phase_eqb_eq in Hr.
      destruct (update_rebuild_metrics level dt s) as (_ & _ & [-> | ->]);
        rewrite Hr; reflexivity.
    + apply phase_edge_refl.
Qed.

Lemma completing_rebuild s e : completing s e = true -> phase s = Rebuild.
Proof.
  unfold completing, placing. intros H.
  destruct (Phase_eqb (phase s) Rebuild) eqn:Hp; [now apply Phase_eqb_eq|].
  now rewrite !andb_false_r in H.
Qed.

(** The phase after a key press, the Place button or a pointer press
    out of the aim phase. *)
Lemma place_or_same level s e :
  match e with
  | KeyDown _ _ | PlaceButton => True
  | PointerDown _ => phase s <> Aim
  | _ => False
  end ->
  phase (step level s e) = if completing s e then Win else phase s.
Proof.
  intros He. destruct (place_action s e) eqn:Ha.
  - now apply place_action_phase.
  - unfold completing, placing. rewrite Ha. cbn [andb].
    destruct e; try contradiction; try discriminate; cbn [step].
    + simpl in Ha. unfold onDown. rewrite Ha. now destruct (String.eqb _ "p").
    + simpl in Ha. unfold pointer_down. rewrite Ha.
      destruct (Phase_eqb (phase s) Aim) eqn:E; [|reflexivity].
      apply Phase_eqb_eq in E. contradiction.
Qed.

Lemma place_or_same_edge level s e :
  match e with
  | KeyDown _ _ | PlaceButton => True
  | PointerDown _ => phase s <> Aim
  | _ => False
  end ->
  phase_edge (phase s) (phase (step level s e)) = true.
Proof.
  intros He. rewrite (place_or_same level s e He).
  destruct (completing s e) eqn:E; [|apply phase_edge_refl].
  now rewrite (completing_rebuild s e E).
Qed.

Lemma step_phase_edge level s e :
  Inv level s -> is_reset e = false ->
  phase_edge (phase s) (phase (step level s e)) = true.
Proof.
  intros I He. destruct e; try discriminate.
  - cbn [step]. unfold loop. destruct (negb (paused s));
      [apply update_phase_edge | apply phase_edge_refl].
  - now apply place_or_same_edge.
  - apply phase_edge_refl.
  - destruct (Phase_eqb (phase s) Aim) eqn:Ha.
    + cbn [step]. unfold pointer_down. rewrite Ha. cbn [negb].
      apply Phase_eqb_eq in Ha. now rewrite Ha.
    + apply place_or_same_edge. intros H. rewrite H in Ha. discriminate.
  - cbn [step]. unfold pointer_move.
    destruct (negb (dragging s)); apply phase_edge_refl.
  - cbn [step]. unfold pointer_up. destruct (dragging s) eqn:Hd; cbn [negb];
      [|apply phase_edge_refl].
    destruct (inv_drag_phase _ _ I Hd) as [-> | ->]; reflexivity.
  - apply phase_edge_refl.
  - now apply place_or_same_edge.
Qed.

Lemma update_rebuild_fields level dt s :
  ball (update_rebuild level dt s) = ball s
  /\ ballVel (update_rebuild level dt s) = ballVel s
  /\ ballActive (update_rebuild level dt s) = ballActive s
  /\ keys (update_rebuild level dt s) = keys s
  /\ dragging (update_rebuild level dt s) = dragging s
  /\ paused (update_rebuild level dt s) = paused s.
Proof.
  rewrite update_rebuild_eq. cbv zeta.
  destruct (Rleb _ _); repeat split.
Qed.

Lemma update_idle level dt u1 u2 s :
  phase s <> Rebuild -> phase s <> Flight -> update level dt u1 u2 s = s.
Proof.
  intros Hr Hf. unfold update.
  destruct (phase s); simpl; try reflexivity; congruence.
Qed.

Lemma tryPlaceStone_idle s : phase s <> Rebuild -> tryPlaceStone s = s.
Proof.
  intros H. unfold tryPlaceStone.
  destruct (Phase_eqb (phase s) Rebuild) eqn:E; [|reflexivity].
  apply Phase_eqb_eq in E. contradiction.
Qed.

Lemma len_vel_next s : len (vel_next s) = len (ballVel s) * world.ballFriction.
Proof.
  unfold vel_next, len. simpl. apply hypot_scale.
  unfold world.ballFriction. lra.
Qed.

(** The velocity of the ball after an event: kept, damped by a flight
    tick, or set by the throw. *)
Lemma step_ballVel level s e :
  is_reset e = false ->
  ballVel (step level s e) = ballVel s
  \/ (flight_tick s e = true /\ ballVel (step level s e) = vel_next s)
  \/ (e = PointerUp /\ dragging s = true
      /\ ballVel (step level s e) =
         mul (norm (sub (dragCurrent s) (dragStart s)))
             (clamp (len (sub (dragCurrent s) (dragStart s)) * world.throwPowerScale)
                    0 world.maxThrowPower)).
Proof.
  intros He. destruct e; try discriminate; cbn [step].
  - unfold loop. destruct (paused s) eqn:Hpa; cbn [negb]; [now left|].
    unfold update. destruct (Phase_eqb (phase s) Flight) eqn:Hf.
    + assert (Phase_eqb (phase s) Rebuild = false) as ->
        by (destruct (phase s); auto; discriminate).
      cbn [andb]. destruct (ballActive s) eqn:Hb; [|now left].
      right. left. split.
      * simpl. now rewrite Hpa, Hf, Hb.
      * apply update_flight_fields.
    + cbn [andb]. left. destruct (Phase_eqb (phase s) Rebuild); [|reflexivity].
      apply update_rebuild_fields.
  - left. unfold onDown.
    destruct (String.eqb _ "p"), (String.eqb code "Space" && _);
      unfold setPaused; cbn [ballVel];
      try (destruct (tryPlaceStone_fields (set_keys (<[toLowerCase key:=true]> (keys s)) s))
             as (_ & _ & _ & -> & _)); reflexivity.
  - now left.
  - left. unfold pointer_down.
    destruct (negb (Phase_eqb (phase s) Aim)); [|reflexivity].
    destruct (Phase_eqb (phase s) Rebuild); [|reflexivity].
    apply tryPlaceStone_fields.
  - left. unfold pointer_move. now destruct (negb (dragging s)).
  - unfold pointer_up. destruct (dragging s) eqn:Hd; cbn [negb]; [|now left].
    right. right. repeat split.
  - now left.
  - left. apply tryPlaceStone_fields.
Qed.

(** Only a rebuild tick moves the player. *)
Lemma step_player_fixed level s e :
  is_reset e = false -> phase s <> Rebuild ->
  player (step level s e) = player s.
Proof.
  intros He Hp. destruct e; try discriminate; cbn [step].
  - unfold loop. destruct (negb (paused s)); [|reflexivity].
    unfold update. destruct (Phase_eqb (phase s) Rebuild) eqn:Hr;
      [apply Phase_eqb_eq in Hr; contradiction|].
    destruct (Phase_eqb (phase s) Flight && ballActive s); [|reflexivity].
    apply update_flight_fields.
  - unfold onDown.
    destruct (String.eqb _ "p"), (String.eqb code "Space" && _);
      unfold setPaused; cbn [player];
      try (destruct (tryPlaceStone_fields (set_keys (<[toLowerCase key:=true]> (keys s)) s))
             as (-> & _)); reflexivity.
  - reflexivity.
  - unfold pointer_down.
    destruct (negb (Phase_eqb (phase s) Aim)); [|reflexivity].
    destruct (Phase_eqb (phase s) Rebuild); [|reflexivity].
    apply tryPlaceStone_fields.
  - unfold pointer_move. now destruct (negb (dragging s)).
  - unfold pointer_up. now destruct (negb (dragging s)).
  - reflexivity.
  - apply tryPlaceStone_fields.
Qed.

Lemma Inv2_init level : Inv2 (initState level).
Proof.
  repeat split; try discriminate.
  unfold len. simpl. rewrite hypot_0. unfold world.maxThrowPower. lra.
Qed.

Lemma Inv2_resetRound level keepScore u1 u2 s :
  Inv2 (resetRound level keepScore u1 u2 s).
Proof.
  repeat split; try discriminate.
  - now destruct keepScore.
  - unfold len. simpl. rewrite hypot_0. unfold world.maxThrowPower. lra.
Qed.

Lemma Inv2_step level s e : Inv level s -> Inv2 s -> Inv2 (step level s e).
Proof.
  intros I (Hw & Hs & Hp & Hv).
  destruct (is_reset e) eqn:He.
  { destruct e; try discriminate; cbn [step]; [|unfold startGame];
      apply Inv2_resetRound. }
  pose proof (step_phase_edge level s e I He) as Hedge.
  destruct (step_bookkeeping level s e He) as (Hpc & _ & _ & Hsp & _).
  repeat split.
  - intros H. rewrite Hpc.
    destruct (enters_win level s e H) as [H1 | H1].
    + now rewrite (Hw H1).
    + apply completing_rebuild in H1.
      destruct (inv_rebuild _ _ I H1) as [-> _]. reflexivity.
  - intros H. rewrite Hpc in H. apply orb_false_iff in H as [H _].
    rewrite Hsp, (Hs H).
    destruct (placing s e) eqn:E; [|reflexivity].
    unfold placing in E.
    destruct (Phase_eqb (phase s) Rebuild) eqn:Hr;
      [|now rewrite !andb_false_r in E].
    apply Phase_eqb_eq in Hr. destruct (inv_rebuild _ _ I Hr). congruence.
  - intros H.
    assert (H0 : phase s = Intro \/ throwing (phase s) = true).
    { destruct (phase s), (phase (step level s e)); simpl in *;
        destruct H as [H | H]; try discriminate; auto. }
    rewrite step_player_fixed; auto.
    intros Hr. rewrite Hr in H0. destruct H0; discriminate.
  - destruct (step_ballVel level s e He) as [-> | [[_ ->] | (_ & _ & ->)]].
    + exact Hv.
    + rewrite len_vel_next. pose proof (len_nonneg (ballVel s)).
      unfold world.ballFriction. nra.
    + destruct (throw_velocity (sub (dragCurrent s) (dragStart s))) as (-> & _).
      apply clamp_bounds. unfold world.maxThrowPower. lra.
Qed.

Lemma Inv_Inv2_reachable_from level s0 s :
  level_ok level -> Inv level s0 -> Inv2 s0 ->
  reachable_from level s0 s -> Inv level s /\ Inv2 s.
Proof.
  intros Hl I0 J0 Hr. induction Hr as [|s e _ [I J]]; [auto|].
  split; [now apply Inv_step | now apply Inv2_step].
Qed.

Lemma Inv2_reachable k s : reachable k s -> Inv2 s.
Proof.
  intros Hr.
  apply (Inv_Inv2_reachable_from (LEVELS k) _ s (LEVELS_ok k)
           (Inv_init _ (LEVELS_ok k)) (Inv2_init _) Hr).
Qed.

(** X6: the phase only moves along the arrows of [phase_edge]: apart
    from a round start, which always enters Aim, an event keeps the
    phase or takes Aim to Dragging, Aim or Dragging to Flight, Flight to
    Aim, Lose or Rebuild, and Rebuild to Win or Lose; Intro, Win and
    Lose are left by a round start only. *)
Theorem phase_moves_along_edges k s e :
  reachable k s ->
  (is_reset e = false -> phase_edge (phase s) (phase (step (LEVELS k) s e)) = true)
  /\ (is_reset e = true -> phase (step (LEVELS k) s e) = Aim).
Proof.
  intros Hr. split.
  - apply step_phase_edge. now apply Inv_reachable.
  - destruct e; try discriminate; reflexivity.
Qed.

Lemma phase_moves_along_edges_witness :
  let level := LEVELS beginner in
  let s := run level (initState level) zero_drag in
  phase_edge (phase s) (phase (step level s (Frame 16 0 0))) = true.
Proof.
  intros level s.
  assert (Hr : reachable beginner s) by apply reachable_from_run.
  exact (proj1 (phase_moves_along_edges beginner s (Frame 16 0 0) Hr) eq_refl).
Defined.

(** X7: a finished round stays finished: in Win or Lose no event but a
    round start changes the phase, the metrics, an entity, the ball's
    velocity or a flag of the simulation. *)
Theorem finished_round_is_frozen k s e :
  reachable k s ->
  terminal (phase s) = true ->
  is_reset e = false ->
  let s' := step (LEVELS k) s e in
  phase s' = phase s /\ metrics s' = metrics s
  /\ player s' = player s /\ opponent s' = opponent s /\ ball s' = ball s
  /\ ballVel s' = ballVel s /\ ballActive s' = ballActive s
  /\ pileCollapsed s' = pileCollapsed s /\ dragging s' = dragging s.
Proof.
  intros Hr Ht He s'. subst s'.
  pose proof (Inv_reachable k s Hr) as I.
  assert (Hd : dragging s = false).
  { destruct (dragging s) eqn:E; [|reflexivity].
    destruct (inv_drag_phase _ _ I E) as [H | H]; rewrite H in Ht; discriminate. }
  assert (Hnr : phase s <> Rebuild) by (intros H; rewrite H in Ht; discriminate).
  assert (Hnf : phase s <> Flight) by (intros H; rewrite H in Ht; discriminate).
  assert (Hna : Phase_eqb (phase s) Aim = false)
    by (destruct (phase s); try discriminate; reflexivity).
  assert (Hnb : Phase_eqb (phase s) Rebuild = false)
    by (destruct (phase s); try discriminate; reflexivity).
  destruct e; try discriminate; cbn [step].
  - unfold loop. destruct (negb (paused s)); [|repeat split].
    rewrite update_idle by assumption. repeat split.
  - unfold onDown. rewrite Hnb, andb_false_r.
    destruct (String.eqb _ "p"); repeat split.
  - repeat split.
  - unfold pointer_down. rewrite Hna, Hnb. repeat split.
  - unfold pointer_move. rewrite Hd. cbn [negb]. repeat split; auto.
  - unfold pointer_up. rewrite Hd. cbn [negb]. repeat split; auto.
  - repeat split.
  - rewrite tryPlaceStone_idle by assumption. repeat split.
Qed.

Lemma finished_round_is_frozen_witness :
  let level := LEVELS beginner in
  let s := run level (initState level) (to_the_pile ++ repeat PlaceButton 5) in
  let s' := step level s PlaceButton in
  phase s = Win /\ phase s' = Win /\ metrics s' = metrics s.
Proof.
  intros level s s'.
  destruct round_won as (Hw & _). fold level in Hw. fold s in Hw.
  assert (Hr : reachable beginner s) by apply reachable_from_run.
  assert (Ht : terminal (phase s) = true) by now rewrite Hw.
  destruct (finished_round_is_frozen beginner s PlaceButton Hr Ht eq_refl)
    as (H1 & H2 & _).
  fold level in H1, H2. fold s' in H1, H2.
  rewrite Hw in H1. auto.
Defined.

(** ** The opponent *)

Lemma update_in_rebuild level dt u1 u2 s :
  phase s = Rebuild -> update level dt u1 u2 s = update_rebuild level dt s.
Proof. intros H. unfold update. now rewrite H. Qed.

(** In exact arithmetic the opponent is in pure pursuit: on a rebuild tick the opponent steps straight at
    the player's new position, so that (unless it stands exactly there)
    its distance [d] to that position becomes [|d - opponentSpeed * dt|];
    the round is lost on that tick exactly when this is within the
    tag-range, and goes on in Rebuild otherwise. *)
Lemma opponent_closes_in level dt u1 u2 s :
  phase s = Rebuild ->
  player_next level dt s <> pos (opponent s) ->
  let s' := update level dt u1 u2 s in
  let d := dist (player_next level dt s) (pos (opponent s)) in
  pos (player s') = player_next level dt s
  /\ dist (pos (player s')) (pos (opponent s')) = Rabs (d - opponentSpeed level * dt)
  /\ phase s' = if Rleb (Rabs (d - opponentSpeed level * dt)) world.tagRange
                then Lose else Rebuild.
Proof.
  intros Hp Hne s' d. subst s'. rewrite update_in_rebuild by exact Hp.
  rewrite update_rebuild_eq. cbv zeta.
  set (p := player_next level dt s) in *. set (o := pos (opponent s)) in *.
  assert (Hd : d <> 0).
  { intros H. apply Hne. destruct (hypot_eq_0 _ _ H) as [Hx Hy].
    destruct p as [px py], o as [ox oy]. simpl in *. f_equal; lra. }
  assert (Hdpos : 0 < d) by (pose proof (hypot_nonneg (x p - x o) (y p - y o));
                             unfold d, dist in *; lra).
  assert (Hdd : d * d = (x p - x o) * (x p - x o) + (y p - y o) * (y p - y o))
    by apply hypot_sqr.
  assert (E : dist p (opponent_next level dt p o) = Rabs (d - opponentSpeed level * dt)).
  { unfold dist. apply hypot_eq; [apply Rabs_pos|].
    replace (Rabs (d - opponentSpeed level * dt) * Rabs (d - opponentSpeed level * dt))
      with ((d - opponentSpeed level * dt) * (d - opponentSpeed level * dt))
      by (unfold Rabs; destruct (Rcase_abs _); ring).
    unfold opponent_next, norm, sub, len. simpl. fold (dist p o). fold d.
    rewrite Reqb0_false by exact Hd. simpl.
    transitivity ((d - opponentSpeed level * dt) * (d - opponentSpeed level * dt)
                  * ((x p - x o) * (x p - x o) + (y p - y o) * (y p - y o)) / (d * d));
      [rewrite <- Hdd; field; exact Hd | field; exact Hd]. }
  destruct (Rleb (dist p (opponent_next level dt p o)) world.tagRange) eqn:T;
    rewrite E in T; rewrite T; cbn [pos player opponent phase setPhase
      set_opponent_pos set_player_pos]; rewrite ?Hp; repeat split; auto.
Qed.

Lemma abs_le_hypot a b : Rabs a <= hypot a b /\ Rabs b <= hypot a b.
Proof.
  pose proof (hypot_sqr a b) as Hs.
  assert (Ha : Rabs a * Rabs a = a * a) by (unfold Rabs; destruct (Rcase_abs a); ring).
  assert (Hb : Rabs b * Rabs b = b * b) by (unfold Rabs; destruct (Rcase_abs b); ring).
  split; apply square_le_le; try apply hypot_nonneg; nra.
Qed.

Lemma walking_up_from_collapse :
  run (LEVELS beginner) (initState (LEVELS beginner))
      (throw ++ repeat tick 13 ++ [KeyDown "w" "KeyW"; HoldDir (Some DirUp)])
  = walking keys_up (Some DirUp) spawnPoint (mkVec2 880 20).
Proof. rewrite app_assoc, run_app, flight_collapses. reflexivity. Qed.

Lemma opponent_closes_in_witness :
  let level := LEVELS beginner in
  let s := run level (initState level)
             (throw ++ repeat tick 13 ++ [KeyDown "w" "KeyW"; HoldDir (Some DirUp)]) in
  let s' := update level (50 / 1000) 0 0 s in
  pos (player s') = mkVec2 130 434 /\ phase s' = Rebuild.
Proof.
  intros level s s'.
  assert (E : s = walking keys_up (Some DirUp) spawnPoint (mkVec2 880 20))
    by apply walking_up_from_collapse.
  assert (Hp : phase s = Rebuild) by now rewrite E.
  assert (Hn : player_next level (50 / 1000) s = mkVec2 130 434).
  { rewrite E. unfold level. rewrite player_next_up;
      unfold spawnPoint, BASE_H; simpl; try lra. f_equal; lra. }
  assert (Ho : pos (opponent s) = mkVec2 880 20) by now rewrite E.
  assert (Hne : player_next level (50 / 1000) s <> pos (opponent s)).
  { rewrite Hn, Ho. intros H. apply (f_equal x) in H. simpl in H. lra. }
  destruct (opponent_closes_in level (50 / 1000) 0 0 s Hp Hne) as (H1 & _ & H3).
  fold s' in H1, H3. rewrite Hn in H1. split; [exact H1|].
  rewrite H3, Hn, Ho. rewrite Rleb_false; [reflexivity|].
  unfold world.tagRange, dist. simpl.
  pose proof (proj1 (abs_le_hypot (130 - 880) (434 - 20))) as Hh.
  rewrite Rabs_left in Hh by lra.
  eapply Rlt_le_trans; [|apply Rle_abs]. lra.
Defined.

Lemma update_flight_respawn dt u1 u2 s :
  pileCollapsed s = false -> hits_pile dt s = true ->
  pos (opponent (update_flight dt u1 u2 s)) = randomEdgeSpawn BASE_W BASE_H u1 u2.
Proof.
  intros Hc Hh. unfold update_flight. unfold hits_pile in Hh.
  cbn [pileCollapsed set_ballVel set_ball_pos pos ball ballVel x y].
  fold (ball_next dt s). rewrite Hc, Hh. cbn [negb andb].
  repeat match goal with
         | |- context [if ?b then _ else _] => destruct b
         end; reflexivity.
Qed.

Lemma border_far_from_spawn o :
  on_spawn_border BASE_W BASE_H o -> 70 <= dist spawnPoint o.
Proof.
  unfold on_spawn_border, BASE_W, BASE_H, spawnPoint, dist, BASE_H. simpl.
  intros (Hx & Hy & Hb).
  destruct (abs_le_hypot (130 - x o) (540 - 90 - y o)) as [Ha1 Ha2].
  pose proof (Rle_abs (130 - x o)). pose proof (Rle_abs (y o - (540 - 90))).
  pose proof (Rle_abs (x o - 130)). pose proof (Rle_abs (540 - 90 - y o)).
  rewrite <- (Rabs_Ropp (x o - 130)) in *.
  rewrite <- (Rabs_Ropp (y o - (540 - 90))) in *.
  replace (- (x o - 130)) with (130 - x o) in * by ring.
  replace (- (y o - (540 - 90))) with (540 - 90 - y o) in * by ring.
  destruct Hb as [Hb | [Hb | [Hb | Hb]]]; lra.
Qed.

(** X8: the tick that collapses the pile puts the opponent on the
    border of the rectangle 20 units inside the field while the player
    still stands on its spawn point, at least 70 units away: the round
    is never lost by the respawn itself. *)
Theorem opponent_respawns_away k s elapsed u1 u2 :
  reachable k s ->
  collapsing s (Frame elapsed u1 u2) = true ->
  0 <= u2 <= 1 ->
  let s' := step (LEVELS k) s (Frame elapsed u1 u2) in
  pos (player s') = spawnPoint
  /\ on_spawn_border BASE_W BASE_H (pos (opponent s'))
  /\ 70 <= dist (pos (player s')) (pos (opponent s'))
  /\ phase s' = Rebuild.
Proof.
  intros Hr Hc Hu s'. subst s'.
  pose proof (collapsing_phase (LEVELS k) s _ Hc) as Hph.
  unfold collapsing in Hc.
  apply andb_true_iff in Hc as [Hc Hh]. apply andb_true_iff in Hc as [Ht Hpc].
  apply negb_true_iff in Hpc.
  destruct (flight_tick_update (LEVELS k) s _ Ht) as (v1 & v2 & E & Hp).
  destruct (Inv2_reachable k s Hr) as (_ & _ & Hsp & _).
  assert (Hpl : pos (player (step (LEVELS k) s (Frame elapsed u1 u2))) = spawnPoint).
  { rewrite step_player_fixed; [|reflexivity|congruence].
    apply Hsp. right. now rewrite Hp. }
  assert (Hop : pos (opponent (step (LEVELS k) s (Frame elapsed u1 u2)))
                = randomEdgeSpawn BASE_W BASE_H u1 u2).
  { assert (Ha : ballActive s = true /\ paused s = false).
    { simpl in Ht. destruct (paused s), (ballActive s);
        rewrite ?andb_false_r in Ht; try discriminate; auto. }
    destruct Ha as [Ha Hpa].
    cbn [step]. unfold loop. rewrite Hpa. cbn [negb]. unfold update.
    rewrite Hp. cbn [Phase_eqb andb]. rewrite Ha.
    now apply update_flight_respawn. }
  assert (Hb : on_spawn_border BASE_W BASE_H
                 (pos (opponent (step (LEVELS k) s (Frame elapsed u1 u2))))).
  { rewrite Hop. apply randomEdgeSpawn_border_aux; unfold BASE_W, BASE_H; lra. }
  repeat split; try assumption; try apply Hb.
  rewrite Hpl. now apply border_far_from_spawn.
Qed.

Lemma opponent_respawns_away_witness :
  let level := LEVELS beginner in
  let s := run level (initState level) (throw ++ repeat tick 12) in
  let s' := step level s (Frame 50 (1 / 4) 0) in
  pos (player s') = spawnPoint
  /\ on_spawn_border BASE_W BASE_H (pos (opponent s'))
  /\ 70 <= dist (pos (player s')) (pos (opponent s'))
  /\ phase s' = Rebuild.
Proof.
  intros level s.
  apply (opponent_respawns_away beginner s 50 (1 / 4) 0).
  - apply reachable_from_run.
  - unfold s, level. rewrite before_the_pile. apply collapsing_thirteenth.
  - lra.
Defined.

(** ** The ball *)

(** In exact arithmetic, in every reachable state the ball is no faster than the
    strongest throw, 600 units per second; a flight tick multiplies its
    speed by the friction factor 0.985 whatever the elapsed time, and
    moves it by at most 30 units when the elapsed time is not
    negative. *)
Lemma ball_speed_and_step k s elapsed u1 u2 :
  reachable k s ->
  flight_tick s (Frame elapsed u1 u2) = true ->
  0 <= elapsed ->
  let s' := step (LEVELS k) s (Frame elapsed u1 u2) in
  len (ballVel s) <= 600
  /\ len (ballVel s') = 985 / 1000 * len (ballVel s)
  /\ dist (pos (ball s)) (pos (ball s')) <= 30.
Proof.
  intros Hr Ht Hel s'. subst s'.
  destruct (Inv2_reachable k s Hr) as (_ & _ & _ & Hv).
  unfold world.maxThrowPower in Hv.
  destruct (flight_tick_update (LEVELS k) s _ Ht) as (v1 & v2 & -> & _).
  destruct (update_flight_fields (frame_dt (Frame elapsed u1 u2)) v1 v2 s)
    as (-> & -> & _).
  split; [exact Hv|]. split.
  - rewrite len_vel_next. unfold world.ballFriction. ring.
  - set (dt := frame_dt (Frame elapsed u1 u2)).
    assert (Hdt : 0 <= dt <= 50 / 1000).
    { unfold dt. simpl. unfold Rmin. destruct (Rle_dec 50 elapsed); lra. }
    unfold dist, ball_next. simpl.
    replace (x (pos (ball s)) - (x (pos (ball s)) + x (ballVel s) * dt))
      with (- x (ballVel s) * dt) by ring.
    replace (y (pos (ball s)) - (y (pos (ball s)) + y (ballVel s) * dt))
      with (- y (ballVel s) * dt) by ring.
    rewrite hypot_scale by lra.
    replace (hypot (- x (ballVel s)) (- y (ballVel s))) with (len (ballVel s))
      by (unfold len, hypot; f_equal; ring).
    pose proof (len_nonneg (ballVel s)). nra.
Qed.

Lemma ball_speed_and_step_witness :
  let level := LEVELS beginner in
  let s := run level (initState level) (throw ++ repeat tick 12) in
  let s' := step level s (Frame 50 (1 / 4) 0) in
  len (ballVel s) <= 600
  /\ len (ballVel s') = 985 / 1000 * len (ballVel s)
  /\ dist (pos (ball s)) (pos (ball s')) <= 30.
Proof.
  intros level s.
  apply (ball_speed_and_step beginner s 50 (1 / 4) 0).
  - apply reachable_from_run.
  - unfold s, level. rewrite before_the_pile. reflexivity.
  - lra.
Defined.

Lemma frame_keeps_out_of_flight level s e :
  is_frame e = true -> phase s <> Flight -> phase (step level s e) <> Flight.
Proof.
  intros He Hp. destruct e; try discriminate. cbn [step]. unfold loop.
  destruct (negb (paused s)); [|exact Hp].
  pose proof (update_phase_edge level (Rmin 50 elapsed / 1000) u1 u2 s) as H.
  unfold update in *.
  destruct (Phase_eqb (phase s) Flight) eqn:Hf;
    [apply Phase_eqb_eq in Hf; contradiction|].
  cbn [andb] in *.
  destruct (Phase_eqb (phase s) Rebuild) eqn:Hr; [|exact Hp].
  apply Phase_eqb_eq in Hr. rewrite Hr in H.
  intros E. rewrite E in H. discriminate.
Qed.

Lemma frames_keep_out_of_flight level s fs :
  Forall (fun e => is_frame e = true) fs ->
  phase s <> Flight -> phase (run level s fs) <> Flight.
Proof.
  intros H. revert s. induction H as [|e fs He _ IH]; intros s Hp; [exact Hp|].
  rewrite run_cons. apply IH. now apply frame_keeps_out_of_flight.
Qed.

(** A frame of an unpaused flight: the throw ends, or the ball flies on,
    damped and still at 20 units per second or more. *)
Lemma flight_frame level s e :
  is_frame e = true ->
  phase s = Flight -> ballActive s = true -> paused s = false ->
  let s' := step level s e in
  phase s' <> Flight
  \/ (phase s' = Flight /\ ballActive s' = true /\ paused s' = false
      /\ len (ballVel s') = len (ballVel s) * world.ballFriction
      /\ world.ballStopSpeed <= len (ballVel s')).
Proof.
  intros He Hp Hb Hpa s'. subst s'.
  destruct e; try discriminate.
  assert (Ht : flight_tick s (Frame elapsed u1 u2) = true)
    by (simpl; now rewrite Hp, Hb, Hpa).
  destruct (flight_tick_update level s _ Ht) as (v1 & v2 & -> & _).
  set (dt := frame_dt (Frame elapsed u1 u2)).
  pose proof (update_flight_spec dt v1 v2 s) as S. simpl in S.
  destruct S as (_ & _ & _ & _ & _ & Hph).
  destruct (ball_stops dt s) eqn:Hs.
  { left. rewrite Hph.
    repeat match goal with
           | |- context [if ?b then _ else _] => destruct b
           end; discriminate. }
  destruct (negb (pileCollapsed s) && hits_pile dt s) eqn:Hh.
  { left. rewrite Hph. discriminate. }
  right.
  destruct (update_flight_fields dt v1 v2 s) as (Hv & _ & _ & _ & _ & Hpa').
  rewrite Hph, Hp, Hv, Hpa', len_vel_next.
  repeat split; auto.
  - unfold update_flight.
    cbn [pileCollapsed set_ballVel set_ball_pos pos ball ballVel x y].
    fold (ball_next dt s). fold (vel_next s).
    unfold hits_pile in Hh. rewrite Hh.
    unfold ball_stops, out_of_field in Hs.
    cbn [ballVel set_ballVel set_ball_pos pos ball]. rewrite Hs. exact Hb.
  - unfold ball_stops in Hs. apply orb_false_iff in Hs as [Hs _].
    rewrite len_vel_next in Hs. unfold Rltb in Hs.
    destruct (Rlt_dec _ _); [discriminate | lra].
Qed.

Lemma flight_frames level fs :
  Forall (fun e => is_frame e = true) fs ->
  forall s B,
    phase s = Flight -> ballActive s = true -> paused s = false ->
    len (ballVel s) <= B ->
    phase (run level s fs) <> Flight
    \/ (len (ballVel (run level s fs)) <= B * world.ballFriction ^ length fs
        /\ (fs <> [] -> world.ballStopSpeed <= len (ballVel (run level s fs)))).
Proof.
  induction 1 as [|e fs He Hfs IH]; intros s B Hp Hb Hpa Hv.
  - right. simpl. split; [lra | intros H; now contradiction H].
  - rewrite run_cons.
    destruct (flight_frame level s e He Hp Hb Hpa) as [H | (H1 & H2 & H3 & H4 & H5)].
    + left. now apply frames_keep_out_of_flight.
    + destruct (IH (step level s e) (B * world.ballFriction) H1 H2 H3)
        as [H | [H6 H7]].
      * rewrite H4. unfold world.ballFriction. nra.
      * now left.
      * right. split.
        -- simpl. rewrite <- Rmult_assoc. exact H6.
        -- intros _. destruct fs as [|e' fs']; [exact H5 | apply H7; discriminate].
Qed.

Lemma friction_pow_240 n :
  (240 <= n)%nat -> 600 * world.ballFriction ^ n < 20.
Proof.
  intros Hn.
  replace n with (12 * 20 + (n - 240))%nat by lia.
  rewrite pow_add, pow_mult.
  pose proof friction_pow_12 as H12.
  pose proof (friction_pow_le_1 (n - 240)) as Hm.
  assert (H20 : (world.ballFriction ^ 12) ^ 20 <= (835 / 1000) ^ 20)
    by (apply pow_incr; lra).
  assert (Hpos : 0 < (world.ballFriction ^ 12) ^ 20) by (apply pow_lt; lra).
  assert (Hc : (835 / 1000) ^ 20 < 1 / 30) by (simpl; lra).
  nra.
Qed.

(** X9: a throw cannot last: from any reachable state that is not
    paused, 240 frames or more in a row leave the flight phase, whatever
    their elapsed times and random numbers. *)
Theorem flight_ends_within_240_frames k s fs :
  reachable k s ->
  paused s = false ->
  Forall (fun e => is_frame e = true) fs ->
  (240 <= length fs)%nat ->
  phase (run (LEVELS k) s fs) <> Flight.
Proof.
  intros Hr Hpa Hfs Hn.
  destruct (Phase_eqb (phase s) Flight) eqn:Hp.
  - apply Phase_eqb_eq in Hp.
    pose proof (inv_flight _ _ (Inv_reachable k s Hr) Hp) as Hb.
    destruct (Inv2_reachable k s Hr) as (_ & _ & _ & Hv).
    destruct (flight_frames (LEVELS k) fs Hfs s _ Hp Hb Hpa Hv) as [H | [H1 H2]];
      [exact H|].
    exfalso.
    assert (Hne : fs <> []) by (intros ->; simpl in Hn; lia).
    specialize (H2 Hne).
    pose proof (friction_pow_240 (length fs) Hn).
    unfold world.maxThrowPower, world.ballStopSpeed in *. lra.
  - apply frames_keep_out_of_flight; [exact Hfs|].
    intros H. rewrite H in Hp. discriminate.
Qed.

Lemma repeat_tick_frames n : Forall (fun e => is_frame e = true) (repeat tick n).
Proof. induction n; simpl; constructor; auto. Qed.

Lemma flight_ends_within_240_frames_witness :
  let level := LEVELS beginner in
  let s := run level (initState level) throw in
  phase s = Flight /\ phase (run level s (repeat tick 240)) <> Flight.
Proof.
  intros level s. split.
  - unfold s, level. now rewrite throw_flying.
  - apply (flight_ends_within_240_frames beginner s (repeat tick 240)).
    + apply reachable_from_run.
    + unfold s, level. now rewrite throw_flying.
    + apply repeat_tick_frames.
    + rewrite repeat_length. lia.
Defined.

(** ** The score of a round *)

Lemma win_stays level s e :
  Inv level s -> is_reset e = false -> phase s = Win -> phase (step level s e) = Win.
Proof.
  intros I He Hw. pose proof (step_phase_edge level s e I He) as H.
  rewrite Hw in H. now destruct (phase (step level s e)).
Qed.

Lemma score_decomposition_run level es :
  level_ok level ->
  Forall (fun e => is_reset e = false) es ->
  forall s b,
    Inv level s -> Inv2 s ->
    score (metrics s) =
      (b + (if pileCollapsed s then 10 else 0)
         + (if Phase_eqb (phase s) Win then 50 else 0))%Z ->
    let s' := run level s es in
    score (metrics s') =
      (b + (if pileCollapsed s' then 10 else 0)
         + (if Phase_eqb (phase s') Win then 50 else 0))%Z.
Proof.
  intros Hl. induction 1 as [|e es He Hes IH]; intros s b I J Hs; [exact Hs|].
  cbv zeta. rewrite run_cons. apply IH;
    [now apply Inv_step | now apply Inv2_step |].
  destruct (step_bookkeeping level s e He) as (Hpc & Hsc & _).
  rewrite Hpc, Hsc, Hs.
  destruct (completing s e) eqn:Hc.
  - rewrite (completing_phase level s e Hc).
    rewrite (completing_rebuild s e Hc). cbn [Phase_eqb].
    assert (collapsing s e = false) as ->.
    { destruct (collapsing s e) eqn:E; [|reflexivity].
      rewrite (collapsing_not_completing s e E) in Hc. discriminate. }
    rewrite orb_false_r. lia.
  - destruct (Phase_eqb (phase s) Win) eqn:Hw.
    + apply Phase_eqb_eq in Hw. rewrite (win_stays level s e I He Hw).
      assert (collapsing s e = false) as ->.
      { unfold collapsing. destruct (flight_tick s e) eqn:E; [|reflexivity].
        destruct (flight_tick_update level s e E) as (_ & _ & _ & Hf).
        congruence. }
      rewrite orb_false_r. cbn [Phase_eqb]. lia.
    + assert (Phase_eqb (phase (step level s e)) Win = false) as ->.
      { destruct (Phase_eqb (phase (step level s e)) Win) eqn:E; [|reflexivity].
        apply Phase_eqb_eq in E.
        destruct (enters_win level s e E) as [H | H]; [|congruence].
        rewrite H in Hw. discriminate. }
      unfold collapsing.
      destruct (pileCollapsed s), (flight_tick s e), (hits_pile _ s);
        simpl; lia.
Qed.

(** X10: the score of a round: from a round start, after any events
    but a new round start, the score is the score the round started
    with, plus 10 if the pile has collapsed, plus 50 if the round is
    won. *)
Theorem score_of_a_round k s0 es :
  round_start (LEVELS k) s0 ->
  Forall (fun e => is_reset e = false) es ->
  let s := run (LEVELS k) s0 es in
  score (metrics s) =
    (score (metrics s0) + (if pileCollapsed s then 10 else 0)
       + (if Phase_eqb (phase s) Win then 50 else 0))%Z.
Proof.
  intros Hs Hes.
  apply score_decomposition_run; auto using LEVELS_ok.
  - apply Inv_round_start; [apply LEVELS_ok | exact Hs].
  - destruct Hs as (keepScore & u1 & u2 & t & ->). apply Inv2_resetRound.
  - destruct Hs as (keepScore & u1 & u2 & t & ->). simpl. lia.
Qed.

Lemma score_of_a_round_witness :
  let level := LEVELS beginner in
  let s0 := startGame level 0 0 (initState level) in
  let s := run level s0 ([PointerDown aim_at; PointerUp] ++ repeat tick 13) in
  score (metrics s) =
    (score (metrics s0) + (if pileCollapsed s then 10 else 0)
       + (if Phase_eqb (phase s) Win then 50 else 0))%Z.
Proof.
  intros level s0.
  apply (score_of_a_round beginner s0).
  - exists false, 0, 0, (set_metrics (set_score 0 (metrics (initState level)))
                                     (initState level)). reflexivity.
  - repeat constructor.
Defined.

(** ** Starting rounds *)

(** X11: starting a round on top of a started round is starting one
    round: the second [resetRound] decides the random spawn, and the
    score is kept only if both keep it; [startGame] is
    [resetRound(false)].  The round started is in the aim phase with
    the opponent on the point drawn. *)
Theorem resetRound_twice level keep keep' u1 u2 v1 v2 s :
  resetRound level keep u1 u2 (resetRound level keep' v1 v2 s)
  = resetRound level (keep && keep') u1 u2 s
  /\ startGame level u1 u2 s = resetRound level false u1 u2 s
  /\ phase (resetRound level keep u1 u2 s) = Aim
  /\ pos (opponent (resetRound level keep u1 u2 s))
     = randomEdgeSpawn BASE_W BASE_H u1 u2
  /\ score (metrics (resetRound level keep u1 u2 (resetRound level keep' v1 v2 s)))
     = (if keep && keep' then score (metrics s) else 0%Z).
Proof.
  break_state s. destruct keep, keep'; repeat split; reflexivity.
Qed.

(** ** The keyboard *)





(** ** The on-screen pad *)

Lemma hypot_axis a b : 0 <= b -> a * a <= b * b -> hypot a 0 <= b /\ hypot 0 a <= b.
Proof.
  intros Hb H. split; apply square_le_le; try exact Hb; rewrite hypot_sqr; nra.
Qed.

(** X13: [handleMove] does nothing out of the rebuild phase; in it, it
    moves the player along one axis only and leaves a player standing
    in the field less 10 units inside it; it never touches the phase or
    the metrics. *)
Theorem handleMove_stays_in_field k dir s :
  in_field (pos (player s)) ->
  let level := LEVELS k in
  let s' := handleMove level dir s in
  in_field (pos (player s'))
  /\ (x (pos (player s')) = x (pos (player s))
      \/ y (pos (player s')) = y (pos (player s)))
  /\ metrics s' = metrics s /\ phase s' = phase s
  /\ (phase s <> Rebuild -> s' = s)
  /\ (phase s = Rebuild ->
      pos (player s') =
      let px := x (pos (player s)) in
      let py := y (pos (player s)) in
      let d := playerSpeed level * (1 / 10) in
      match dir with
      | DirUp => mkVec2 px (Rmax 10 (py - d))
      | DirDown => mkVec2 px (Rmin (540 - 10) (py + d))
      | DirLeft => mkVec2 (Rmax 10 (px - d)) py
      | DirRight => mkVec2 (Rmin (900 - 10) (px + d)) py
      end).
Proof.
  intros [Hx Hy] level s'. subst s'.
  pose proof (playerSpeed_pos k) as Hs. fold level in Hs.
  unfold handleMove.
  destruct (Phase_eqb (phase s) Rebuild) eqn:Hp; cbn [negb].
  2:{ repeat split; try apply Hx; try apply Hy; auto.
      intros H. rewrite H in Hp. discriminate. }
  apply Phase_eqb_eq in Hp.
  set (v := playerSpeed level * (1 / 10)).
  assert (Hv : 0 < v) by (unfold v; lra).
  unfold BASE_W, BASE_H in *.
  destruct dir; cbn [set_player_pos pos player metrics phase x y];
    unfold in_field, Rmax, Rmin, BASE_W, BASE_H; cbn [x y];
    match goal with
    | |- context [Rle_dec ?a ?b] => destruct (Rle_dec a b)
    end;
    (split; [lra|]); (split; [auto|repeat split; congruence]).
Qed.

Lemma spawnPoint_in_field : in_field spawnPoint.
Proof. unfold in_field, spawnPoint, BASE_W, BASE_H. simpl. lra. Qed.

Lemma handleMove_stays_in_field_witness :
  let level := LEVELS beginner in
  let s := run level (initState level) (throw ++ repeat tick 13) in
  let s' := handleMove level DirDown s in
  in_field (pos (player s'))
  /\ pos (player s') = mkVec2 130 466.
Proof.
  intros level s s'.
  assert (E : s = collapsed) by (unfold s, level; apply flight_collapses).
  assert (Hin : in_field (pos (player s)))
    by (rewrite E; apply spawnPoint_in_field).
  destruct (handleMove_stays_in_field beginner DirDown s Hin)
    as (H1 & _ & _ & _ & _ & H2).
  fold level s' in H1, H2. split; [exact H1|].
  rewrite H2 by (rewrite E; reflexivity).
  rewrite E. cbn [collapsed player pos spawnPoint x y playerSpeed level LEVELS].
  unfold BASE_H. rewrite Rmin_right by lra. f_equal; lra.
Defined.

(** ** The pointer *)

Lemma last_default_irrelevant (l : list Vec2) a d d' :
  List.last (a :: l) d = List.last (a :: l) d'.
Proof.
  revert a. induction l as [|b l IH]; intros a; [reflexivity|].
  change (List.last (b :: l) d = List.last (b :: l) d'). apply IH.
Qed.

Lemma pointer_moves level ps :
  forall s,
    dragging s = true ->
    let s' := run level s (map PointerMove ps) in
    dragging s' = true /\ dragStart s' = dragStart s
    /\ dragCurrent s' = List.last ps (dragCurrent s)
    /\ player s' = player s /\ metrics s' = metrics s.
Proof.
  induction ps as [|p ps IH]; intros s Hd; [repeat split; auto|].
  cbv zeta. cbn [map]. rewrite run_cons. cbn [step]. unfold pointer_move.
  rewrite Hd. cbn [negb].
  destruct (IH (set_dragCurrent p s)) as (H1 & H2 & H3 & H4 & H5); [exact Hd|].
  rewrite H1, H2, H3, H4, H5. repeat split.
  destruct ps as [|q ps]; [reflexivity|].
  change (List.last (p :: q :: ps) (dragCurrent s))
    with (List.last (q :: ps) (dragCurrent s)).
  apply last_default_irrelevant.
Qed.

(** The velocity of a throw, written out: the unit vector of the drag
    vector times its length capped at 600 after scaling by 3. *)
Lemma throw_components d :
  let l := sqrt (x d * x d + y d * y d) in
  let power := Rmax 0 (Rmin 600 (l * 3)) in
  mul (norm d) (clamp (len d * world.throwPowerScale) 0 world.maxThrowPower)
  = if Reqb0 l then mkVec2 0 0 else mkVec2 (x d / l * power) (y d / l * power).
Proof.
  intros l power. unfold norm, len, hypot. fold l.
  destruct (Reqb0 l); unfold mul, clamp, world.throwPowerScale, world.maxThrowPower;
    cbn [x y]; [f_equal; ring | reflexivity].
Qed.

(** X14: a throw is decided by the player's position and the last
    pointer position: pressing in the aim phase, moving the pointer any
    number of times and releasing enters Flight with the ball on the
    player; with [d] the vector from the player to the last pointer
    position and [l] its length, the velocity is [d / l] scaled by
    [max 0 (min 600 (l * 3))], and zero when [d] is; the metrics are
    untouched. *)
Theorem throw_follows_last_pointer level s p0 ps :
  phase s = Aim ->
  let s' := run level s (PointerDown p0 :: map PointerMove ps ++ [PointerUp]) in
  let dx := x (List.last ps p0) - x (pos (player s)) in
  let dy := y (List.last ps p0) - y (pos (player s)) in
  let l := sqrt (dx * dx + dy * dy) in
  let power := Rmax 0 (Rmin 600 (l * 3)) in
  phase s' = Flight
  /\ (l = 0 -> ballVel s' = mkVec2 0 0)
  /\ (l <> 0 -> ballVel s' = mkVec2 (dx / l * power) (dy / l * power))
  /\ pos (ball s') = pos (player s)
  /\ ballActive s' = true /\ dragging s' = false
  /\ metrics s' = metrics s.
Proof.
  intros Hp. cbv zeta. rewrite run_cons, run_app.
  assert (E1 : step level s (PointerDown p0)
               = setPhase Dragging
                   (set_dragCurrent p0
                      (set_dragStart (pos (player s)) (set_dragging true s)))).
  { cbn [step]. unfold pointer_down. now rewrite Hp. }
  rewrite E1. set (s1 := setPhase Dragging _).
  destruct (pointer_moves level ps s1 eq_refl) as (H1 & H2 & H3 & H4 & H5).
  set (sr := run level s1 (map PointerMove ps)) in *. clearbody sr.
  rewrite run_cons. cbn [run step]. unfold pointer_up. rewrite H1. cbn [negb].
  cbn [phase ballVel ball pos player ballActive dragging metrics dragCurrent dragStart
       setPhase set_ballActive set_ballVel set_ball_pos set_dragging].
  rewrite H2, H3, H4, H5.
  cbn [dragStart dragCurrent s1 setPhase set_dragCurrent set_dragStart set_dragging
       player].
  rewrite throw_components. unfold sub. cbn [x y].
  repeat split.
  - intros Hl. now rewrite Reqb0_true.
  - intros Hl. now rewrite Reqb0_false.
Qed.

Lemma throw_follows_last_pointer_witness :
  let level := LEVELS beginner in
  let s := run level (initState level) [StartGame 0 0] in
  let s' := run level s (PointerDown (mkVec2 300 300)
                           :: map PointerMove [mkVec2 200 200; mkVec2 130 50]
                           ++ [PointerUp]) in
  phase s' = Flight
  /\ ballVel s' = mkVec2 0 (- 600)
  /\ pos (ball s') = pos (player s)
  /\ metrics s' = metrics s.
Proof.
  intros level s s'.
  assert (Hp : phase s = Aim) by reflexivity.
  destruct (throw_follows_last_pointer level s (mkVec2 300 300)
              [mkVec2 200 200; mkVec2 130 50] Hp)
    as (Hf & _ & Hv & Hb & _ & _ & Hm).
  fold s' in Hf, Hv, Hb, Hm.
  cbn [List.last] in Hv.
  replace (pos (player s)) with (mkVec2 130 (BASE_H - 90)) in Hv by reflexivity.
  cbn [x y] in Hv. unfold BASE_H in Hv.
  assert (Hl : sqrt ((130 - 130) * (130 - 130)
                     + (50 - (540 - 90)) * (50 - (540 - 90))) = 400)
    by (apply sqrt_lem_1; lra).
  rewrite Hl in Hv.
  assert (Hpow : Rmax 0 (Rmin 600 (400 * 3)) = 600).
  { rewrite Rmin_left by lra. apply Rmax_right. lra. }
  rewrite Hpow in Hv.
  repeat split; auto.
  rewrite Hv by lra. f_equal; lra.
Defined.

(** ** Pausing *)

Lemma paused_frame level s e : paused s = true -> is_frame e = true -> step level s e = s.
Proof.
  intros Hp He. destruct e; try discriminate. cbn [step]. unfold loop.
  now rewrite Hp.
Qed.

Lemma paused_onDown key code s :
  paused (onDown key code s)
  = if String.eqb (toLowerCase key) "p" then negb (paused s) else paused s.
Proof.
  unfold onDown.
  destruct (String.eqb _ "p"), (String.eqb code "Space" && _);
    unfold setPaused; cbn [paused];
    try (destruct (tryPlaceStone_fields (set_keys (<[toLowerCase key:=true]> (keys s)) s))
           as (_ & _ & _ & _ & _ & _ & -> & _)); reflexivity.
Qed.

(** X15: a paused game is frozen: while the pause flag is set, frames
    leave the whole state as it is, however many and however long; the P
    key, in either case, and the Pause button clear the flag, and no
    other key does. *)
Theorem paused_game_is_frozen level s fs key code :
  paused s = true ->
  Forall (fun e => is_frame e = true) fs ->
  run level s fs = s
  /\ paused (onDown key code s) = negb (String.eqb (toLowerCase key) "p")
  /\ paused (onDown "P" code s) = false
  /\ paused (pause_button s) = false
  /\ pause_button (pause_button s) = s.
Proof.
  intros Hp Hfs. split; [|split; [|split; [|split]]].
  - induction Hfs as [|e fs He _ IH]; [reflexivity|].
    rewrite run_cons, paused_frame by assumption. exact IH.
  - rewrite paused_onDown, Hp. now destruct (String.eqb _ "p").
  - rewrite paused_onDown, Hp. reflexivity.
  - unfold pause_button. cbn [paused setPaused]. now rewrite Hp.
  - break_state s. unfold pause_button. simpl. now rewrite negb_involutive.
Qed.

Lemma paused_game_is_frozen_witness :
  let level := LEVELS beginner in
  let s := run level (initState level) (throw ++ [KeyDown "P" "KeyP"]) in
  run level s (repeat tick 3) = s
  /\ paused (onDown "p" "KeyP" s) = false.
Proof.
  intros level s.
  assert (Hp : paused s = true).
  { unfold s, level. rewrite run_app, throw_flying. reflexivity. }
  destruct (paused_game_is_frozen level s (repeat tick 3) "p" "KeyP" Hp
              (repeat_tick_frames 3)) as (H1 & H2 & _).
  split; [exact H1 | exact H2].
Defined.

(** ** The player in the field *)

Lemma player_next_in_field k dt s :
  0 <= dt -> in_field (player_next (LEVELS k) dt s).
Proof.
  intros Hdt. pose proof (playerSpeed_pos k) as Hs.
  assert (Hsd : 0 <= playerSpeed (LEVELS k) * dt) by nra.
  unfold player_next.
  set (kx := clamp _ 10 (BASE_W - 10)). set (ky := clamp _ 10 (BASE_H - 10)).
  assert (Hkx : 10 <= kx <= BASE_W - 10)
    by (apply clamp_bounds; unfold BASE_W; lra).
  assert (Hky : 10 <= ky <= BASE_H - 10)
    by (apply clamp_bounds; unfold BASE_H; lra).
  unfold in_field.
  destruct (heldDir s) as [[| | |]|]; simpl; repeat split; try tauto;
    unfold Rmax, Rmin;
    match goal with |- context [Rle_dec ?a ?b] => destruct (Rle_dec a b) end;
    lra.
Qed.

Lemma step_player_nonframe level s e :
  is_reset e = false -> is_frame e = false -> player (step level s e) = player s.
Proof.
  intros He Hf. destruct e; try discriminate; cbn [step].
  - unfold onDown.
    destruct (String.eqb _ "p"), (String.eqb code "Space" && _);
      unfold setPaused; cbn [player];
      try (destruct (tryPlaceStone_fields (set_keys (<[toLowerCase key:=true]> (keys s)) s))
             as (-> & _)); reflexivity.
  - reflexivity.
  - unfold pointer_down.
    destruct (negb (Phase_eqb (phase s) Aim)); [|reflexivity].
    destruct (Phase_eqb (phase s) Rebuild); [|reflexivity].
    apply tryPlaceStone_fields.
  - unfold pointer_move. now destruct (negb (dragging s)).
  - unfold pointer_up. now destruct (negb (dragging s)).
  - reflexivity.
  - apply tryPlaceStone_fields.
Qed.

Lemma step_in_field k s e :
  forward e -> in_field (pos (player s)) ->
  in_field (pos (player (step (LEVELS k) s e))).
Proof.
  intros Hf Hin.
  destruct (is_reset e) eqn:He.
  { destruct e; try discriminate; apply spawnPoint_in_field. }
  destruct (is_frame e) eqn:Hfr.
  - destruct e; try discriminate. simpl in Hf. cbn [step]. unfold loop.
    destruct (negb (paused s)); [|exact Hin].
    assert (Hdt : 0 <= Rmin 50 elapsed / 1000).
    { unfold Rmin. destruct (Rle_dec 50 elapsed); lra. }
    unfold update. destruct (Phase_eqb (phase s) Rebuild) eqn:Hr.
    + assert (Phase_eqb (phase s) Flight = false) as ->
        by (destruct (phase s); try discriminate; reflexivity).
      cbn [andb]. rewrite update_rebuild_eq. cbv zeta.
      destruct (Rleb _ _); cbn [pos player setPhase set_opponent_pos set_player_pos];
        now apply player_next_in_field.
    + destruct (Phase_eqb (phase s) Flight && ballActive s); [|exact Hin].
      destruct (update_flight_fields (Rmin 50 elapsed / 1000) u1 u2 s)
        as (_ & _ & -> & _). exact Hin.
  - now rewrite step_player_nonframe.
Qed.

(** X16: the player never leaves the field: whatever the events, round
    starts included, as long as no frame has a negative elapsed time a
    player that is inside the field less 10 units stays inside it. *)
Theorem player_stays_in_field k s es :
  in_field (pos (player s)) ->
  Forall forward es ->
  in_field (pos (player (run (LEVELS k) s es))).
Proof.
  intros Hin Hes. revert s Hin.
  induction Hes as [|e es He _ IH]; intros s Hin; [exact Hin|].
  rewrite run_cons. apply IH. now apply step_in_field.
Qed.

Lemma player_stays_in_field_witness :
  let level := LEVELS beginner in
  in_field (pos (player (run level (initState level)
                           [StartGame 0 0; Frame 16 0 0; KeyDown "w" "KeyW";
                            HoldDir (Some DirLeft); Frame 50 0 0]))).
Proof.
  intros level.
  apply (player_stays_in_field beginner (initState level)).
  - apply spawnPoint_in_field.
  - repeat constructor; simpl; lra.
Defined.

(** ** Before and after the collapse *)

(** X17: once the pile has collapsed the attempts left are frozen: no
    event but a round start changes them, and the pile stays
    collapsed. *)
Theorem attempts_frozen_after_collapse level s es :
  pileCollapsed s = true ->
  Forall (fun e => is_reset e = false) es ->
  attemptsLeft (metrics (run level s es)) = attemptsLeft (metrics s)
  /\ pileCollapsed (run level s es) = true.
Proof.
  intros Hc Hes. revert s Hc.
  induction Hes as [|e es He _ IH]; intros s Hc; [auto|].
  rewrite run_cons.
  destruct (step_bookkeeping level s e He) as (Hpc & _ & Ha & _).
  destruct (IH (step level s e)) as [I1 I2].
  - rewrite Hpc, Hc. reflexivity.
  - split; [|exact I2]. rewrite I1, Ha.
    unfold failed_throw. rewrite Hc, andb_false_r. cbn [andb]. lia.
Qed.

Lemma attempts_frozen_after_collapse_witness :
  let level := LEVELS beginner in
  let s := run level (initState level) (throw ++ repeat tick 13) in
  attemptsLeft (metrics (run level s [tick; PlaceButton; PointerDown aim_at; tick]))
  = 3%Z.
Proof.
  intros level s.
  assert (Hc : pileCollapsed s = true)
    by (unfold s, level; now rewrite flight_collapses).
  assert (Ha : attemptsLeft (metrics s) = 3%Z)
    by (unfold s, level; now rewrite flight_collapses).
  rewrite <- Ha.
  apply (attempts_frozen_after_collapse level s
           [tick; PlaceButton; PointerDown aim_at; tick] Hc).
  repeat constructor.
Defined.

(** X18: nothing is stacked on a standing pile: in a reachable state
    whose pile has not collapsed no stone is placed, the phase is
    neither Rebuild nor Win, and a place action leaves the state as it
    is. *)
Theorem standing_pile_has_no_stones k s :
  reachable k s ->
  pileCollapsed s = false ->
  stonesPlaced (metrics s) = 0%Z
  /\ phase s <> Rebuild /\ phase s <> Win
  /\ tryPlaceStone s = s.
Proof.
  intros Hr Hc.
  pose proof (Inv_reachable k s Hr) as I.
  destruct (Inv2_reachable k s Hr) as (Hw & Hs & _).
  assert (Hnr : phase s <> Rebuild).
  { intros H. destruct (inv_rebuild _ _ I H). congruence. }
  repeat split; auto.
  - intros H. specialize (Hw H). congruence.
  - now apply tryPlaceStone_idle.
Qed.

Lemma standing_pile_has_no_stones_witness :
  let level := LEVELS beginner in
  let s := run level (initState level) (throw ++ repeat tick 12) in
  stonesPlaced (metrics s) = 0%Z
  /\ phase s <> Rebuild /\ phase s <> Win
  /\ tryPlaceStone s = s.
Proof.
  intros level s.
  apply (standing_pile_has_no_stones beginner s).
  - apply reachable_from_run.
  - unfold s, level. now rewrite before_the_pile.
Defined.

(** ** Winning and losing *)

Lemma Inv_reset_event level s e :
  level_ok level -> is_reset e = true -> Inv level (step level s e).
Proof.
  intros Hl He. destruct e; try discriminate; cbn [step]; [|unfold startGame];
    now apply Inv_resetRound.
Qed.

Lemma stack_invariant_step level s e :
  level_ok level ->
  Inv level s ->
  stonesTotal (metrics s) = stones level
  /\ (phase s <> Win -> (stonesPlaced (metrics s) < stonesTotal (metrics s))%Z) ->
  stonesTotal (metrics (step level s e)) = stones level
  /\ (phase (step level s e) <> Win ->
      (stonesPlaced (metrics (step level s e))
       < stonesTotal (metrics (step level s e)))%Z).
Proof.
  intros Hl I [Ht Hlt].
  destruct (is_reset e) eqn:He.
  { pose proof (inv_throwing _ _ (Inv_reset_event level s e Hl He)) as H.
    assert (Hph : phase (step level s e) = Aim)
      by (destruct e; try discriminate; reflexivity).
    rewrite Hph in H. destruct (H eq_refl) as (_ & _ & Hlt').
    split; [|intros _; exact Hlt'].
    destruct e; try discriminate; cbn [step]; [|unfold startGame];
      unfold resetRound; cbn [metrics set_metrics setPhase set_pileCollapsed
        set_ballActive set_ballVel set_ball_pos set_opponent_pos set_player_pos];
      [destruct keepScore|]; reflexivity. }
  destruct (step_bookkeeping level s e He) as (_ & _ & _ & Hsp & Hst).
  rewrite Hst, Hsp. split; [exact Ht|]. intros Hnw.
  assert (Hw : phase s <> Win).
  { intros H. apply Hnw. now apply win_stays. }
  specialize (Hlt Hw).
  destruct (placing s e) eqn:Hpl; [|lia].
  destruct (stonesPlaced (metrics s) + 1 >=? stonesTotal (metrics s))%Z eqn:E.
  - exfalso. apply Hnw. apply completing_phase. unfold completing.
    now rewrite Hpl, E.
  - rewrite Z.geb_leb in E. apply Z.leb_gt in E. lia.
Qed.

Lemma stack_invariant k s :
  reachable k s ->
  stonesTotal (metrics s) = stones (LEVELS k)
  /\ (phase s <> Win -> (stonesPlaced (metrics s) < stonesTotal (metrics s))%Z).
Proof.
  intros Hr.
  assert (G : Inv (LEVELS k) s
              /\ stonesTotal (metrics s) = stones (LEVELS k)
              /\ (phase s <> Win ->
                  (stonesPlaced (metrics s) < stonesTotal (metrics s))%Z)).
  { induction Hr as [|s e _ [I J]].
    - split; [apply Inv_init, LEVELS_ok|]. split; [reflexivity|].
      intros _. destruct k; reflexivity.
    - split; [apply Inv_step; [apply LEVELS_ok | exact I]|].
      apply stack_invariant_step; [apply LEVELS_ok | exact I | exact J]. }
  apply G.
Qed.

(** X19: a round is won exactly when the stack is complete: in every
    reachable state the phase is Win if and only if every stone of the
    round is placed, and in any other phase at least one is missing. *)
Theorem won_iff_stack_complete k s :
  reachable k s ->
  (phase s = Win <-> stonesPlaced (metrics s) = stonesTotal (metrics s))
  /\ (phase s <> Win -> (stonesPlaced (metrics s) < stonesTotal (metrics s))%Z).
Proof.
  intros Hr. destruct (stack_invariant k s Hr) as [Ht Hlt].
  pose proof (Inv_reachable k s Hr) as I.
  repeat split; auto.
  - apply (inv_win _ _ I).
  - intros H. destruct (Phase_eqb (phase s) Win) eqn:E;
      [now apply Phase_eqb_eq|].
    assert (Hn : phase s <> Win) by (intros H'; rewrite H' in E; discriminate).
    specialize (Hlt Hn). lia.
Qed.

Lemma won_iff_stack_complete_witness :
  let level := LEVELS beginner in
  let s := run level (initState level) (to_the_pile ++ repeat PlaceButton 5) in
  phase s = Win /\ stonesPlaced (metrics s) = stonesTotal (metrics s).
Proof.
  intros level s.
  assert (Hr : reachable beginner s) by apply reachable_from_run.
  destruct (won_iff_stack_complete beginner s Hr) as ([H _] & _).
  destruct round_won as (Hw & _). fold level in Hw. fold s in Hw.
  split; [exact Hw | exact (H Hw)].
Defined.

(** X20: a round is lost in two ways only: an event that enters Lose is
    an unpaused frame, either of the rebuild phase that leaves the
    opponent within tag-range of the player, or of the flight phase that
    ends a failed throw with no attempt left. *)
Theorem lost_by_tag_or_exhaustion k s e :
  reachable k s ->
  phase s <> Lose ->
  phase (step (LEVELS k) s e) = Lose ->
  let s' := step (LEVELS k) s e in
  is_frame e = true /\ paused s = false
  /\ ((phase s = Rebuild
       /\ dist (pos (player s')) (pos (opponent s')) <= world.tagRange)
      \/ (phase s = Flight /\ failed_throw s e = true
          /\ attemptsLeft (metrics s') = 0%Z)).
Proof.
  intros Hr Hnl Hl. cbv zeta.
  pose proof (Inv_reachable k s Hr) as I.
  assert (He : is_reset e = false).
  { destruct e; try reflexivity; discriminate. }
  pose proof (step_phase_edge _ s e I He) as Hedge. rewrite Hl in Hedge.
  assert (Hfr : is_frame e = true).
  { destruct (is_frame e) eqn:E; [reflexivity|]. exfalso.
    assert (Hcases : match e with
                     | KeyDown _ _ | PlaceButton => True
                     | PointerDown _ => phase s <> Aim
                     | _ => False
                     end \/ phase (step (LEVELS k) s e) = phase s
                         \/ phase (step (LEVELS k) s e) = Dragging
                         \/ phase (step (LEVELS k) s e) = Flight).
    { destruct e; try discriminate; cbn [step]; auto.
      - destruct (Phase_eqb (phase s) Aim) eqn:Ha.
        + right. right. left. unfold pointer_down. now rewrite Ha.
        + left. intros H. rewrite H in Ha. discriminate.
      - right. unfold pointer_move. destruct (negb (dragging s)); auto.
      - right. unfold pointer_up. destruct (negb (dragging s)); auto. }
    destruct Hcases as [H | [H | [H | H]]]; try congruence.
    rewrite (place_or_same (LEVELS k) s e H) in Hl.
    destruct (completing s e); [discriminate | contradiction]. }
  destruct e; try discriminate. cbn [step] in *. unfold loop in *.
  destruct (paused s) eqn:Hpa; cbn [negb] in *; [contradiction|].
  split; [reflexivity|]. split; [reflexivity|].
  unfold update in *.
  destruct (Phase_eqb (phase s) Flight) eqn:Hf.
  - right. apply Phase_eqb_eq in Hf. rewrite Hf in *. cbn [Phase_eqb andb] in *.
    pose proof (inv_flight _ _ I Hf) as Hb. rewrite Hb in *.
    destruct (inv_throwing _ _ I) as (Hpc & Hat & _); [now rewrite Hf|].
    set (dt := Rmin 50 elapsed / 1000) in *.
    pose proof (update_flight_spec dt u1 u2 s) as S. simpl in S.
    destruct S as (Hpc' & _ & Ha & _ & _ & Hph).
    rewrite Hl, Hpc' in Hph. rewrite Hpc' in Ha. rewrite Hpc in *.
    cbn [negb andb orb] in *.
    assert (Hft : failed_throw s (Frame elapsed u1 u2)
                  = negb (hits_pile dt s) && ball_stops dt s).
    { unfold failed_throw. simpl. now rewrite Hpa, Hf, Hb, Hpc. }
    rewrite Hft.
    destruct (ball_stops dt s), (hits_pile dt s); cbn [negb andb orb] in *;
      try discriminate; try congruence.
    destruct (_ >? 0)%Z eqn:E; [discriminate|].
    rewrite Z.gtb_ltb in E. apply Z.ltb_ge in E.
    repeat split; auto. lia.
  - left. cbn [andb] in *.
    destruct (Phase_eqb (phase s) Rebuild) eqn:Hrb; [|contradiction].
    split; [now apply Phase_eqb_eq|].
    rewrite update_rebuild_eq in *. cbv zeta in *.
    destruct (Rleb _ _) eqn:T.
    + cbn [pos player opponent setPhase set_opponent_pos set_player_pos].
      now apply Rleb_iff.
    + cbn [phase set_opponent_pos set_player_pos] in Hl. contradiction.
Qed.

(** A ball thrown with no velocity stops on its first tick. *)
Lemma still_ball_fails s elapsed u1 u2 :
  phase s = Flight -> paused s = false -> ballActive s = true ->
  pileCollapsed s = false -> ballVel s = mkVec2 0 0 ->
  failed_throw s (Frame elapsed u1 u2) = true.
Proof.
  intros Hp Hpa Hb Hc Hv.
  unfold failed_throw, flight_tick, hits_pile, ball_stops.
  rewrite Hp, Hpa, Hb, Hc. cbn [negb andb Phase_eqb].
  rewrite segmentCircleIntersect_point
    by (unfold ball_next; simpl; rewrite Hv; simpl; ring).
  unfold vel_next, len. rewrite Hv. simpl.
  replace (0 * world.ballFriction) with 0 by ring. rewrite hypot_0.
  rewrite Rltb_true by (unfold world.ballStopSpeed; lra). reflexivity.
Qed.

Lemma zero_throw level s :
  phase s = Aim ->
  let s' := run level s [PointerDown (pos (player s)); PointerUp] in
  phase s' = Flight /\ ballVel s' = mkVec2 0 0 /\ ballActive s' = true
  /\ paused s' = paused s /\ pileCollapsed s' = pileCollapsed s
  /\ metrics s' = metrics s /\ player s' = player s.
Proof.
  intros Hp. cbv zeta. cbn [run step]. unfold pointer_down. rewrite Hp.
  cbn [Phase_eqb negb]. unfold pointer_up.
  cbn [dragging setPhase set_dragCurrent set_dragStart set_dragging negb
       dragCurrent dragStart player pos].
  repeat split.
  cbn [ballVel setPhase set_ballActive set_ballVel].
  rewrite norm_zero by (simpl; ring). unfold mul. simpl. f_equal; ring.
Qed.

Lemma failed_throw_step level s e :
  failed_throw s e = true ->
  let s' := step level s e in
  attemptsLeft (metrics s') = (attemptsLeft (metrics s) - 1)%Z
  /\ phase s' = (if (attemptsLeft (metrics s') >? 0)%Z then Aim else Lose)
  /\ paused s' = paused s /\ pileCollapsed s' = false /\ player s' = player s.
Proof.
  intros Hf. cbv zeta.
  assert (He : is_reset e = false).
  { unfold failed_throw in Hf. destruct e; try reflexivity; discriminate. }
  destruct (step_bookkeeping level s e He) as (Hpc & _ & Ha & _).
  rewrite Hf in Ha.
  pose proof (failed_throw_phase level s e Hf) as Hph.
  unfold failed_throw in Hf.
  apply andb_true_iff in Hf as [Hf _]. apply andb_true_iff in Hf as [Hf Hh].
  apply andb_true_iff in Hf as [Ht Hc].
  apply negb_true_iff in Hc, Hh.
  destruct (flight_tick_update level s e Ht) as (v1 & v2 & E & Hp).
  repeat split; auto.
  - rewrite E. apply update_flight_fields.
  - rewrite Hpc, Hc. unfold collapsing. now rewrite Ht, Hc, Hh.
  - rewrite E. apply update_flight_fields.
Qed.

Lemma lost_by_tag_or_exhaustion_witness :
  let level := LEVELS advanced in
  let s := run level (initState level)
             ([StartGame 0 0] ++ [PointerDown spawnPoint; PointerUp]
              ++ [Frame 16 0 0] ++ [PointerDown spawnPoint; PointerUp]) in
  let e := Frame 16 0 0 in
  phase s = Flight
  /\ phase (step level s e) = Lose
  /\ attemptsLeft (metrics (step level s e)) = 0%Z.
Proof.
  intros level s e.
  assert (Hr : reachable advanced s) by apply reachable_from_run.
  assert (Es : s = run level (step level (run level (run level
                 (initState level) [StartGame 0 0])
                 [PointerDown spawnPoint; PointerUp]) (Frame 16 0 0))
                 [PointerDown spawnPoint; PointerUp]).
  { unfold s. rewrite !run_app. rewrite (run_cons level _ (Frame 16 0 0) []).
    reflexivity. }
  clearbody s.
  set (s0 := run level (initState level) [StartGame 0 0]) in *.
  assert (H0 : pos (player s0) = spawnPoint) by reflexivity.
  pose proof (zero_throw level s0 eq_refl) as HA. cbv zeta in HA.
  rewrite H0 in HA. destruct HA as (A1 & A2 & A3 & A4 & A5 & A6 & A7).
  set (sA := run level s0 [PointerDown spawnPoint; PointerUp]) in *.
  assert (FA : failed_throw sA (Frame 16 0 0) = true)
    by (apply still_ball_fails; auto).
  destruct (failed_throw_step level sA (Frame 16 0 0) FA) as (B1 & B2 & B3 & B4 & B5).
  set (sB := step level sA (Frame 16 0 0)) in *.
  rewrite A6 in B1. change (attemptsLeft (metrics s0)) with 2%Z in B1.
  rewrite B1 in B2. cbn [Z.sub Z.gtb Z.compare Z.pos_sub Z.opp Z.add] in B2.
  assert (HB : pos (player sB) = spawnPoint) by (rewrite B5, A7; exact H0).
  pose proof (zero_throw level sB B2) as HC. cbv zeta in HC.
  rewrite HB in HC. rewrite <- Es in HC.
  destruct HC as (C1 & C2 & C3 & C4 & C5 & C6 & C7).
  assert (FC : failed_throw s e = true).
  { assert (P0 : paused s0 = false) by reflexivity.
    assert (Q0 : pileCollapsed s0 = false) by reflexivity.
    apply still_ball_fails; auto; congruence. }
  assert (Hlose : phase (step level s e) = Lose /\
                  attemptsLeft (metrics (step level s e)) = 0%Z).
  { destruct (failed_throw_step level s e FC) as (D1 & D2 & _).
    rewrite C6, B1 in D1. rewrite D1 in D2. split; [exact D2 | exact D1]. }
  destruct Hlose as [Hl Hz].
  assert (Hnl : phase s <> Lose) by (rewrite C1; discriminate).
  destruct (lost_by_tag_or_exhaustion advanced s e Hr Hnl Hl)
    as (_ & _ & [[H _] | (H1 & _ & H3)]).
  - rewrite C1 in H. discriminate.
  - repeat split; assumption.
Defined.
